(** * asyncigo: a shallow embedding of the future / task / event-loop runtime

    The Go package [asyncio_go] (file [asyncio.go]) is a single-threaded
    cooperative runtime.  Futures are heap cells shared by pointer, and the
    closures registered on them mutate other cells; the embedding therefore
    keeps an explicit store, addresses futures, tasks and mutexes by index,
    and represents every closure of the source by a constructor that records
    what the closure captured. *)

From Stdlib Require Import ZArith Lia Bool List.
From Stdlib.Strings Require Import Byte.
From stdpp Require Import base list.
Import ListNotations.

Set Default Proof Using "Type".

(** ** Errors *)

(** Go's [error] values that the package creates or inspects.  [Wrapped]
    stands for an error whose [Unwrap] returns [inner]. *)
Inductive err : Type :=
| Canceled            (* context.Canceled *)
| DeadlineExceeded    (* context.DeadlineExceeded *)
| StillPending        (* errors.New("future is still pending") *)
| EOF                 (* io.EOF *)
| EAGAIN              (* syscall.EAGAIN, equal to syscall.EWOULDBLOCK on Linux *)
| Custom (n : nat)
| Wrapped (n : nat) (inner : err).

(** [error] is an interface: [None] is [nil]. *)
Definition error : Type := option err.

Fixpoint err_eqb (a b : err) : bool :=
  match a, b with
  | Canceled, Canceled | DeadlineExceeded, DeadlineExceeded
  | StillPending, StillPending | EOF, EOF | EAGAIN, EAGAIN => true
  | Custom n, Custom m => Nat.eqb n m
  | Wrapped n x, Wrapped m y => Nat.eqb n m && err_eqb x y
  | _, _ => false
  end.

(** [errors.Is]: the target is looked for along the [Unwrap] chain. *)
Fixpoint err_is (e target : err) : bool :=
  err_eqb e target ||
  match e with
  | Wrapped _ inner => err_is inner target
  | _ => false
  end.

Definition errors_Is (e : error) (target : err) : bool :=
  match e with
  | None => false
  | Some x => err_is x target
  end.

(** ** Outcomes of a call *)

(** A call returns, panics (nil dereference, index out of range, the
    explicit [panic] of [withTask]) or exhausts the fuel of the model. *)
Inductive res (A : Type) : Type :=
| Done (a : A)
| Panic
| OutOfFuel.
Arguments Done {A} a.
Arguments Panic {A}.
Arguments OutOfFuel {A}.

Definition bind {A B : Type} (r : res A) (k : A -> res B) : res B :=
  match r with
  | Done a => k a
  | Panic => Panic
  | OutOfFuel => OutOfFuel
  end.

Notation "'let*' x ':=' r 'in' k" := (bind r (fun x => k))
  (at level 10, x pattern, r at level 100, k at level 200).

Fixpoint foldM {A S : Type} (f : A -> S -> res S) (l : list A) (s : S) : res S :=
  match l with
  | [] => Done s
  | a :: l' => let* s' := f a s in foldM f l' s'
  end.

(** ** Pointers and closures *)

(** Pointers are indices into the lists of the store. *)
Abbreviation ptr := nat (only parsing).       (* *Future[ResType] *)
Abbreviation task_id := nat (only parsing).   (* *Task[RetType] *)
Abbreviation mutex_id := nat (only parsing).  (* *Mutex *)
Abbreviation cell_id := nat (only parsing).   (* the variables captured by Wait's closure *)

Inductive WaitMode : Type := WaitFirstResult | WaitFirstError | WaitAll.

Definition WaitMode_eqb (a b : WaitMode) : bool :=
  match a, b with
  | WaitFirstResult, WaitFirstResult | WaitFirstError, WaitFirstError
  | WaitAll, WaitAll => true
  | _, _ => false
  end.

(** The [func(error)] closures handed to [AddDoneCallback]. *)
Inductive done_callback : Type :=
| DcUser (tag : nat)                 (* caller's observer *)
| DcTaskDone (t : task_id)           (* SpawnTask, line 205 *)
| DcStep (t : task_id)               (* Task.Step, line 236 *)
| DcWait (c : cell_id) (mode : WaitMode) (n : nat) (waitFut : ptr). (* Wait, line 863 *)

(** The [func(ResType, error)] closures stored in [Future.callbacks]. *)
Inductive callback : Type :=
| CbUser (tag : nat)                 (* caller's observer *)
| CbDone (d : done_callback)         (* AddDoneCallback's wrapper, line 83 *)
| CbShieldFwd (fut : ptr)            (* Shield, line 136 *)
| CbShieldBack (f : ptr).            (* Shield, line 139 *)

(** The [func()] closures queued on the event loop. *)
Inductive loop_callback : Type :=
| LcUser (tag : nat)
| LcStart (t : task_id)              (* SpawnTask, line 217 *)
| LcStep (t : task_id).              (* Task.Step, line 240 *)

(** A [context.Context] as far as a future looks at it: its [Err()]. *)
Record Ctx : Type := { ctx_err : error }.

(** ** The store *)

Section Runtime.

(** [V] is the result type of the futures of the store and [zero] its zero
    value ([var zero ResType]); where the source writes [nil] into a
    [Future[any]], that is [zero] as well. *)
Context {V : Type} (zero : V).

(** [Future[ResType]] (line 39); [name] is only ever written. *)
Record Future : Type := {
  ctx : option Ctx;
  done : bool;
  err_ : error;
  result : V;
  callbacks : list callback }.

(** The body of a coroutine, reduced to the calls into the runtime that it
    makes.  A failed [Await], [Yield] or [Lock] makes the coroutine return
    the zero value and that error, as the coroutine of [AsyncStream.Write]
    does. *)
Inductive prog : Type :=
| PRet (v : V) (e : error)            (* return v, e *)
| PMark (tag : nat) (k : prog)        (* an observable statement of the body *)
| PAwait (f : ptr) (k : prog)         (* f.Await(ctx) *)
| PYield (k : prog)                   (* RunningLoop(ctx).Yield(ctx, nil) *)
| PLock (m : mutex_id) (k : prog)     (* m.Lock(ctx) *)
| PUnlock (m : mutex_id) (k : prog).  (* m.Unlock() *)

(** The state of the [iter.Pull] iterator that runs the coroutine. *)
Inductive coro_state : Type :=
| CoNew (body : prog)                       (* next() was never called *)
| CoSuspended (fut : option ptr) (k : prog) (* inside yield(fut) *)
| CoRunning
| CoFinished.

(** [Task[RetType]] (line 160).  [next]/[stop]/[yielder] are [coro];
    [cancel] acts on [cause], the cancellation cause of the task's own
    context. *)
Record Task : Type := {
  coro : coro_state;
  cause : error;
  pendingFut : option ptr;
  resultFut : ptr }.

(** [Callback] (line 303): [index] and [queue] only serve removal. *)
Record Callback : Type := {
  callback_ : loop_callback;
  when : Z }.

(** What an observer can see of a run. *)
Inductive event : Type :=
| EvResult (tag : nat) (v : V) (e : error)  (* a CbUser closure was called *)
| EvDone (tag : nat) (e : error)            (* a DcUser closure was called *)
| EvLoop (tag : nat)                        (* a LcUser closure was called *)
| EvStart (t : task_id)                     (* the coroutine body of t began *)
| EvMark (t : task_id) (tag : nat)
| EvAcquire (t : task_id) (m : mutex_id)    (* Lock returned nil to t *)
| EvLockErr (t : task_id) (m : mutex_id)    (* Lock returned an error to t *)
| EvUnlock (t : task_id) (m : mutex_id).    (* t called Unlock *)

Record state : Type := {
  heap : list Future;
  cells : list (nat * error);         (* Wait: [done] and [futErr] *)
  tasks : list Task;
  mutexes : list (option ptr);        (* Mutex.unlockFut *)
  pendingCallbacks : list Callback;   (* EventLoop.pendingCallbacks *)
  currentTasks : list task_id;        (* EventLoop.currentTasks *)
  now : Z;                            (* time.Now(), in nanoseconds *)
  parent_cause : error;               (* cause of the context tasks are spawned in *)
  trace : list event }.

Definition set_heap (h : list Future) (s : state) : state :=
  {| heap := h; cells := cells s; tasks := tasks s; mutexes := mutexes s;
     pendingCallbacks := pendingCallbacks s; currentTasks := currentTasks s;
     now := now s; parent_cause := parent_cause s; trace := trace s |}.
Definition set_cells (c : list (nat * error)) (s : state) : state :=
  {| heap := heap s; cells := c; tasks := tasks s; mutexes := mutexes s;
     pendingCallbacks := pendingCallbacks s; currentTasks := currentTasks s;
     now := now s; parent_cause := parent_cause s; trace := trace s |}.
Definition set_tasks (t : list Task) (s : state) : state :=
  {| heap := heap s; cells := cells s; tasks := t; mutexes := mutexes s;
     pendingCallbacks := pendingCallbacks s; currentTasks := currentTasks s;
     now := now s; parent_cause := parent_cause s; trace := trace s |}.
Definition set_mutexes (m : list (option ptr)) (s : state) : state :=
  {| heap := heap s; cells := cells s; tasks := tasks s; mutexes := m;
     pendingCallbacks := pendingCallbacks s; currentTasks := currentTasks s;
     now := now s; parent_cause := parent_cause s; trace := trace s |}.
Definition set_pendingCallbacks (q : list Callback) (s : state) : state :=
  {| heap := heap s; cells := cells s; tasks := tasks s; mutexes := mutexes s;
     pendingCallbacks := q; currentTasks := currentTasks s;
     now := now s; parent_cause := parent_cause s; trace := trace s |}.
Definition set_currentTasks (c : list task_id) (s : state) : state :=
  {| heap := heap s; cells := cells s; tasks := tasks s; mutexes := mutexes s;
     pendingCallbacks := pendingCallbacks s; currentTasks := c;
     now := now s; parent_cause := parent_cause s; trace := trace s |}.
Definition set_parent_cause (e : error) (s : state) : state :=
  {| heap := heap s; cells := cells s; tasks := tasks s; mutexes := mutexes s;
     pendingCallbacks := pendingCallbacks s; currentTasks := currentTasks s;
     now := now s; parent_cause := e; trace := trace s |}.
Definition set_now (z : Z) (s : state) : state :=
  {| heap := heap s; cells := cells s; tasks := tasks s; mutexes := mutexes s;
     pendingCallbacks := pendingCallbacks s; currentTasks := currentTasks s;
     now := z; parent_cause := parent_cause s; trace := trace s |}.
Definition emit (ev : event) (s : state) : state :=
  {| heap := heap s; cells := cells s; tasks := tasks s; mutexes := mutexes s;
     pendingCallbacks := pendingCallbacks s; currentTasks := currentTasks s;
     now := now s; parent_cause := parent_cause s; trace := trace s ++ [ev] |}.

(** Dereferencing: a pointer outside the store is a nil dereference. *)
Definition of_option {A : Type} (o : option A) : res A :=
  match o with
  | Some a => Done a
  | None => Panic
  end.

Definition get_fut (p : ptr) (s : state) : res Future := of_option (heap s !! p).
Definition get_task (t : task_id) (s : state) : res Task := of_option (tasks s !! t).
Definition get_mutex (m : mutex_id) (s : state) : res (option ptr) := of_option (mutexes s !! m).
Definition get_cell (c : cell_id) (s : state) : res (nat * error) := of_option (cells s !! c).

Definition upd_fut (p : ptr) (f : Future) (s : state) : state :=
  set_heap (<[p := f]> (heap s)) s.
Definition upd_task (t : task_id) (f : Task -> Task) (s : state) : state :=
  match tasks s !! t with
  | Some tk => set_tasks (<[t := f tk]> (tasks s)) s
  | None => s
  end.

Definition with_coro (c : coro_state) (tk : Task) : Task :=
  {| coro := c; cause := cause tk; pendingFut := pendingFut tk; resultFut := resultFut tk |}.
Definition with_cause (e : error) (tk : Task) : Task :=
  {| coro := coro tk; cause := e; pendingFut := pendingFut tk; resultFut := resultFut tk |}.
Definition with_pendingFut (p : option ptr) (tk : Task) : Task :=
  {| coro := coro tk; cause := cause tk; pendingFut := p; resultFut := resultFut tk |}.

(** [NewFuture] (line 48): every field has its zero value, [ctx] is nil. *)
Definition fresh_future : Future :=
  {| ctx := None; done := false; err_ := None; result := zero; callbacks := [] |}.

Definition NewFuture (s : state) : ptr * state :=
  (length (heap s), set_heap (heap s ++ [fresh_future]) s).

(** [HasResult] (line 57) and [Err] (line 61). *)
Definition HasResult (p : ptr) (s : state) : res bool :=
  let* f := get_fut p s in Done (done f).

Definition Err (p : ptr) (s : state) : res error :=
  let* f := get_fut p s in Done (err_ f).

(** [Result] (line 65).  [f.ctx.Err()] is a method call on an interface
    value: it panics when [f.ctx] is nil. *)
Definition Result (p : ptr) (s : state) : res (V * error) :=
  let* f := get_fut p s in
  if done f then Done (result f, err_ f)
  else
    match ctx f with
    | None => Panic
    | Some c =>
        match ctx_err c with
        | Some e => Done (zero, Some e)
        | None => Done (zero, Some StillPending)
        end
    end.

(** The argument [Cancel] (line 122) passes on to [SetResult]. *)
Definition cancel_err (e : error) : error :=
  match e with
  | None => Some Canceled
  | Some _ => e
  end.

(** [context.Cause] of a task's context: the context is a child of the one
    the task was spawned in. *)
Definition Cause (tk : Task) (s : state) : error :=
  match cause tk with
  | Some e => Some e
  | None => parent_cause s
  end.

(** [task.cancel(err)], a [context.CancelCauseFunc]: the first cause wins
    and a nil cause is [context.Canceled]. *)
Definition task_cancel (t : task_id) (e : error) (s : state) : state :=
  match tasks s !! t with
  | Some tk =>
      match Cause tk s with
      | Some _ => s
      | None => upd_task t (with_cause (cancel_err e)) s
      end
  | None => s
  end.

(** [callbackQueue.Add] (line 369).  [container/heap] belongs to the Go
    library; it is taken by its contract, the callback with the least
    [when] first, and kept here as a list ordered by [when]. *)
Fixpoint Add (c : Callback) (q : list Callback) : list Callback :=
  match q with
  | [] => [c]
  | d :: q' => if (when c <? when d)%Z then c :: q else d :: Add c q'
  end.

(** [NewCallback] (line 310), [ScheduleCallback] (line 495) and
    [RunCallback] (line 501). *)
Definition NewCallback (delay : Z) (lc : loop_callback) (s : state) : Callback :=
  {| callback_ := lc; when := (now s + delay)%Z |}.

Definition ScheduleCallback (delay : Z) (lc : loop_callback) (s : state) : state :=
  set_pendingCallbacks (Add (NewCallback delay lc s) (pendingCallbacks s)) s.

Definition RunCallback (lc : loop_callback) (s : state) : state :=
  ScheduleCallback 0 lc s.

(** ** Completion, callbacks and task steps

    [SetResult] runs the callbacks of the future, a callback may complete
    another future or step a task, and a task that is stepped runs its
    coroutine, which may complete futures in turn.  The functions are
    therefore defined together; [n] bounds the depth of the calls. *)

Definition mark_done (v : V) (e : error) (f : Future) : Future :=
  {| ctx := ctx f; done := true; err_ := e; result := v; callbacks := callbacks f |}.
Definition push_callback (cb : callback) (f : Future) : Future :=
  {| ctx := ctx f; done := done f; err_ := err_ f; result := result f;
     callbacks := callbacks f ++ [cb] |}.

Fixpoint SetResult (n : nat) (p : ptr) (v : V) (e : error) (s : state)
  {struct n} : res state :=
  match n with
  | 0 => OutOfFuel
  | S n' =>
      (* line 147 *)
      let* f := get_fut p s in
      if done f then Done s
      else
        foldM (fun cb => invoke n' cb v e) (callbacks f)
              (upd_fut p (mark_done v e f) s)
  end

with invoke (n : nat) (cb : callback) (v : V) (e : error) (s : state)
  {struct n} : res state :=
  match n with
  | 0 => OutOfFuel
  | S n' =>
      match cb with
      | CbUser tag => Done (emit (EvResult tag v e) s)
      | CbDone d => invoke_done n' d e s
      | CbShieldFwd fut => SetResult n' fut v e s
      | CbShieldBack f =>
          if errors_Is e Canceled then Done s else SetResult n' f v e s
      end
  end

with invoke_done (n : nat) (d : done_callback) (e : error) (s : state)
  {struct n} : res state :=
  match n with
  | 0 => OutOfFuel
  | S n' =>
      match d with
      | DcUser tag => Done (emit (EvDone tag e) s)
      | DcTaskDone t =>
          (* line 205 *)
          let* tk := get_task t s in
          let* s1 := match pendingFut tk with
                     | Some p => SetResult n' p zero (cancel_err None) s
                     | None => Done s
                     end in
          Done (task_cancel t e s1)
      | DcStep t => Step n' t s
      | DcWait c mode k waitFut =>
          (* line 863 *)
          let* cell := get_cell c s in
          let done' := S (fst cell) in
          match e with
          | Some _ =>
              let s1 := set_cells (<[c := (done', e)]> (cells s)) s in
              if negb (WaitMode_eqb mode WaitAll)
              then SetResult n' waitFut zero e s1
              else Done s1
          | None =>
              let s1 := set_cells (<[c := (done', snd cell)]> (cells s)) s in
              if (k <=? done') || WaitMode_eqb mode WaitFirstResult
              then SetResult n' waitFut zero (snd cell) s1
              else Done s1
          end
      end
  end

with AddResultCallback (n : nat) (p : ptr) (cb : callback) (s : state)
  {struct n} : res state :=
  match n with
  | 0 => OutOfFuel
  | S n' =>
      (* line 89 *)
      let* f := get_fut p s in
      if done f then invoke n' cb (result f) (err_ f) s
      else Done (upd_fut p (push_callback cb f) s)
  end

with Step (n : nat) (t : task_id) (s : state) {struct n} : res state :=
  match n with
  | 0 => OutOfFuel
  | S n' =>
      (* line 230; withTask is line 475 *)
      let oldTasks := currentTasks s in
      let* r := next n' t (set_currentTasks (oldTasks ++ [t]) s) in
      let s1 := upd_task t (with_pendingFut (default None (snd r))) (fst r) in
      if negb (bool_decide (last (currentTasks s1) = Some t)) then Panic
      else
        let s2 := set_currentTasks oldTasks s1 in
        match snd r with
        | Some (Some p) => AddResultCallback n' p (CbDone (DcStep t)) s2
        | Some None => Done (RunCallback (LcStep t) s2)
        | None => Done (upd_task t (with_pendingFut None) s2)
        end
  end

(** [t.next()]: [Some fut] when the coroutine yielded [fut], [None] when it
    has returned. *)
with next (n : nat) (t : task_id) (s : state)
  {struct n} : res (state * option (option ptr)) :=
  match n with
  | 0 => OutOfFuel
  | S n' =>
      let* tk := get_task t s in
      match coro tk with
      | CoNew body =>
          run n' t body (emit (EvStart t) (upd_task t (with_coro CoRunning) s))
      | CoSuspended fut k =>
          (* yield(fut) returned true: lines 197-201 *)
          let s0 := upd_task t (with_coro CoRunning) s in
          match Cause tk s0 with
          | Some er =>
              let* s1 := SetResult n' (resultFut tk) zero (cancel_err (Some er)) s0 in
              let* terr := Err (resultFut tk) s1 in
              resumed n' t terr fut k s1
          | None => resumed n' t None fut k s0
          end
      | CoRunning => Panic
      | CoFinished => Done (s, None)
      end
  end

(** The rest of [Await] (line 106) once [Yield] has returned [yerr]; for
    [PYield] there is no future and no [Result] to read. *)
with resumed (n : nat) (t : task_id) (yerr : error) (fut : option ptr)
  (k : prog) (s : state) {struct n} : res (state * option (option ptr)) :=
  match n with
  | 0 => OutOfFuel
  | S n' =>
      match yerr, fut with
      | Some e, _ => run n' t (PRet zero (Some e)) s
      | None, None => run n' t k s
      | None, Some p =>
          let* r := Result p s in
          match snd r with
          | Some e => run n' t (PRet zero (Some e)) s
          | None => run n' t k s
          end
      end
  end

(** The coroutine of task [t] runs [k] until it yields or returns. *)
with run (n : nat) (t : task_id) (k : prog) (s : state)
  {struct n} : res (state * option (option ptr)) :=
  match n with
  | 0 => OutOfFuel
  | S n' =>
      match k with
      | PRet v e =>
          (* line 203: task.resultFut.SetResult(coro(ctx)) *)
          let* tk := get_task t s in
          let* s1 := SetResult n' (resultFut tk) v e s in
          Done (upd_task t (with_coro CoFinished) s1, None)
      | PMark tag k' => run n' t k' (emit (EvMark t tag) s)
      | PAwait f k' => Yield n' t (Some f) k' s
      | PYield k' => Yield n' t None k' s
      | PLock m k' =>
          (* line 816 *)
          let* u := get_mutex m s in
          let* held := match u with
                       | None => Done false
                       | Some f => let* b := HasResult f s in Done (negb b)
                       end in
          if held then Yield n' t u (PLock m k') s
          else
            let (f, s1) := NewFuture s in
            run n' t k'
                (emit (EvAcquire t m) (set_mutexes (<[m := Some f]> (mutexes s1)) s1))
      | PUnlock m k' =>
          (* line 829 *)
          let s0 := emit (EvUnlock t m) s in
          let* u := get_mutex m s0 in
          let* s1 := match u with
                     | Some f => SetResult n' f zero None s0
                     | None => Done s0
                     end in
          run n' t k' s1
      end
  end

(** [EventLoop.Yield] (line 491) into the yielder of the current task
    (line 179), up to the call of [yield].  The coroutines of the model
    await under their own context, so the test of line 187 repeats the one
    of line 180. *)
with Yield (n : nat) (t : task_id) (fut : option ptr) (k : prog) (s : state)
  {struct n} : res (state * option (option ptr)) :=
  match n with
  | 0 => OutOfFuel
  | S n' =>
      if negb (bool_decide (last (currentTasks s) = Some t)) then Panic
      else
        let* tk := get_task t s in
        match Cause tk s with
        | Some er =>
            let* s1 := SetResult n' (resultFut tk) zero (cancel_err (Some er)) s in
            let* s2 := match fut with
                       | Some p => SetResult n' p zero (cancel_err (Some er)) s1
                       | None => Done s1
                       end in
            let* terr := Err (resultFut tk) s2 in
            resumed n' t terr fut k s2
        | None =>
            Done (upd_task t (with_coro (CoSuspended fut k)) s, Some fut)
        end
  end.

(** [Cancel] (line 122). *)
Definition Cancel (n : nat) (p : ptr) (e : error) (s : state) : res state :=
  SetResult n p zero (cancel_err e) s.

(** [AddDoneCallback] (line 82). *)
Definition AddDoneCallback (n : nat) (p : ptr) (d : done_callback) (s : state)
  : res state :=
  AddResultCallback n p (CbDone d) s.

(** [Shield] (line 130). *)
Definition Shield (n : nat) (f : ptr) (s : state) : res (ptr * state) :=
  let* b := HasResult f s in
  if b then Done (f, s)
  else
    let (fut, s1) := NewFuture s in
    let* s2 := AddResultCallback n f (CbShieldFwd fut) s1 in
    let* s3 := AddResultCallback n fut (CbShieldBack f) s2 in
    Done (fut, s3).

(** The store [Shield] leaves when the source [f], holding [f0], is
    pending: the two [AddResultCallback] calls only append. *)
Definition shielded (f : ptr) (f0 : Future) (s : state) : state :=
  let fut := length (heap s) in
  upd_fut fut (push_callback (CbShieldBack f) fresh_future)
    (upd_fut f (push_callback (CbShieldFwd fut) f0) (snd (NewFuture s))).

(** [SpawnTask] (line 171).  [iter.Pull] only builds the iterator: the
    function it is given runs at the first [next()]. *)
Definition new_task (body : prog) (rf : ptr) : Task :=
  {| coro := CoNew body; cause := None; pendingFut := None; resultFut := rf |}.

Definition SpawnTask (n : nat) (body : prog) (s : state) : res (task_id * state) :=
  let (rf, s1) := NewFuture s in
  let t := length (tasks s1) in
  let s2 := set_tasks (tasks s1 ++ [new_task body rf]) s1 in
  let* s3 := AddDoneCallback n rf (DcTaskDone t) s2 in
  Done (t, RunCallback (LcStart t) s3).

(** The store [SpawnTask] leaves: the result future is new and pending,
    so [AddDoneCallback] only appends. *)
Definition spawned (body : prog) (s : state) : state :=
  let rf := length (heap s) in
  let t := length (tasks s) in
  RunCallback (LcStart t)
    (upd_fut rf (push_callback (CbDone (DcTaskDone t)) fresh_future)
       (set_tasks (tasks s ++ [new_task body rf]) (snd (NewFuture s)))).

(** [Task.Cancel] (line 289). *)
Definition Task_Cancel (n : nat) (t : task_id) (e : error) (s : state) : res state :=
  let* tk := get_task t s in Cancel n (resultFut tk) e s.

(** The closures the loop runs; [LcStart] is the one of line 217. *)
Definition run_loop_callback (n : nat) (lc : loop_callback) (s : state) : res state :=
  match lc with
  | LcUser tag => Done (emit (EvLoop tag) s)
  | LcStart t =>
      let* tk := get_task t s in
      let* b := HasResult (resultFut tk) s in
      if b then Done s
      else
        match Cause tk s with
        | Some er => Cancel n (resultFut tk) (Some er) s
        | None => Step n t s
        end
  | LcStep t => Step n t s
  end.

(** [time.Until] as a [time.Duration]: [Time.Sub] saturates at the ends of
    the 64-bit range. *)
Definition maxDuration : Z := 2 ^ 63 - 1.
Definition minDuration : Z := - 2 ^ 63.
Definition time_Until (t now_ : Z) : Z :=
  Z.max minDuration (Z.min maxDuration (t - now_)).

(** [RunFirst] (line 373); [Peek] indexes element 0 and panics on an empty
    queue. *)
Definition RunFirst (n : nat) (s : state) : res state :=
  match pendingCallbacks s with
  | [] => Panic
  | c :: q => run_loop_callback n (callback_ c) (set_pendingCallbacks q s)
  end.

(** [runReadyCallbacks] (line 469); the loop's context is the one the
    tasks are spawned in. *)
Fixpoint runReadyCallbacks (n : nat) (s : state) : res state :=
  match n with
  | 0 => OutOfFuel
  | S n' =>
      match parent_cause s, pendingCallbacks s with
      | None, c :: _ =>
          if (time_Until (when c) (now s) <=? 0)%Z
          then let* s1 := RunFirst n' s in runReadyCallbacks n' s1
          else Done s
      | _, _ => Done s
      end
  end.

(** The timeout [Run] passes to [poller.Wait] (lines 439-448).  The clock
    is read twice, at [now1] for the queue and at [now2] for the deadline. *)
Definition second : Z := 1000000000.

Definition Run_timeout (q : list Callback) (deadline : option Z) (now1 now2 : Z) : Z :=
  let timeout := (second * 30)%Z in
  let timeout := match q with
                 | [] => timeout
                 | c :: _ => time_Until (when c) now1
                 end in
  match deadline with
  | Some d =>
      let untilDeadline := time_Until d now2 in
      if (untilDeadline <? timeout)%Z then untilDeadline else timeout
  | None => timeout
  end.

(** [Wait] (line 857): [done] and [futErr] live in a fresh cell. *)
Definition Wait (n : nat) (mode : WaitMode) (futs : list ptr) (s : state)
  : res (ptr * state) :=
  let c := length (cells s) in
  let (waitFut, s1) := NewFuture (set_cells (cells s ++ [(0, None)]) s) in
  let* s2 := foldM (fun fut => AddDoneCallback n fut (DcWait c mode (length futs) waitFut))
                   futs s1 in
  Done (waitFut, s2).

(** [Mutex.Unlock] (line 829) called from outside a coroutine. *)
Definition Unlock (n : nat) (m : mutex_id) (s : state) : res state :=
  let* u := get_mutex m s in
  match u with
  | Some f => SetResult n f zero None s
  | None => Done s
  end.

(** ** Queue (line 780) *)

Record Queue : Type := { data : list V; futs : list ptr }.

(** [Queue.Get] (line 785). *)
Definition Get (n : nat) (q : Queue) (s : state) : res (Queue * ptr * state) :=
  let (fut, s1) := NewFuture s in
  let* r := match data q with
            | item :: rest =>
                let* s2 := SetResult n fut item None s1 in
                Done ({| data := rest; futs := futs q |}, s2)
            | [] => Done (q, s1)
            end in
  Done ({| data := data (fst r); futs := futs (fst r) ++ [fut] |}, fut, snd r).

(** The loop of [Queue.Push] (line 799); every iteration drops the first
    waiter. *)
Fixpoint Push_loop (n : nat) (fs : list ptr) (ds : list V) (s : state)
  : res (Queue * state) :=
  match fs, ds with
  | f :: fs', item :: ds' =>
      let* b := HasResult f s in
      if b then Push_loop n fs' ds s
      else
        let* s1 := SetResult n f item None s in
        Push_loop n fs' ds' s1
  | _, _ => Done ({| data := ds; futs := fs |}, s)
  end.

(** [Queue.Push] (line 797). *)
Definition Push (n : nat) (item : V) (q : Queue) (s : state) : res (Queue * state) :=
  Push_loop n (futs q) (data q ++ [item]) s.

(** ** What the rest of the program may do

    The calls a client, or the loop on its behalf, makes on the store. *)
Inductive op : Type :=
| ONewFuture
| OSetResult (p : ptr) (v : V) (e : error)
| OCancel (p : ptr) (e : error)
| OAddResultCallback (p : ptr) (cb : callback)
| OShield (p : ptr)
| OSpawnTask (body : prog)
| OWait (mode : WaitMode) (fs : list ptr)
| OUnlock (m : mutex_id)
| ONewMutex                       (* var m Mutex *)
| ORunReady                       (* one pass of runReadyCallbacks *)
| OElapse (d : Z)                 (* the clock moves on *)
| OCancelParent (e : error).      (* the loop's context is cancelled *)

Definition exec (n : nat) (o : op) (s : state) : res state :=
  match o with
  | ONewFuture => Done (snd (NewFuture s))
  | OSetResult p v e => SetResult n p v e s
  | OCancel p e => Cancel n p e s
  | OAddResultCallback p cb => AddResultCallback n p cb s
  | OShield p => let* r := Shield n p s in Done (snd r)
  | OSpawnTask body => let* r := SpawnTask n body s in Done (snd r)
  | OWait mode fs => let* r := Wait n mode fs s in Done (snd r)
  | OUnlock m => Unlock n m s
  | ONewMutex => Done (set_mutexes (mutexes s ++ [None]) s)
  | ORunReady => runReadyCallbacks n s
  | OElapse d => Done (set_now (now s + Z.max 0 d)%Z s)
  | OCancelParent e =>
      match parent_cause s with
      | Some _ => Done s
      | None => Done (set_parent_cause (cancel_err e) s)
      end
  end.

Definition exec_all (n : nat) (os : list op) (s : state) : res state :=
  foldM (exec n) os s.

(** The closures a caller registers to watch a future, and what calling
    one with [(v, e)] leaves in the trace. *)
Definition is_observer (cb : callback) : bool :=
  match cb with
  | CbUser _ | CbDone (DcUser _) => true
  | _ => false
  end.

Definition observe (v : V) (e : error) (cb : callback) : list event :=
  match cb with
  | CbUser tag => [EvResult tag v e]
  | CbDone (DcUser tag) => [EvDone tag e]
  | _ => []
  end.

Definition emits (evs : list event) (s : state) : state :=
  fold_left (fun s' ev => emit ev s') evs s.

(** The calls of the observers whose tags are in [T], as the trace has
    them. *)
Definition tagged (T : nat -> bool) (ev : event) : bool :=
  match ev with
  | EvResult tag _ _ | EvDone tag _ => T tag
  | _ => false
  end.

Definition seen (T : nat -> bool) (s : state) : list event :=
  List.filter (tagged T) (trace s).

(** A callback that is no observer of [T]: calling it makes no call of
    [T] by itself. *)
Definition cb_quiet (T : nat -> bool) (cb : callback) : bool :=
  match cb with
  | CbUser tag | CbDone (DcUser tag) => negb (T tag)
  | _ => true
  end.

(** No pending future holds an observer of [T]; and none but [p] does. *)
Definition quiet (T : nat -> bool) (s : state) : Prop :=
  forall q g, heap s !! q = Some g -> done g = false ->
    forallb (cb_quiet T) (callbacks g) = true.

Definition quiet_but (p : ptr) (T : nat -> bool) (s : state) : Prop :=
  forall q g, q <> p -> heap s !! q = Some g -> done g = false ->
    forallb (cb_quiet T) (callbacks g) = true.

(** A step that leaves the store quiet and makes no call of [T]. *)
Definition keeps (T : nat -> bool) (s s' : state) : Prop :=
  quiet T s' /\ seen T s' = seen T s.

(** Futures that get their results one after the other, and what [futErr]
    of [Wait] (line 859) holds then: the error of the last one that
    failed. *)
Definition complete_all (n : nat) (cs : list (ptr * V * error)) (s : state) : res state :=
  foldM (fun c => SetResult n (fst (fst c)) (snd (fst c)) (snd c)) cs s.

Definition futErr_after (cs : list (ptr * V * error)) : error :=
  fold_left (fun le c => match snd c with Some e => Some e | None => le end) cs None.

(** A future as [NewFuture] returns it, nothing registered on it yet. *)
Definition untouched (s : state) (p : ptr) : Prop :=
  exists f, heap s !! p = Some f /\ done f = false /\ callbacks f = [].

(** A coroutine that awaits nothing: it makes its marks and returns. *)
Definition straight (tags : list nat) (v : V) (e : error) : prog :=
  fold_right PMark (PRet v e) tags.

(** A coroutine that makes marks, yields to the loop and goes on with [k]. *)
Definition then_yield (tags : list nat) (k : prog) : prog :=
  fold_right PMark (PYield k) tags.

(** [NewEventLoop] (line 402) with nothing allocated yet. *)
Definition empty_state : state :=
  {| heap := []; cells := []; tasks := []; mutexes := []; pendingCallbacks := [];
     currentTasks := []; now := 0; parent_cause := None; trace := [] |}.

End Runtime.

(** ** AsyncStream (line 558) *)

Module Stream.

(** One answer of the file descriptor: the bytes it has ready, the error
    [Read] returns with them, and what [WaitForReady] returns if the stream
    waits after that answer. *)
Record answer : Type := {
  bytes : list byte;
  read_err : error;
  wait_err : error }.

(** [AsyncStream]; [file] is the script of the answers still to come. *)
Record AsyncStream : Type := {
  buffer : list byte;
  file : list answer }.

(** Modelled from the spec: the [AsyncFder] behind a stream is an interface
    implemented outside this file (section 6, "AsyncFder contract":
    non-blocking [read(buf) -> (n, err)]).  [Read] copies what fits into
    [room] bytes; bytes that do not fit stay for the next call, and a file
    with no answer left is at end of file. *)
Definition Read (room : nat) (f : list answer)
  : list byte * error * error * list answer :=
  match f with
  | [] => ([], Some EOF, None, [])
  | a :: f' =>
      if length (bytes a) <=? room
      then (bytes a, read_err a, wait_err a, f')
      else (take room (bytes a), None, None,
            {| bytes := drop room (bytes a); read_err := read_err a;
               wait_err := wait_err a |} :: f')
  end.

Definition is_again (e : error) : bool :=
  errors_Is e EAGAIN.

(** The loop of [read] (line 589): it goes round only after [EAGAIN] and a
    successful [WaitForReady]; [Read] has then used up the answer at the
    head of the script, so the loop goes on with the tail. *)
Fixpoint read_loop (maxBytes : nat) (buf : list byte) (f : list answer)
  : list byte * error * list answer :=
  let '(got, e, w, f1) := Read (maxBytes - length buf) f in
  let buf' := buf ++ got in
  if is_again e
  then match w, f with
       | None, _ :: f' => read_loop maxBytes buf' f'
       | None, [] => (buf', None, f1)
       | Some e', _ => (buf', Some e', f1)
       end
  else (buf', e, f1).

(** [read] (line 580): returns [n] and [err] with the stream. *)
Definition read (maxBytes : nat) (a : AsyncStream) : nat * error * AsyncStream :=
  if maxBytes <=? length (buffer a) then (maxBytes, None, a)
  else
    let '(buf, e, f) := read_loop maxBytes (buffer a) (file a) in
    (length buf, e, {| buffer := buf; file := f |}).

(** [consume] (line 637) and [consumeAll] (line 643). *)
Definition consume (maxBytes : nat) (a : AsyncStream) : list byte * AsyncStream :=
  let n := Nat.min maxBytes (length (buffer a)) in
  (take n (buffer a), {| buffer := drop n (buffer a); file := file a |}).

Definition consumeAll (a : AsyncStream) : list byte * AsyncStream :=
  (buffer a, {| buffer := []; file := file a |}).

(** The index of the first [character] at or after [from], as the scanning
    loops of [ReadUntil] find it. *)
Fixpoint index (character : byte) (l : list byte) : option nat :=
  match l with
  | [] => None
  | b :: l' => if Byte.eqb b character then Some 0
               else option_map S (index character l')
  end.

Definition index_from (from : nat) (character : byte) (l : list byte) : option nat :=
  option_map (fun i => from + i) (index character (drop from l)).

(** The second loop of [ReadUntil] (line 741).  [bufSize] is a Go [int]; it
    doubles only once the buffer holds that many bytes, so it stays below
    twice the size of the data in memory and is kept unbounded here. *)
Fixpoint ReadUntil_loop (n : nat) (bufSize : nat) (character : byte)
  (a : AsyncStream) : res (list byte * error * AsyncStream) :=
  match n with
  | 0 => OutOfFuel
  | S n' =>
      let '(k, e, a1) := read bufSize a in
      match index_from (length (buffer a1) - k) character (buffer a1) with
      | Some i => let (out, a2) := consume (i + 1) a1 in Done (out, None, a2)
      | None =>
          if errors_Is e EOF && (0 <? length (buffer a1))
          then let (out, a2) := consumeAll a1 in Done (out, None, a2)
          else
            match e with
            | Some _ => Done ([], e, a1)
            | None =>
                ReadUntil_loop n' (if bufSize <=? length (buffer a1)
                                   then bufSize * 2 else bufSize)
                               character a1
            end
      end
  end.

(** [ReadUntil] (line 733). *)
Definition ReadUntil (n : nat) (character : byte) (a : AsyncStream)
  : res (list byte * error * AsyncStream) :=
  match index character (buffer a) with
  | Some i => let (out, a1) := consume (i + 1) a in Done (out, None, a1)
  | None => ReadUntil_loop n 1024 character a
  end.

(** The bytes a file delivers before its end, when every [Read] up to
    there returns no error, or [EAGAIN] followed by a successful
    [WaitForReady]; [None] when a [Read] or a wait fails before the end. *)
Fixpoint stream_bytes (f : list answer) : option (list byte) :=
  match f with
  | [] => Some []
  | a :: f' =>
      if is_again (read_err a)
      then match wait_err a with
           | None => option_map (app (bytes a)) (stream_bytes f')
           | Some _ => None
           end
      else match read_err a with
           | None => option_map (app (bytes a)) (stream_bytes f')
           | Some e => if err_is e EOF then Some (bytes a) else None
           end
  end.

(** What is left to read, answers and bytes. *)
Fixpoint weight (f : list answer) : nat :=
  match f with
  | [] => 0
  | a :: f' => S (length (bytes a)) + weight f'
  end.

(** The bytes of [all] up to and including the first [character], all of
    them when there is none. *)
Definition until (character : byte) (all : list byte) : list byte :=
  match index character all with
  | Some i => take (i + 1) all
  | None => all
  end.

(** The loop of [ReadChunk] (line 762): it reads while the buffer is short
    of [chunkSize] and the last [read] returned no error. *)
Fixpoint ReadChunk_loop (n : nat) (chunkSize : nat) (e : error) (a : AsyncStream)
  : res (error * AsyncStream) :=
  match n with
  | 0 => OutOfFuel
  | S n' =>
      if (length (buffer a) <? chunkSize) && negb (bool_decide (is_Some e))
      then let '(_, e1, a1) := read chunkSize a in ReadChunk_loop n' chunkSize e1 a1
      else Done (e, a)
  end.

(** [ReadChunk] (line 760); [chunkSize] is taken non-negative ([consume]
    makes a slice of that size). *)
Definition ReadChunk (n : nat) (chunkSize : nat) (a : AsyncStream)
  : res (list byte * error * AsyncStream) :=
  let* r := ReadChunk_loop n chunkSize None a in
  let (e, a1) := r in
  if negb (bool_decide (is_Some e)) || (errors_Is e EOF && (0 <? length (buffer a1)))
  then let (out, a2) := consume chunkSize a1 in Done (out, None, a2)
  else Done ([], e, a1).

(** [yieldLines] (line 688).  [yield] is a closure: it is given the piece
    and its own state, and returns an error or nil.  [todo] is what the
    [range] loop still has to visit, from index [i]. *)
Fixpoint yieldLines_loop {St : Type} (yield : list byte -> St -> St * error)
  (data : list byte) (start i : nat) (todo : list byte) (st : St) : St * error :=
  match todo with
  | [] => (st, None)
  | b :: todo' =>
      if Byte.eqb b x0a || (i =? length data - 1)
      then
        let (st1, e) := yield (take (i + 1 - start) (drop start data)) st in
        match e with
        | Some _ => (st1, e)
        | None => yieldLines_loop yield data (i + 1) (i + 1) todo' st1
        end
      else yieldLines_loop yield data start (i + 1) todo' st
  end.

Definition yieldLines {St : Type} (yield : list byte -> St -> St * error)
  (data : list byte) (st : St) : St * error :=
  yieldLines_loop yield data 0 0 data st.

(** A [yield] that keeps the pieces it is given, in order. *)
Definition collect (piece : list byte) (st : list (list byte))
  : list (list byte) * error :=
  (st ++ [piece], None).

(** The reference [yieldLines] is compared with (it is no function of the
    source): give the pieces to [yield] one after the other and return at
    the first error, without calling [yield] again. *)
Fixpoint yield_each {St : Type} (yield : list byte -> St -> St * error)
  (pieces : list (list byte)) (st : St) : St * error :=
  match pieces with
  | [] => (st, None)
  | piece :: rest =>
      let (st1, e) := yield piece st in
      match e with
      | Some _ => (st1, e)
      | None => yield_each yield rest st1
      end
  end.

(** A [yield] that logs every call made to it, and fails with [e] on
    every call after the first [k]. *)
Definition log_upto (k : nat) (e : err) (piece : list byte)
  (st : list (list byte)) : list (list byte) * error :=
  (st ++ [piece], if length st <? k then None else Some e).

End Stream.

(** ** Who may touch what

    [okp] tells the futures a piece of code may complete or register
    callbacks on, [okt] the tasks it may step.  A closure, a coroutine or a
    queued callback is within these bounds when every future it can
    complete and every task it can step is. *)
Section Footprint.

Context {V : Type} (zero : V).
Variables (okp : ptr -> bool) (okt : task_id -> bool).

(** [live] tells whether the loop runs its queue: only then must the
    result future of a task outside [okt] be complete already. *)
Variable live : bool.

Definition okpo (o : option ptr) : bool :=
  match o with
  | Some p => okp p
  | None => true
  end.

Definition dc_ok (d : done_callback) : bool :=
  match d with
  | DcUser _ => true
  | DcTaskDone _ => true
  | DcStep t => okt t
  | DcWait _ _ _ waitFut => okp waitFut
  end.

Definition cb_ok (cb : callback) : bool :=
  match cb with
  | CbUser _ => true
  | CbDone d => dc_ok d
  | CbShieldFwd fut => okp fut
  | CbShieldBack f => okp f
  end.

Definition lc_ok (lc : loop_callback) : bool :=
  match lc with
  | LcUser _ => true
  | LcStart _ => true
  | LcStep t => okt t
  end.

Fixpoint prog_ok (k : @prog V) : bool :=
  match k with
  | PRet _ _ => true
  | PMark _ k' => prog_ok k'
  | PAwait f k' => okp f && prog_ok k'
  | PYield k' => prog_ok k'
  | PLock _ k' => prog_ok k'
  | PUnlock _ k' => prog_ok k'
  end.

Definition coro_ok (c : @coro_state V) : bool :=
  match c with
  | CoNew body => prog_ok body
  | CoSuspended fut k => okpo fut && prog_ok k
  | CoRunning => true
  | CoFinished => true
  end.

Definition ev_ok (ev : @event V) : bool :=
  match ev with
  | EvStart t | EvMark t _ | EvAcquire t _ | EvUnlock t _ => okt t
  | _ => true
  end.

Definition fut_ok (q : ptr) (f : @Future V) : bool :=
  done f || negb (okp q) || forallb cb_ok (callbacks f).

Definition task_ok (t : task_id) (tk : @Task V) : bool :=
  okpo (pendingFut tk) &&
  (negb (okt t) || (okp (resultFut tk) && coro_ok (coro tk))).

(** [forallbi f i l]: [f (i + k) x] holds of every [x] at index [k] of [l]. *)
Fixpoint forallbi {A : Type} (f : nat -> A -> bool) (i : nat) (l : list A) : bool :=
  match l with
  | [] => true
  | x :: l' => f i x && forallbi f (S i) l'
  end.

(** The references held by the store are within the bounds. *)
Definition closedb (s : @state V) : bool :=
  forallbi fut_ok 0 (heap s) &&
  forallbi task_ok 0 (tasks s) &&
  forallb okpo (mutexes s) &&
  forallb (fun c => lc_ok (callback_ c)) (pendingCallbacks s).

(** A task outside [okt] is one that is never stepped: its coroutine has
    not started and, where the loop runs, its result future is complete, so
    that the callback of line 217 returns at once. *)
Definition dead (s : @state V) (t : task_id) : Prop :=
  exists tk body,
    tasks s !! t = Some tk /\ coro tk = CoNew body /\
    (live = true -> exists f, heap s !! resultFut tk = Some f /\ done f = true).

Definition closed (s : @state V) : Prop :=
  (forall q, okp q = false -> q < length (heap s)) /\
  (forall t, okt t = false -> dead s t) /\
  closedb s = true.

(** What a run within the bounds guarantees to leave alone: complete
    futures and futures outside [okp], the coroutine and the result future
    of the tasks outside [okt], and the trace but for the events of tasks
    inside [okt]. *)
Definition guar (s s' : @state V) : Prop :=
  length (heap s) <= length (heap s') /\
  length (tasks s) <= length (tasks s') /\
  (forall q f, heap s !! q = Some f -> done f = true \/ okp q = false ->
               heap s' !! q = Some f) /\
  (forall t tk, tasks s !! t = Some tk -> okt t = false ->
                exists tk', tasks s' !! t = Some tk' /\ coro tk' = coro tk /\
                            resultFut tk' = resultFut tk) /\
  (exists evs, trace s' = trace s ++ evs /\ forallb ev_ok evs = true).

(** The result a call gives future [p], for the two calls that complete a
    future: [SetResult(v, e)] and [Cancel(e)]. *)
Definition completion (p : ptr) (o : @op V) : option (V * error) :=
  match o with
  | OSetResult q v e => if q =? p then Some (v, e) else None
  | OCancel q e => if q =? p then Some (zero, cancel_err e) else None
  | _ => None
  end.

(** A step that keeps the store within the bounds. *)
Definition okstep (s s' : @state V) : Prop := closed s' /\ guar s s'.

Definition yield_ok (r : option (option ptr)) : bool :=
  match r with
  | Some o => okpo o
  | None => true
  end.

(** What is to be shown of each of the functions that are defined
    together, at depth [n]. *)
Definition spec_SetResult (n : nat) : Prop :=
  forall p v e s s', closed s -> okp p = true ->
    SetResult zero n p v e s = Done s' -> okstep s s'.
Definition spec_invoke (n : nat) : Prop :=
  forall cb v e s s', closed s -> cb_ok cb = true ->
    invoke zero n cb v e s = Done s' -> okstep s s'.
Definition spec_invoke_done (n : nat) : Prop :=
  forall d e s s', closed s -> dc_ok d = true ->
    invoke_done zero n d e s = Done s' -> okstep s s'.
Definition spec_AddResultCallback (n : nat) : Prop :=
  forall p cb s s', closed s -> okp p = true -> cb_ok cb = true ->
    AddResultCallback zero n p cb s = Done s' -> okstep s s'.
Definition spec_Step (n : nat) : Prop :=
  forall t s s', closed s -> okt t = true ->
    Step zero n t s = Done s' -> okstep s s'.
Definition spec_next (n : nat) : Prop :=
  forall t s r, closed s -> okt t = true ->
    next zero n t s = Done r -> okstep s (fst r) /\ yield_ok (snd r) = true.
Definition spec_resumed (n : nat) : Prop :=
  forall t yerr fut k s r, closed s -> okt t = true ->
    okpo fut = true -> prog_ok k = true ->
    resumed zero n t yerr fut k s = Done r ->
    okstep s (fst r) /\ yield_ok (snd r) = true.
Definition spec_run (n : nat) : Prop :=
  forall t k s r, closed s -> okt t = true -> prog_ok k = true ->
    run zero n t k s = Done r -> okstep s (fst r) /\ yield_ok (snd r) = true.
Definition spec_Yield (n : nat) : Prop :=
  forall t fut k s r, closed s -> okt t = true ->
    okpo fut = true -> prog_ok k = true ->
    Yield zero n t fut k s = Done r ->
    okstep s (fst r) /\ yield_ok (snd r) = true.

Definition machine_spec (n : nat) : Prop :=
  spec_SetResult n /\ spec_invoke n /\ spec_invoke_done n /\
  spec_AddResultCallback n /\ spec_Step n /\ spec_next n /\
  spec_resumed n /\ spec_run n /\ spec_Yield n.

Definition op_ok (o : @op V) : bool :=
  match o with
  | ONewFuture => true
  | OSetResult p _ _ => okp p
  | OCancel p _ => okp p
  | OAddResultCallback p cb => okp p && cb_ok cb
  | OShield p => okp p
  | OSpawnTask body => prog_ok body
  | OWait _ fs => forallb okp fs
  | OUnlock _ => true
  | ONewMutex => true
  | ORunReady => live
  | OElapse _ => true
  | OCancelParent _ => true
  end.

End Footprint.

(** Nothing in the store refers to future [p0]: no callback of a pending
    future, no task, no coroutine and no mutex can reach it. *)
Definition fresh_for {V : Type} (p0 : ptr) (s : @state V) : bool :=
  closedb (fun q => negb (q =? p0)) (fun _ => true) s.


(** ** Mutual exclusion

    What the trace says of mutex [m]: [Some true] when the last event of
    [m] is a [Lock] that returned, [Some false] when it is an [Unlock] or
    there is none, and [None] once a [Lock] has returned while the mutex
    was held. *)
Section LockWorld.

Context {V : Type}.

Definition lock_step (m : mutex_id) (st : option bool) (ev : @event V) : option bool :=
  match st, ev with
  | None, _ => None
  | Some b, EvAcquire _ m' => if m' =? m then (if b then None else Some true) else Some b
  | Some b, EvUnlock _ m' => if m' =? m then Some false else Some b
  | Some b, _ => Some b
  end.

Definition after (m : mutex_id) (tr : list (@event V)) : option bool :=
  fold_left (lock_step m) tr (Some false).

(** The mutex is held in the store: its unlock future is pending. *)
Definition held (m : mutex_id) (s : @state V) : Prop :=
  exists F f, mutexes s !! m = Some (Some F) /\ heap s !! F = Some f /\ done f = false.

(** Coroutines that only lock, unlock, yield to the loop and return. *)
Fixpoint lock_prog (k : @prog V) : bool :=
  match k with
  | PRet _ _ => true
  | PMark _ k' | PYield k' | PLock _ k' | PUnlock _ k' => lock_prog k'
  | PAwait _ _ => false
  end.

Definition lock_coro (c : @coro_state V) : bool :=
  match c with
  | CoNew body => lock_prog body
  | CoSuspended _ k => lock_prog k
  | CoRunning | CoFinished => true
  end.

Definition is_step (cb : callback) : bool :=
  match cb with
  | CbDone (DcStep _) => true
  | _ => false
  end.

Definition pending (s : @state V) (p : ptr) : Prop :=
  exists f, heap s !! p = Some f /\ done f = false.

Definition pend_done (s : @state V) (o : option ptr) : Prop :=
  match o with
  | None => True
  | Some p => exists f, heap s !! p = Some f /\ done f = true
  end.

Definition is_rf (s : @state V) (p : ptr) : Prop :=
  exists t tk, tasks s !! t = Some tk /\ resultFut tk = p.

(** What the state of its coroutine says of a task: before it starts it
    awaits nothing; suspended, it awaits what it yielded, a future that is
    no result future, and has not returned; otherwise what it last awaited
    is complete. *)
Definition task_clause (s : @state V) (tk : @Task V) : Prop :=
  match coro tk with
  | CoNew _ => pendingFut tk = None /\ pending s (resultFut tk)
  | CoSuspended fut _ =>
      pendingFut tk = fut /\ pending s (resultFut tk) /\
      (forall p, fut = Some p -> p < length (heap s) /\ ~ is_rf s p)
  | CoRunning | CoFinished => pend_done s (pendingFut tk)
  end.

(** The invariant of a store in which tasks are never cancelled and all
    callbacks are those the runtime itself registers. *)
Record lock_world (s : @state V) : Prop := {
  lw_parent : parent_cause s = None;
  lw_ctx : forall p f, heap s !! p = Some f -> ctx f = None;
  (* a pending future is the result future of a task that is not
     cancelled, or a future tasks wait on *)
  lw_heap : forall p f, heap s !! p = Some f -> done f = false ->
    (exists t tk, tasks s !! t = Some tk /\ resultFut tk = p /\
                  callbacks f = [CbDone (DcTaskDone t)] /\ cause tk = None) \/
    (~ is_rf s p /\ forallb is_step (callbacks f) = true);
  lw_task : forall t tk, tasks s !! t = Some tk ->
    resultFut tk < length (heap s) /\
    lock_coro (coro tk) = true /\
    task_clause s tk;
  lw_rf_inj : forall t t' tk tk', tasks s !! t = Some tk -> tasks s !! t' = Some tk' ->
    resultFut tk = resultFut tk' -> t = t';
  lw_mutex : forall m F, mutexes s !! m = Some (Some F) ->
    F < length (heap s) /\ ~ is_rf s F;
  lw_mutex_inj : forall m m' F, mutexes s !! m = Some (Some F) ->
    mutexes s !! m' = Some (Some F) -> m = m';
  (* the trace never shows two holders, and a mutex the trace shows as
     held is held in the store *)
  lw_trace : forall m, exists b, after m (trace s) = Some b /\ (b = true -> held m s) }.

(** Tasks that are running keep running, with their result future, and a
    pending result future stays pending: but for the task [ex] a call is
    made for and the future [spare] it completes. *)
Definition frame (ex : task_id -> Prop) (spare : ptr -> Prop) (s s' : @state V) : Prop :=
  forall t tk, tasks s !! t = Some tk -> coro tk = CoRunning -> ~ ex t ->
    exists tk', tasks s' !! t = Some tk' /\ coro tk' = CoRunning /\
                resultFut tk' = resultFut tk /\
                (~ spare (resultFut tk) -> pending s (resultFut tk) ->
                 pending s' (resultFut tk)).

(** When [SetResult] may be called on a pending future: a mutex that has
    it as unlock future has just been unlocked, and a task that has it as
    result future is running (it returns). *)
Definition pre_set (s : @state V) (p : ptr) : Prop :=
  pending s p ->
  (forall m, mutexes s !! m = Some (Some p) -> after m (trace s) = Some false) /\
  (forall t tk, tasks s !! t = Some tk -> resultFut tk = p -> coro tk = CoRunning).

(** When a callback of this world may be called. *)
Definition cb_pre (s : @state V) (cb : callback) : Prop :=
  match cb with
  | CbDone (DcStep _) => True
  | CbDone (DcTaskDone t) =>
      exists tk, tasks s !! t = Some tk /\ pend_done s (pendingFut tk) /\
                 ~ pending s (resultFut tk)
  | _ => False
  end.

(** [Step] records what [next] returned (line 232). *)
Definition fixup (t : task_id) (r : option (option ptr)) (s : @state V) : @state V :=
  upd_task t (with_pendingFut (default None r)) s.

(** The future a task yields is one tasks wait on. *)
Definition yields_ok (s : @state V) (r : option (option ptr)) : Prop :=
  forall p, r = Some (Some p) -> p < length (heap s) /\ ~ is_rf s p.

Definition running (s : @state V) (t : task_id) : Prop :=
  exists tk, tasks s !! t = Some tk /\ coro tk = CoRunning /\ pending s (resultFut tk).

(** What a client of the mutex does: it makes mutexes and tasks that only
    lock and unlock, and lets the loop run. *)
Definition lock_op (o : @op V) : bool :=
  match o with
  | ONewMutex | ORunReady | OElapse _ => true
  | OSpawnTask body => lock_prog body
  | _ => false
  end.

End LockWorld.

Section LockSpecs.

Context {V : Type} (zero : V).

Local Abbreviation none_t := (fun _ : task_id => False).
Local Abbreviation none_p := (fun _ : ptr => False).

(** What is shown, at depth [n], of each of the functions defined
    together: each keeps the invariant, given the condition under which
    this world calls it. *)
Definition ls_SetResult (n : nat) : Prop :=
  forall p v e s s', lock_world s -> pre_set s p ->
    SetResult zero n p v e s = Done s' ->
    lock_world s' /\ frame none_t (fun q => q = p) s s'.
Definition ls_invoke (n : nat) : Prop :=
  forall cb v e s s', lock_world s -> cb_pre s cb ->
    invoke zero n cb v e s = Done s' ->
    lock_world s' /\ frame none_t none_p s s'.
Definition ls_invoke_done (n : nat) : Prop :=
  forall d e s s', lock_world s -> cb_pre s (CbDone d) ->
    invoke_done zero n d e s = Done s' ->
    lock_world s' /\ frame none_t none_p s s'.
Definition ls_AddResultCallback (n : nat) : Prop :=
  forall p t s s', lock_world s -> p < length (heap s) -> ~ is_rf s p ->
    AddResultCallback zero n p (CbDone (DcStep t)) s = Done s' ->
    lock_world s' /\ frame none_t none_p s s'.
Definition ls_Step (n : nat) : Prop :=
  forall t s s', lock_world s ->
    Step zero n t s = Done s' ->
    lock_world s' /\ frame none_t none_p s s'.
Definition ls_next (n : nat) : Prop :=
  forall t s r, lock_world s ->
    next zero n t s = Done r ->
    lock_world (fixup t (snd r) (fst r)) /\ frame none_t none_p s (fst r) /\
    yields_ok (fixup t (snd r) (fst r)) (snd r).
Definition ls_resumed (n : nat) : Prop :=
  forall t yerr fut k s r, lock_world s -> running s t -> lock_prog k = true ->
    yerr = None -> pend_done s fut ->
    resumed zero n t yerr fut k s = Done r ->
    lock_world (fixup t (snd r) (fst r)) /\ frame (fun t' => t' = t) none_p s (fst r) /\
    yields_ok (fixup t (snd r) (fst r)) (snd r).
Definition ls_run (n : nat) : Prop :=
  forall t k s r, lock_world s -> running s t -> lock_prog k = true ->
    run zero n t k s = Done r ->
    lock_world (fixup t (snd r) (fst r)) /\ frame (fun t' => t' = t) none_p s (fst r) /\
    yields_ok (fixup t (snd r) (fst r)) (snd r).
Definition ls_Yield (n : nat) : Prop :=
  forall t fut k s r, lock_world s -> running s t -> lock_prog k = true ->
    (forall p, fut = Some p -> p < length (heap s) /\ ~ is_rf s p) ->
    Yield zero n t fut k s = Done r ->
    lock_world (fixup t (snd r) (fst r)) /\ frame (fun t' => t' = t) none_p s (fst r) /\
    yields_ok (fixup t (snd r) (fst r)) (snd r).

Definition lock_spec (n : nat) : Prop :=
  ls_SetResult n /\ ls_invoke n /\ ls_invoke_done n /\ ls_AddResultCallback n /\
  ls_Step n /\ ls_next n /\ ls_resumed n /\ ls_run n /\ ls_Yield n.

End LockSpecs.

(** ** Whose observers are called

    What is shown, at depth [n], of each of the functions defined
    together: on a store where no pending future holds an observer of
    [T], none of them makes a call of [T]. *)
Section WatchSpecs.

Context {V : Type} (zero : V) (T : nat -> bool).

Definition ws_SetResult (n : nat) : Prop :=
  forall p v e s s', quiet T s ->
    SetResult zero n p v e s = Done s' -> keeps T s s'.
Definition ws_invoke (n : nat) : Prop :=
  forall cb v e s s', quiet T s -> cb_quiet T cb = true ->
    invoke zero n cb v e s = Done s' -> keeps T s s'.
Definition ws_invoke_done (n : nat) : Prop :=
  forall d e s s', quiet T s -> cb_quiet T (CbDone d) = true ->
    invoke_done zero n d e s = Done s' -> keeps T s s'.
Definition ws_AddResultCallback (n : nat) : Prop :=
  forall p cb s s', quiet T s -> cb_quiet T cb = true ->
    AddResultCallback zero n p cb s = Done s' -> keeps T s s'.
Definition ws_Step (n : nat) : Prop :=
  forall t s s', quiet T s -> Step zero n t s = Done s' -> keeps T s s'.
Definition ws_next (n : nat) : Prop :=
  forall t s r, quiet T s -> next zero n t s = Done r -> keeps T s (fst r).
Definition ws_resumed (n : nat) : Prop :=
  forall t yerr fut k s r, quiet T s ->
    resumed zero n t yerr fut k s = Done r -> keeps T s (fst r).
Definition ws_run (n : nat) : Prop :=
  forall t k s r, quiet T s -> run zero n t k s = Done r -> keeps T s (fst r).
Definition ws_Yield (n : nat) : Prop :=
  forall t fut k s r, quiet T s ->
    Yield zero n t fut k s = Done r -> keeps T s (fst r).

Definition watch_spec (n : nat) : Prop :=
  ws_SetResult n /\ ws_invoke n /\ ws_invoke_done n /\ ws_AddResultCallback n /\
  ws_Step n /\ ws_next n /\ ws_resumed n /\ ws_run n /\ ws_Yield n.

End WatchSpecs.

(** ** A small store to run the model on

    One pending future of integers with two observers registered, as left
    by [NewFuture], [AddResultCallback] and [AddDoneCallback]. *)
Definition example_future : @Future nat :=
  {| ctx := None; done := false; err_ := None; result := 0;
     callbacks := [CbUser 7; CbDone (DcUser 8)] |}.

Definition example_store : @state nat :=
  set_heap [example_future] empty_state.

(** Two futures as [NewFuture] returns them; and a cancelled future with
    a pending one, as two [Get] on an empty queue leave them once the
    first is cancelled. *)
Definition two_futures : @state nat :=
  set_heap [fresh_future 0; fresh_future 0] empty_state.

Definition cancelled_and_pending : @state nat :=
  set_heap [mark_done 0 (Some Canceled) (fresh_future 0); fresh_future 0] empty_state.

(** A stream with "h" buffered whose file still delivers "i\nj". *)
Definition example_stream : Stream.AsyncStream :=
  {| Stream.buffer := [x68];
     Stream.file := [ {| Stream.bytes := [x69; x0a; x6a];
                         Stream.read_err := None;
                         Stream.wait_err := None |} ] |}.

(** The task a coroutine that awaits future 0, marks 1 and returns 5 has
    become once the loop has started it: it waits. *)
Definition awaiting_task : @Task nat :=
  {| coro := CoSuspended (Some 0) (straight [1] 5 None); cause := None;
     pendingFut := Some 0; resultFut := 1 |}.

(** The state a call returns, or [d] if it does not return. *)
Definition from_Done {A : Type} (d : A) (r : res A) : A :=
  match r with
  | Done a => a
  | _ => d
  end.

(** The store in which [awaiting_task] waits. *)
Definition awaiting_store : @state nat :=
  from_Done empty_state
    (exec_all 0 20 [ONewFuture; OSpawnTask (PAwait 0 (straight [1] 5 None)); ORunReady]
              empty_state).

(** Future 0 has its result when the task that awaits it is spawned. *)
Definition spawned_on_completed : @state nat :=
  from_Done empty_state
    (exec_all 0 20 [ONewFuture; OSetResult 0 9 None;
                    OSpawnTask (PAwait 0 (straight [1] 5 None))]
              empty_state).

(** Future 0 with an observer, the task that awaits it and a second
    observer registered on it, in this order; future 1 is the result
    future of the task. *)
Definition watched_future : @Future nat :=
  {| ctx := None; done := false; err_ := None; result := 0;
     callbacks := [CbUser 7; CbDone (DcStep 0); CbDone (DcUser 8)] |}.

Definition watched_store : @state nat :=
  from_Done empty_state
    (exec_all 0 20 [ONewFuture; OAddResultCallback 0 (CbUser 7);
                    OSpawnTask (PAwait 0 (straight [1] 5 None)); ORunReady;
                    OAddResultCallback 0 (CbDone (DcUser 8))]
              empty_state).

(** ** The timeout as the specification words it

    "timeout = min(time_until_first_callback, time_until_context_deadline,
    HARD_CAP)", with a term left out when there is no callback or no
    deadline.  This definition follows the specification, not the source;
    it is compared with [Run_timeout] below. *)
Definition HARD_CAP : Z := (second * 30)%Z.

Definition spec_timeout (q : list Callback) (deadline : option Z) (now1 now2 : Z) : Z :=
  let t := HARD_CAP in
  let t := match q with
           | [] => t
           | c :: _ => Z.min (time_Until (when c) now1) t
           end in
  match deadline with
  | Some d => Z.min (time_Until d now2) t
  | None => t
  end.

(** * Properties *)

(** ** The blocking timeout of [Run] *)

Lemma Run_timeout_min (q : list Callback) (deadline : option Z) (now1 now2 : Z) :
  Run_timeout q deadline now1 now2 =
  let base := match q with
              | [] => HARD_CAP
              | c :: _ => time_Until (when c) now1
              end in
  match deadline with
  | Some d => Z.min (time_Until d now2) base
  | None => base
  end.
Proof.
  unfold Run_timeout, HARD_CAP. destruct deadline as [d|]; [|by destruct q].
  cbv zeta. set (base := match q with [] => _ | _ => _ end).
  destruct (Z.ltb_spec (time_Until d now2) base); lia.
Qed.

(** C4, as the code has it: the timeout handed to [poller.Wait] is the
    minimum of the time until the context deadline, when there is one, and
    of a base that is the time until the first pending callback when the
    queue is not empty and 30 seconds only when it is empty.  So with an
    empty queue the timeout is at most 30 seconds, and capping the code's
    timeout at 30 seconds gives the minimum the specification describes. *)
Theorem Run_timeout_by_design (q : list Callback) (deadline : option Z) (now1 now2 : Z) :
  Run_timeout q deadline now1 now2 =
    match deadline with
    | Some d => Z.min (time_Until d now2)
                      (match q with
                       | [] => HARD_CAP
                       | c :: _ => time_Until (when c) now1
                       end)
    | None => match q with
              | [] => HARD_CAP
              | c :: _ => time_Until (when c) now1
              end
    end
  /\ (Run_timeout [] deadline now1 now2 <= HARD_CAP)%Z
  /\ Z.min (Run_timeout q deadline now1 now2) HARD_CAP = spec_timeout q deadline now1 now2.
Proof.
  rewrite !Run_timeout_min. cbv zeta. split; [done|]. split.
  - destruct deadline; lia.
  - unfold spec_timeout. destruct q as [|c q'], deadline; lia.
Qed.

(** C4 as stated fails: with one callback due in an hour and no deadline
    the loop blocks for an hour, not for the 30 seconds of the cap. *)
Lemma Run_timeout_exceeds_cap :
  let q := [ {| callback_ := LcUser 0; when := (3600 * second)%Z |} ] in
  Run_timeout q None 0 0 = (3600 * second)%Z
  /\ spec_timeout q None 0 0 = HARD_CAP
  /\ ~ (Run_timeout q None 0 0 <= HARD_CAP)%Z.
Proof. vm_compute. split; [done|]. split; [done|]. intros H. by apply H. Qed.

(** ** Footprint of a run *)

Lemma of_option_Done {A : Type} (o : option A) (a : A) :
  of_option o = Done a <-> o = Some a.
Proof. destruct o; simpl; split; congruence. Qed.

(** Case analysis on the first call of a sequence. *)
Ltac inv_bind H :=
  match type of H with
  | bind ?r _ = Done _ =>
      let E := fresh "E" in
      destruct r eqn:E; simpl in H; [|discriminate H|discriminate H]
  end.

Ltac inv_get E :=
  first [ unfold get_fut in E | unfold get_task in E
        | unfold get_mutex in E | unfold get_cell in E ];
  apply of_option_Done in E.

Section FootprintFacts.

Context {V : Type} (zero : V).
Variables (okp : ptr -> bool) (okt : task_id -> bool) (live : bool).

Local Abbreviation state := (@state V).
Local Abbreviation closed := (closed okp okt live).
Local Abbreviation guar := (guar okp okt).
Local Abbreviation okstep := (okstep okp okt live).

Lemma forallbi_spec {A : Type} (f : nat -> A -> bool) (l : list A) (i : nat) :
  forallbi f i l = true <-> forall k x, l !! k = Some x -> f (i + k) x = true.
Proof.
  revert i. induction l as [|a l IH]; intros i; simpl.
  - split; [intros _ k x Hk; by destruct k | done].
  - rewrite andb_true_iff, IH. split.
    + intros [Ha Hl] [|k] x Hk; simpl in Hk.
      * injection Hk as <-. by rewrite Nat.add_0_r.
      * replace (i + S k) with (S i + k) by lia. by apply Hl.
    + intros H. split.
      * rewrite <- (Nat.add_0_r i). by apply H.
      * intros k x Hk. replace (S i + k) with (i + S k) by lia. by apply H.
Qed.

Lemma forallb_lookup {A : Type} (f : A -> bool) (l : list A) :
  forallb f l = true <-> forall k x, l !! k = Some x -> f x = true.
Proof.
  rewrite forallb_forall. split.
  - intros H k x Hk. apply H. apply list_elem_of_In. by eapply list_elem_of_lookup_2.
  - intros H x Hx. apply list_elem_of_In, list_elem_of_lookup_1 in Hx as [k Hk]. eauto.
Qed.

Lemma closedb_spec (s : state) :
  closedb okp okt s = true <->
  (forall q f, heap s !! q = Some f -> fut_ok okp okt q f = true) /\
  (forall t tk, tasks s !! t = Some tk -> task_ok okp okt t tk = true) /\
  (forall m o, mutexes s !! m = Some o -> okpo okp o = true) /\
  forallb (fun c => lc_ok okt (callback_ c)) (pendingCallbacks s) = true.
Proof.
  unfold closedb. rewrite !andb_true_iff, !forallbi_spec, !forallb_lookup.
  simpl. tauto.
Qed.

Lemma guar_refl (s : state) : guar s s.
Proof.
  repeat split; auto.
  - intros t tk Ht _. by exists tk.
  - exists []. by rewrite app_nil_r.
Qed.

Lemma guar_same (s s' : state) :
  heap s' = heap s -> tasks s' = tasks s -> trace s' = trace s -> guar s s'.
Proof.
  intros Hh Ht Htr. repeat split; rewrite ?Hh, ?Ht; auto.
  - intros t tk Htk _. by exists tk.
  - exists []. by rewrite Htr, app_nil_r.
Qed.

Lemma guar_trans (s1 s2 s3 : state) : guar s1 s2 -> guar s2 s3 -> guar s1 s3.
Proof.
  intros (Hl1 & Ht1 & Hf1 & Hk1 & evs1 & He1 & Hok1) (Hl2 & Ht2 & Hf2 & Hk2 & evs2 & He2 & Hok2).
  repeat split; [lia | lia | | |].
  - intros q f Hq Hd. apply Hf2; [|done]. by apply Hf1.
  - intros t tk Htk Hokt. destruct (Hk1 t tk Htk Hokt) as (tk1 & Htk1 & Hc1 & Hr1).
    destruct (Hk2 t tk1 Htk1 Hokt) as (tk2 & Htk2 & Hc2 & Hr2).
    exists tk2. repeat split; congruence.
  - exists (evs1 ++ evs2). rewrite He2, He1, app_assoc. split; [done|].
    rewrite forallb_app. by rewrite Hok1, Hok2.
Qed.

Lemma okstep_trans (s1 s2 s3 : state) : okstep s1 s2 -> okstep s2 s3 -> okstep s1 s3.
Proof. intros [_ H1] [H2 H3]. split; [done|]. by eapply guar_trans. Qed.

Lemma okstep_refl (s : state) : closed s -> okstep s s.
Proof. intros H. split; [done|apply guar_refl]. Qed.

(** Fields that neither [closed] nor [guar] reads. *)
Lemma okstep_ext (s s' : state) :
  heap s' = heap s -> tasks s' = tasks s -> mutexes s' = mutexes s ->
  pendingCallbacks s' = pendingCallbacks s ->
  (exists evs, trace s' = trace s ++ evs /\ forallb (ev_ok okt) evs = true) ->
  closed s -> okstep s s'.
Proof.
  intros Hh Ht Hm Hq Htr (HB & HD & HC). split.
  - split; [by rewrite Hh|]. split.
    + intros t Hokt. destruct (HD t Hokt) as (tk & body & ?). exists tk, body.
      by rewrite Ht, Hh.
    + apply closedb_spec. apply closedb_spec in HC. by rewrite Hh, Ht, Hm, Hq.
  - repeat split; rewrite ?Hh, ?Ht; auto. intros t tk Htk _. by exists tk.
Qed.

Lemma okstep_emit (ev : event) (s : state) :
  ev_ok okt ev = true -> closed s -> okstep s (emit ev s).
Proof.
  intros Hev. apply okstep_ext; try done. exists [ev]. simpl. by rewrite Hev.
Qed.

Lemma okstep_silent (s s' : state) :
  heap s' = heap s -> tasks s' = tasks s -> mutexes s' = mutexes s ->
  pendingCallbacks s' = pendingCallbacks s -> trace s' = trace s ->
  closed s -> okstep s s'.
Proof.
  intros Hh Ht Hm Hq Htr. apply okstep_ext; try done. exists []. by rewrite app_nil_r.
Qed.

Lemma okp_fresh (s : state) : closed s -> okp (length (heap s)) = true.
Proof.
  intros (HB & _). destruct (okp (length (heap s))) eqn:E; [done|].
  apply HB in E. lia.
Qed.

Lemma okt_fresh (s : state) : closed s -> okt (length (tasks s)) = true.
Proof.
  intros (_ & HD & _). destruct (okt (length (tasks s))) eqn:E; [done|].
  destruct (HD _ E) as (tk & body & Htk & _).
  apply lookup_lt_Some in Htk. lia.
Qed.

(** A pending future within the bounds is completed. *)
Lemma okstep_mark_done (p : ptr) (f : Future) (v : V) (e : error) (s : state) :
  closed s -> okp p = true -> heap s !! p = Some f -> done f = false ->
  okstep s (upd_fut p (mark_done v e f) s) /\
  forallb (cb_ok okp okt) (callbacks f) = true.
Proof.
  intros (HB & HD & HC) Hp Hf Hpend.
  apply closedb_spec in HC as (C1 & C2 & C3 & C4).
  assert (Hlt : p < length (heap s)) by by eapply lookup_lt_Some.
  split; [split|].
  - split; [|split].
    + intros q Hq. simpl. rewrite length_insert. by apply HB.
    + intros t Hokt. destruct (HD t Hokt) as (tk & body & Htk & Hco & Hlive).
      exists tk, body. repeat split; try done. intros Hl.
      destruct (Hlive Hl) as (g & Hg & Hdone). exists g. split; [|done]. simpl.
      rewrite list_lookup_insert_ne; [done|]. intros ->. congruence.
    + apply closedb_spec. repeat split; try done.
      intros q g. simpl. destruct (decide (p = q)) as [<-|Hne].
      * rewrite list_lookup_insert_eq by done. intros [= <-]. done.
      * rewrite list_lookup_insert_ne by done. apply C1.
  - repeat split; simpl.
    + by rewrite length_insert.
    + done.
    + intros q g Hq Hd. rewrite list_lookup_insert_ne; [done|].
      intros <-. destruct Hd; congruence.
    + intros t tk Htk _. by exists tk.
    + exists []. by rewrite app_nil_r.
  - specialize (C1 p f Hf). unfold fut_ok in C1. rewrite Hpend, Hp in C1. done.
Qed.

Lemma okstep_push_callback (p : ptr) (f : Future) (cb : callback) (s : state) :
  closed s -> okp p = true -> heap s !! p = Some f -> done f = false ->
  cb_ok okp okt cb = true ->
  okstep s (upd_fut p (push_callback cb f) s).
Proof.
  intros (HB & HD & HC) Hp Hf Hpend Hcb.
  apply closedb_spec in HC as (C1 & C2 & C3 & C4).
  assert (Hlt : p < length (heap s)) by by eapply lookup_lt_Some.
  split.
  - split; [|split].
    + intros q Hq. simpl. rewrite length_insert. by apply HB.
    + intros t Hokt. destruct (HD t Hokt) as (tk & body & Htk & Hco & Hlive).
      exists tk, body. repeat split; try done. intros Hl.
      destruct (Hlive Hl) as (g & Hg & Hdone). exists g. split; [|done]. simpl.
      rewrite list_lookup_insert_ne; [done|]. intros ->. congruence.
    + apply closedb_spec. repeat split; try done.
      intros q g. simpl. destruct (decide (p = q)) as [<-|Hne].
      * rewrite list_lookup_insert_eq by done. intros [= <-].
        specialize (C1 p f Hf). unfold fut_ok in *. simpl.
        rewrite Hpend, Hp in *. simpl in *. rewrite forallb_app. simpl.
        by rewrite C1, Hcb.
      * rewrite list_lookup_insert_ne by done. apply C1.
  - repeat split; simpl.
    + by rewrite length_insert.
    + done.
    + intros q g Hq Hd. rewrite list_lookup_insert_ne; [done|].
      intros <-. destruct Hd; congruence.
    + intros t tk Htk _. by exists tk.
    + exists []. by rewrite app_nil_r.
Qed.

Lemma upd_task_lookup (t t' : task_id) (g : Task -> Task) (s : state) :
  tasks (upd_task t g s) !! t' =
  if decide (t = t') then g <$> (tasks s !! t) else tasks s !! t'.
Proof.
  unfold upd_task. destruct (tasks s !! t) as [tk|] eqn:E; simpl.
  - destruct (decide (t = t')) as [<-|Hne].
    + rewrite list_lookup_insert_eq; [done|]. by eapply lookup_lt_Some.
    + by rewrite list_lookup_insert_ne.
  - destruct (decide (t = t')) as [<-|Hne]; [by rewrite E|done].
Qed.

Lemma upd_task_fields (t : task_id) (g : Task -> Task) (s : state) :
  heap (upd_task t g s) = heap s /\ mutexes (upd_task t g s) = mutexes s /\
  pendingCallbacks (upd_task t g s) = pendingCallbacks s /\
  trace (upd_task t g s) = trace s /\ currentTasks (upd_task t g s) = currentTasks s /\
  parent_cause (upd_task t g s) = parent_cause s /\
  length (tasks (upd_task t g s)) = length (tasks s).
Proof.
  unfold upd_task. destruct (tasks s !! t); simpl; rewrite ?length_insert; done.
Qed.

(** A task is updated, the update keeping it within the bounds and, for a
    task outside [okt], keeping its coroutine and its result future. *)
Lemma okstep_upd_task (t : task_id) (g : Task -> Task) (s : state) :
  closed s ->
  (forall tk, tasks s !! t = Some tk ->
     task_ok okp okt t (g tk) = true /\
     (okt t = false -> coro (g tk) = coro tk /\ resultFut (g tk) = resultFut tk)) ->
  okstep s (upd_task t g s).
Proof.
  intros (HB & HD & HC) Hg.
  apply closedb_spec in HC as (C1 & C2 & C3 & C4).
  destruct (upd_task_fields t g s) as (Eh & Em & Eq & Etr & _ & _ & El).
  split.
  - split; [|split].
    + intros q Hq. rewrite Eh. by apply HB.
    + intros t' Hokt. destruct (HD t' Hokt) as (tk & body & Htk & Hco & Hlive).
      destruct (decide (t = t')) as [<-|Hne].
      * destruct (Hg tk Htk) as (_ & Hsame). destruct (Hsame Hokt) as (Hc' & Hr').
        exists (g tk), body. rewrite upd_task_lookup, decide_True, Htk by done.
        rewrite Eh, Hc', Hr'. done.
      * exists tk, body. rewrite upd_task_lookup, decide_False, Eh by done. done.
    + apply closedb_spec. rewrite Eh, Em, Eq. repeat split; try done.
      intros t' tk'. rewrite upd_task_lookup. destruct (decide (t = t')) as [<-|Hne].
      * destruct (tasks s !! t) as [tk|] eqn:E; [|done]. simpl. intros [= <-].
        by apply Hg.
      * apply C2.
  - repeat split; rewrite ?Eh, ?El; auto.
    + intros t' tk Htk Hokt. rewrite upd_task_lookup.
      destruct (decide (t = t')) as [<-|Hne]; [|by exists tk].
      rewrite Htk. exists (g tk). destruct (Hg tk Htk) as (_ & Hsame).
      destruct (Hsame Hokt). done.
    + exists []. by rewrite Etr, app_nil_r.
Qed.

Lemma closed_task (t : task_id) (tk : Task) (s : state) :
  closed s -> tasks s !! t = Some tk ->
  okpo okp (pendingFut tk) = true /\
  (okt t = true -> okp (resultFut tk) = true /\ coro_ok okp (coro tk) = true).
Proof.
  intros (_ & _ & HC) Htk. apply closedb_spec in HC as (_ & C2 & _).
  specialize (C2 t tk Htk). unfold task_ok in C2.
  apply andb_true_iff in C2 as [Hp Hr]. split; [done|]. intros Hokt.
  rewrite Hokt in Hr. simpl in Hr. by apply andb_true_iff in Hr.
Qed.

Lemma okstep_task_cancel (t : task_id) (e : error) (s : state) :
  closed s -> okstep s (task_cancel t e s).
Proof.
  intros Hc. unfold task_cancel.
  destruct (tasks s !! t) as [tk|] eqn:E; [|by apply okstep_refl].
  destruct (Cause tk s); [by apply okstep_refl|].
  apply okstep_upd_task; [done|]. intros tk' Htk'. split; [|done].
  destruct Hc as (_ & _ & HC). apply closedb_spec in HC as (_ & C2 & _).
  by apply (C2 t tk').
Qed.

Lemma okstep_with_coro (t : task_id) (c : coro_state) (s : state) :
  closed s -> okt t = true -> coro_ok okp c = true ->
  okstep s (upd_task t (with_coro c) s).
Proof.
  intros Hc Hokt Hco. apply okstep_upd_task; [done|]. intros tk Htk.
  split; [|congruence].
  destruct (closed_task t tk s Hc Htk) as (Hp & Hr). destruct (Hr Hokt) as (Hr1 & _).
  unfold task_ok. simpl. by rewrite Hp, Hokt, Hr1, Hco.
Qed.

Lemma okstep_with_pendingFut (t : task_id) (o : option ptr) (s : state) :
  closed s -> okt t = true -> okpo okp o = true ->
  okstep s (upd_task t (with_pendingFut o) s).
Proof.
  intros Hc Hokt Ho. apply okstep_upd_task; [done|]. intros tk Htk.
  split; [|congruence].
  destruct (closed_task t tk s Hc Htk) as (Hp & Hr). destruct (Hr Hokt) as (Hr1 & Hr2).
  unfold task_ok. simpl. by rewrite Ho, Hokt, Hr1, Hr2.
Qed.

Lemma okstep_NewFuture (s : state) :
  closed s -> okstep s (snd (NewFuture zero s)).
Proof.
  intros (HB & HD & HC). apply closedb_spec in HC as (C1 & C2 & C3 & C4).
  split.
  - split; [|split]; simpl.
    + intros q Hq. rewrite length_app. apply HB in Hq. lia.
    + intros t Hokt. destruct (HD t Hokt) as (tk & body & Htk & Hco & Hlive).
      exists tk, body. repeat split; try done. intros Hl.
      destruct (Hlive Hl) as (f & Hf & Hdone). exists f. split; [|done].
      by apply lookup_app_l_Some.
    + apply closedb_spec. simpl. repeat split; try done.
      intros q f Hq. apply lookup_app_Some in Hq as [Hq|[_ Hq]]; [by eapply C1|].
      destruct (q - length (heap s)); [|done]. injection Hq as <-.
      unfold fut_ok. simpl. by rewrite orb_true_r.
  - repeat split; simpl.
    + rewrite length_app. lia.
    + done.
    + intros q f Hq _. by apply lookup_app_l_Some.
    + intros t tk Htk _. by exists tk.
    + exists []. by rewrite app_nil_r.
Qed.

Lemma okstep_set_mutexes (m : mutex_id) (o : option ptr) (s : state) :
  closed s -> okpo okp o = true ->
  okstep s (set_mutexes (<[m := o]> (mutexes s)) s).
Proof.
  intros (HB & HD & HC) Ho. apply closedb_spec in HC as (C1 & C2 & C3 & C4).
  split.
  - split; [done|]. split; [done|].
    apply closedb_spec. simpl. repeat split; try done.
    intros m' o' Hm. apply list_lookup_insert_Some in Hm as [(_ & <- & _)|(_ & Hm)]; [done|].
    by eapply C3.
  - by apply guar_same.
Qed.

Lemma forallb_Add (g : Callback -> bool) (c : Callback) (q : list Callback) :
  forallb g (Add c q) = g c && forallb g q.
Proof.
  induction q as [|d q IH]; simpl; [done|].
  destruct (when c <? when d)%Z; simpl; [done|].
  rewrite IH. by destruct (g c), (g d).
Qed.

Lemma okstep_RunCallback (lc : loop_callback) (s : state) :
  closed s -> lc_ok okt lc = true -> okstep s (RunCallback lc s).
Proof.
  intros (HB & HD & HC) Hlc. apply closedb_spec in HC as (C1 & C2 & C3 & C4).
  split.
  - split; [done|]. split; [done|].
    apply closedb_spec. simpl. repeat split; try done.
    rewrite forallb_Add. simpl. by rewrite Hlc, C4.
  - by apply guar_same.
Qed.

Lemma okstep_set_currentTasks (c : list task_id) (s : state) :
  closed s -> okstep s (set_currentTasks c s).
Proof. by apply okstep_silent. Qed.

Lemma okstep_set_cells (c : list (nat * error)) (s : state) :
  closed s -> okstep s (set_cells c s).
Proof. by apply okstep_silent. Qed.

Lemma closed_mutex (m : mutex_id) (o : option ptr) (s : state) :
  closed s -> mutexes s !! m = Some o -> okpo okp o = true.
Proof.
  intros (_ & _ & HC) Hm. apply closedb_spec in HC as (_ & _ & C3 & _). by eapply C3.
Qed.

Lemma foldM_okstep {A : Type} (f : A -> state -> res state) (P : A -> bool)
  (l : list A) :
  (forall a s s', closed s -> P a = true -> f a s = Done s' -> okstep s s') ->
  forall s s', closed s -> forallb P l = true -> foldM f l s = Done s' -> okstep s s'.
Proof.
  intros Hf. induction l as [|a l IH]; intros s s' Hc Hl H; simpl in *.
  - injection H as <-. by apply okstep_refl.
  - apply andb_true_iff in Hl as [Ha Hl]. inv_bind H.
    pose proof (Hf _ _ _ Hc Ha E) as Hs. eapply okstep_trans; [exact Hs|].
    apply IH; [apply Hs|done|done].
Qed.

Lemma SetResult_ok (n : nat) : machine_spec zero okp okt live n -> spec_SetResult zero okp okt live (S n).
Proof.
  intros (_ & IHinv & _) p v e s s' Hc Hp H. simpl in H.
  inv_bind H. inv_get E. destruct (done a) eqn:Hd.
  - injection H as <-. by apply okstep_refl.
  - destruct (okstep_mark_done p a v e s Hc Hp E Hd) as (Hs & Hcbs).
    eapply okstep_trans; [exact Hs|].
    eapply (foldM_okstep _ (cb_ok okp okt)); [|apply Hs|exact Hcbs|exact H].
    intros cb s1 s2 Hc1 Hcb Hi. simpl in Hi. eapply IHinv; eauto.
Qed.

Lemma invoke_ok (n : nat) : machine_spec zero okp okt live n -> spec_invoke zero okp okt live (S n).
Proof.
  intros (IHset & _ & IHdone & _) cb v e s s' Hc Hcb H. simpl in H.
  destruct cb as [tag|d|fut|f]; simpl in Hcb.
  - injection H as <-. by apply okstep_emit.
  - by eapply IHdone.
  - by eapply IHset.
  - destruct (errors_Is e Canceled).
    + injection H as <-. by apply okstep_refl.
    + by eapply IHset.
Qed.

Lemma invoke_done_ok (n : nat) :
  machine_spec zero okp okt live n -> spec_invoke_done zero okp okt live (S n).
Proof.
  intros (IHset & _ & _ & _ & IHstep & _) d e s s' Hc Hd H. simpl in H.
  destruct d as [tag|t|t|c mode k w]; simpl in Hd.
  - injection H as <-. by apply okstep_emit.
  - inv_bind H. inv_get E. inv_bind H. injection H as <-.
    assert (Hs : okstep s a0).
    { destruct (pendingFut a) as [p|] eqn:Hp.
      - eapply IHset; [done| |exact E0].
        destruct (closed_task t a s Hc E) as (Hok & _). by rewrite Hp in Hok.
      - injection E0 as <-. by apply okstep_refl. }
    eapply okstep_trans; [exact Hs|]. apply okstep_task_cancel, Hs.
  - by eapply IHstep.
  - inv_bind H. destruct e as [e|].
    + pose proof (okstep_set_cells (<[c:=(S (fst a), Some e)]> (cells s)) s Hc) as Hs.
      destruct (negb (WaitMode_eqb mode WaitAll)).
      * eapply okstep_trans; [exact Hs|]. eapply IHset; [apply Hs|done|exact H].
      * by injection H as <-.
    + pose proof (okstep_set_cells (<[c:=(S (fst a), snd a)]> (cells s)) s Hc) as Hs.
      destruct ((k <=? S (fst a)) || WaitMode_eqb mode WaitFirstResult).
      * eapply okstep_trans; [exact Hs|]. eapply IHset; [apply Hs|done|exact H].
      * by injection H as <-.
Qed.

Lemma AddResultCallback_ok (n : nat) :
  machine_spec zero okp okt live n -> spec_AddResultCallback zero okp okt live (S n).
Proof.
  intros (_ & IHinv & _) p cb s s' Hc Hp Hcb H. simpl in H.
  inv_bind H. inv_get E. destruct (done a) eqn:Hd.
  - by eapply IHinv.
  - injection H as <-. by apply okstep_push_callback.
Qed.

Lemma Step_ok (n : nat) : machine_spec zero okp okt live n -> spec_Step zero okp okt live (S n).
Proof.
  intros (_ & _ & _ & IHadd & _ & IHnext & _) t s s' Hc Ht H. simpl in H.
  inv_bind H. destruct a as [sN r]. simpl in H.
  pose proof (okstep_set_currentTasks (currentTasks s ++ [t]) s Hc) as Hs0.
  destruct (IHnext _ _ _ (proj1 Hs0) Ht E) as (Hs1 & Hy). simpl in Hs1, Hy.
  assert (Hpo : okpo okp (default None r) = true) by by destruct r.
  pose proof (okstep_with_pendingFut t _ _ (proj1 Hs1) Ht Hpo) as Hs2.
  set (s1 := upd_task t (with_pendingFut (default None r)) sN) in *.
  destruct (negb (bool_decide (last (currentTasks s1) = Some t))); [done|].
  pose proof (okstep_set_currentTasks (currentTasks s) _ (proj1 Hs2)) as Hs3.
  assert (Hs : okstep s (set_currentTasks (currentTasks s) s1)).
  { eapply okstep_trans; [exact Hs0|]. eapply okstep_trans; [exact Hs1|].
    eapply okstep_trans; [exact Hs2|exact Hs3]. }
  eapply okstep_trans; [exact Hs|]. destruct r as [[p|]|].
  - eapply IHadd; [apply Hs|exact Hy| |exact H]. done.
  - injection H as <-. apply okstep_RunCallback; [apply Hs|done].
  - injection H as <-. apply okstep_with_pendingFut; [apply Hs|done|done].
Qed.

Lemma Err_Done (p : ptr) (s : state) (e : error) :
  Err p s = Done e -> exists f, heap s !! p = Some f /\ err_ f = e.
Proof.
  unfold Err. intros H. inv_bind H. inv_get E. injection H as <-. eauto.
Qed.

Lemma next_ok (n : nat) : machine_spec zero okp okt live n -> spec_next zero okp okt live (S n).
Proof.
  intros (IHset & _ & _ & _ & _ & _ & IHres & IHrun & _) t s r Hc Ht H. simpl in H.
  inv_bind H. inv_get E.
  destruct (closed_task t a s Hc E) as (Hpf & Hrc). destruct (Hrc Ht) as (Hrf & Hco).
  pose proof (okstep_with_coro t CoRunning s Hc Ht eq_refl) as Hs0.
  destruct (coro a) as [body|fut k| |] eqn:Hcoro; simpl in Hco.
  - pose proof (okstep_emit (EvStart t) _ Ht (proj1 Hs0)) as Hs1.
    destruct (IHrun _ _ _ _ (proj1 Hs1) Ht Hco H) as (Hs2 & Hy).
    split; [|done]. eapply okstep_trans; [exact Hs0|]. by eapply okstep_trans.
  - apply andb_true_iff in Hco as (Hfut & Hk).
    destruct (Cause a (upd_task t (with_coro CoRunning) s)) as [er|].
    + inv_bind H. inv_bind H.
      pose proof (IHset _ _ _ _ _ (proj1 Hs0) Hrf E0) as Hs1.
      destruct (IHres _ _ _ _ _ _ (proj1 Hs1) Ht Hfut Hk H) as (Hs2 & Hy).
      split; [|done]. eapply okstep_trans; [exact Hs0|]. by eapply okstep_trans.
    + destruct (IHres _ _ _ _ _ _ (proj1 Hs0) Ht Hfut Hk H) as (Hs2 & Hy).
      split; [|done]. by eapply okstep_trans.
  - done.
  - injection H as <-. split; [by apply okstep_refl|done].
Qed.

Lemma resumed_ok (n : nat) :
  machine_spec zero okp okt live n -> spec_resumed zero okp okt live (S n).
Proof.
  intros (_ & _ & _ & _ & _ & _ & _ & IHrun & _) t yerr fut k s r Hc Ht Hfut Hk H.
  simpl in H. destruct yerr as [e|]; [exact (IHrun t (PRet zero (Some e)) _ _ Hc Ht eq_refl H)|].
  destruct fut as [p|]; [|exact (IHrun _ _ _ _ Hc Ht Hk H)].
  inv_bind H. destruct (snd a) as [e|].
  - exact (IHrun t (PRet zero (Some e)) _ _ Hc Ht eq_refl H).
  - exact (IHrun _ _ _ _ Hc Ht Hk H).
Qed.

Lemma run_ok (n : nat) : machine_spec zero okp okt live n -> spec_run zero okp okt live (S n).
Proof.
  intros (IHset & _ & _ & _ & _ & _ & _ & IHrun & IHyield) t k s r Hc Ht Hk H.
  simpl in H. destruct k as [v e|tag k|f k|k|m k|m k]; simpl in Hk.
  - inv_bind H. inv_get E. inv_bind H. injection H as <-. simpl.
    destruct (closed_task t a s Hc E) as (_ & Hrc). destruct (Hrc Ht) as (Hrf & _).
    pose proof (IHset _ _ _ _ _ Hc Hrf E0) as Hs1.
    split; [|done]. eapply okstep_trans; [exact Hs1|].
    apply okstep_with_coro; [apply Hs1|done|done].
  - pose proof (okstep_emit (EvMark t tag) s Ht Hc) as Hs0.
    destruct (IHrun _ _ _ _ (proj1 Hs0) Ht Hk H) as (Hs1 & Hy).
    split; [|done]. by eapply okstep_trans.
  - apply andb_true_iff in Hk as (Hf & Hk).
    exact (IHyield t (Some f) k s r Hc Ht Hf Hk H).
  - exact (IHyield t None k s r Hc Ht eq_refl Hk H).
  - inv_bind H. inv_get E. inv_bind H.
    pose proof (closed_mutex m a s Hc E) as Hu.
    destruct a0.
    + exact (IHyield t a (PLock m k) s r Hc Ht Hu Hk H).
    + pose proof (okstep_NewFuture s Hc) as Hs0. simpl in Hs0.
      pose proof (okp_fresh s Hc) as Hfresh.
      pose proof (okstep_set_mutexes m (Some (length (heap s))) _ (proj1 Hs0) Hfresh) as Hs1.
      simpl in Hs1.
      pose proof (okstep_emit (EvAcquire t m) _ Ht (proj1 Hs1)) as Hs2.
      destruct (IHrun _ _ _ _ (proj1 Hs2) Ht Hk H) as (Hs3 & Hy).
      split; [|done]. eapply okstep_trans; [exact Hs0|].
      eapply okstep_trans; [exact Hs1|]. by eapply okstep_trans.
  - pose proof (okstep_emit (EvUnlock t m) s Ht Hc) as Hs0.
    inv_bind H. inv_get E. inv_bind H.
    assert (Hs1 : okstep (emit (EvUnlock t m) s) a0).
    { destruct a as [f|].
      - eapply IHset; [apply Hs0| |exact E0].
        apply (closed_mutex m (Some f) _ (proj1 Hs0) E).
      - injection E0 as <-. apply okstep_refl, Hs0. }
    destruct (IHrun _ _ _ _ (proj1 Hs1) Ht Hk H) as (Hs2 & Hy).
    split; [|done]. eapply okstep_trans; [exact Hs0|]. by eapply okstep_trans.
Qed.

Lemma Yield_ok (n : nat) : machine_spec zero okp okt live n -> spec_Yield zero okp okt live (S n).
Proof.
  intros (IHset & _ & _ & _ & _ & _ & IHres & _) t fut k s r Hc Ht Hfut Hk H.
  simpl in H.
  destruct (negb (bool_decide (last (currentTasks s) = Some t))); [done|].
  inv_bind H. inv_get E.
  destruct (closed_task t a s Hc E) as (_ & Hrc). destruct (Hrc Ht) as (Hrf & _).
  destruct (Cause a s) as [er|].
  - inv_bind H. inv_bind H. inv_bind H.
    pose proof (IHset _ _ _ _ _ Hc Hrf E0) as Hs1.
    assert (Hs2 : okstep a0 a1).
    { destruct fut as [p|].
      - eapply IHset; [apply Hs1|exact Hfut|exact E1].
      - injection E1 as <-. apply okstep_refl, Hs1. }
    destruct (IHres _ _ _ _ _ _ (proj1 Hs2) Ht Hfut Hk H) as (Hs3 & Hy).
    split; [|done]. eapply okstep_trans; [exact Hs1|]. by eapply okstep_trans.
  - injection H as <-. simpl. split; [|done].
    apply okstep_with_coro; [done|done|]. simpl. by rewrite Hfut, Hk.
Qed.

(** Every function of the block keeps the store within the bounds. *)
Lemma machine_ok (n : nat) : machine_spec zero okp okt live n.
Proof.
  induction n as [|n IH].
  - repeat split; repeat intro; discriminate.
  - pose proof (SetResult_ok n IH). pose proof (invoke_ok n IH).
    pose proof (invoke_done_ok n IH). pose proof (AddResultCallback_ok n IH).
    pose proof (Step_ok n IH). pose proof (next_ok n IH).
    pose proof (resumed_ok n IH). pose proof (run_ok n IH).
    pose proof (Yield_ok n IH). unfold machine_spec. tauto.
Qed.

Lemma SetResult_okstep (n : nat) (p : ptr) (v : V) (e : error) (s s' : state) :
  closed s -> okp p = true -> SetResult zero n p v e s = Done s' -> okstep s s'.
Proof. destruct (machine_ok n) as (IH & _). apply IH. Qed.

Lemma AddResultCallback_okstep (n : nat) (p : ptr) (cb : callback) (s s' : state) :
  closed s -> okp p = true -> cb_ok okp okt cb = true ->
  AddResultCallback zero n p cb s = Done s' -> okstep s s'.
Proof. destruct (machine_ok n) as (_ & _ & _ & IH & _). apply IH. Qed.

Lemma Step_okstep (n : nat) (t : task_id) (s s' : state) :
  closed s -> okt t = true -> Step zero n t s = Done s' -> okstep s s'.
Proof. destruct (machine_ok n) as (_ & _ & _ & _ & IH & _). apply IH. Qed.

Lemma HasResult_Done (p : ptr) (s : state) (b : bool) :
  HasResult p s = Done b <-> exists f, heap s !! p = Some f /\ done f = b.
Proof.
  unfold HasResult, get_fut. destruct (heap s !! p) as [f|]; simpl.
  - split; [intros [= <-]; eauto|]. by intros (f' & [= <-] & <-).
  - split; [done|]. by intros (f' & ? & _).
Qed.

Lemma Shield_okstep (n : nat) (p : ptr) (s : state) (r : ptr * state) :
  closed s -> okp p = true -> Shield zero n p s = Done r -> okstep s (snd r).
Proof.
  intros Hc Hp H. unfold Shield in H. inv_bind H. destruct a.
  - injection H as <-. by apply okstep_refl.
  - simpl in H. inv_bind H. inv_bind H. injection H as <-. simpl.
    pose proof (okstep_NewFuture s Hc) as Hs0. simpl in Hs0.
    pose proof (okp_fresh s Hc) as Hfresh.
    pose proof (AddResultCallback_okstep n p (CbShieldFwd (length (heap s))) _ _
                  (proj1 Hs0) Hp Hfresh E0) as Hs1.
    pose proof (AddResultCallback_okstep n _ (CbShieldBack p) _ _
                  (proj1 Hs1) Hfresh Hp E1) as Hs2.
    eapply okstep_trans; [exact Hs0|]. by eapply okstep_trans.
Qed.

Lemma okstep_add_task (body : prog) (rf : ptr) (s : state) :
  closed s -> okp rf = true -> prog_ok okp body = true ->
  okstep s (set_tasks (tasks s ++ [new_task body rf]) s).
Proof.
  intros Hc Hrf Hbody. pose proof (okt_fresh s Hc) as Hfresh.
  destruct Hc as (HB & HD & HC). apply closedb_spec in HC as (C1 & C2 & C3 & C4).
  split.
  - split; [done|]. split.
    + intros t Hokt. destruct (HD t Hokt) as (tk & b & Htk & Hco & Hlive).
      exists tk, b. repeat split; try done. simpl. by apply lookup_app_l_Some.
    + apply closedb_spec. simpl. repeat split; try done.
      intros t tk Htk. apply lookup_app_Some in Htk as [Htk|[Hge Htk]]; [by eapply C2|].
      destruct (t - length (tasks s)) eqn:Ed; [|done]. injection Htk as <-.
      assert (t = length (tasks s)) as -> by lia.
      unfold task_ok. simpl. by rewrite Hfresh, Hrf, Hbody.
  - repeat split; simpl; auto.
    + rewrite length_app. lia.
    + intros t tk Htk _. exists tk. split; [|done]. by apply lookup_app_l_Some.
    + exists []. by rewrite app_nil_r.
Qed.

Lemma SpawnTask_okstep (n : nat) (body : prog) (s : state) (r : task_id * state) :
  closed s -> prog_ok okp body = true -> SpawnTask zero n body s = Done r ->
  okstep s (snd r).
Proof.
  intros Hc Hbody H. unfold SpawnTask in H. simpl in H. inv_bind H.
  injection H as <-. simpl.
  pose proof (okstep_NewFuture s Hc) as Hs0. simpl in Hs0.
  pose proof (okp_fresh s Hc) as Hfresh.
  pose proof (okstep_add_task body (length (heap s)) _ (proj1 Hs0) Hfresh Hbody) as Hs1.
  simpl in Hs1.
  assert (Hfresh' : okp (length (heap s)) = true) by done.
  pose proof (AddResultCallback_okstep n _ (CbDone (DcTaskDone (length (tasks s)))) _ _
                (proj1 Hs1) Hfresh' eq_refl E) as Hs2.
  pose proof (okstep_RunCallback (LcStart (length (tasks s))) _ (proj1 Hs2) eq_refl) as Hs3.
  eapply okstep_trans; [exact Hs0|]. eapply okstep_trans; [exact Hs1|].
  by eapply okstep_trans.
Qed.

Lemma Wait_okstep (n : nat) (mode : WaitMode) (fs : list ptr) (s : state)
  (r : ptr * state) :
  closed s -> forallb okp fs = true -> Wait zero n mode fs s = Done r ->
  okstep s (snd r).
Proof.
  intros Hc Hfs H. unfold Wait in H. simpl in H. inv_bind H. injection H as <-. simpl.
  pose proof (okstep_set_cells (cells s ++ [(0, None)]) s Hc) as Hs0.
  pose proof (okstep_NewFuture _ (proj1 Hs0)) as Hs1. simpl in Hs1.
  pose proof (okp_fresh s Hc) as Hfresh.
  eapply okstep_trans; [exact Hs0|]. eapply okstep_trans; [exact Hs1|].
  eapply (foldM_okstep _ okp); [|apply Hs1|exact Hfs|exact E].
  intros p s1 s2 Hc1 Hp Hadd. simpl in Hadd.
  eapply AddResultCallback_okstep; [done|done| |exact Hadd]. done.
Qed.

Lemma Unlock_okstep (n : nat) (m : mutex_id) (s s' : state) :
  closed s -> Unlock zero n m s = Done s' -> okstep s s'.
Proof.
  intros Hc H. unfold Unlock in H. inv_bind H. inv_get E. destruct a as [f|].
  - eapply SetResult_okstep; [done| |exact H]. apply (closed_mutex m (Some f) s Hc E).
  - injection H as <-. by apply okstep_refl.
Qed.

Lemma run_loop_callback_okstep (n : nat) (lc : loop_callback) (s s' : state) :
  live = true ->
  closed s -> lc_ok okt lc = true -> run_loop_callback zero n lc s = Done s' ->
  okstep s s'.
Proof.
  intros Hlive Hc Hlc H. destruct lc as [tag|t|t]; simpl in H, Hlc.
  - injection H as <-. by apply okstep_emit.
  - inv_bind H. inv_get E. inv_bind H. destruct a0.
    { injection H as <-. by apply okstep_refl. }
    apply HasResult_Done in E0 as (f & Hf & Hd).
    assert (Ht : okt t = true).
    { destruct (okt t) eqn:Hokt; [done|]. destruct Hc as (_ & HD & _).
      destruct (HD t Hokt) as (tk & body & Htk & _ & Hl).
      destruct (Hl Hlive) as (g & Hg & Hdone). congruence. }
    destruct (closed_task t a s Hc E) as (_ & Hrc). destruct (Hrc Ht) as (Hrf & _).
    destruct (Cause a s).
    + by eapply SetResult_okstep.
    + by eapply Step_okstep.
  - by eapply Step_okstep.
Qed.

Lemma RunFirst_okstep (n : nat) (s s' : state) :
  live = true -> closed s -> RunFirst zero n s = Done s' -> okstep s s'.
Proof.
  intros Hlive Hc H. unfold RunFirst in H.
  destruct (pendingCallbacks s) as [|c q] eqn:Eq; [done|].
  assert (Hq : lc_ok okt (callback_ c) = true /\
               forallb (fun c => lc_ok okt (callback_ c)) q = true).
  { destruct Hc as (_ & _ & HC). apply closedb_spec in HC as (_ & _ & _ & C4).
    rewrite Eq in C4. simpl in C4. by apply andb_true_iff in C4. }
  assert (Hs0 : okstep s (set_pendingCallbacks q s)).
  { destruct Hc as (HB & HD & HC). apply closedb_spec in HC as (C1 & C2 & C3 & C4).
    split; [|by apply guar_same]. split; [done|]. split; [done|].
    apply closedb_spec. simpl. repeat split; try done. apply Hq. }
  eapply okstep_trans; [exact Hs0|].
  eapply run_loop_callback_okstep; [done|apply Hs0|apply Hq|exact H].
Qed.

Lemma runReadyCallbacks_okstep (n : nat) (s s' : state) :
  live = true -> closed s -> runReadyCallbacks zero n s = Done s' -> okstep s s'.
Proof.
  intros Hlive. revert s. induction n as [|n IH]; intros s Hc H; simpl in H; [done|].
  destruct (parent_cause s); [injection H as <-; by apply okstep_refl|].
  destruct (pendingCallbacks s) as [|c q] eqn:Eq; [injection H as <-; by apply okstep_refl|].
  destruct (time_Until (when c) (now s) <=? 0)%Z; [|injection H as <-; by apply okstep_refl].
  inv_bind H. pose proof (RunFirst_okstep n s a Hlive Hc E) as Hs0.
  eapply okstep_trans; [exact Hs0|]. apply IH; [apply Hs0|done].
Qed.

Lemma okstep_new_mutex (s : state) :
  closed s -> okstep s (set_mutexes (mutexes s ++ [None]) s).
Proof.
  intros (HB & HD & HC). apply closedb_spec in HC as (C1 & C2 & C3 & C4).
  split; [|by apply guar_same]. split; [done|]. split; [done|].
  apply closedb_spec. simpl. repeat split; try done.
  intros m o Hm. apply lookup_app_Some in Hm as [Hm|[_ Hm]]; [by eapply C3|].
  destruct (m - length (mutexes s)); [|done]. by injection Hm as <-.
Qed.

(** A client that stays within the bounds leaves the store within them. *)
Lemma exec_okstep (n : nat) (o : op) (s s' : state) :
  closed s -> op_ok okp okt live o = true -> exec zero n o s = Done s' -> okstep s s'.
Proof.
  intros Hc Ho H. destruct o; simpl in H, Ho.
  - injection H as <-. by apply okstep_NewFuture.
  - by eapply SetResult_okstep.
  - by eapply SetResult_okstep.
  - apply andb_true_iff in Ho as (Hp & Hcb). by eapply AddResultCallback_okstep.
  - inv_bind H. injection H as <-. by eapply Shield_okstep.
  - inv_bind H. injection H as <-. by eapply SpawnTask_okstep.
  - inv_bind H. injection H as <-. by eapply Wait_okstep.
  - by eapply Unlock_okstep.
  - injection H as <-. by apply okstep_new_mutex.
  - by eapply runReadyCallbacks_okstep.
  - injection H as <-. by apply okstep_silent.
  - destruct (parent_cause s); injection H as <-; [by apply okstep_refl|].
    by apply okstep_silent.
Qed.

Lemma exec_all_okstep (n : nat) (os : list op) (s s' : state) :
  closed s -> forallb (op_ok okp okt live) os = true -> exec_all zero n os s = Done s' ->
  okstep s s'.
Proof.
  intros Hc Hos H. eapply (foldM_okstep _ (op_ok okp okt live)); [|done|exact Hos|exact H].
  intros o s1 s2. apply exec_okstep.
Qed.

End FootprintFacts.

(** ** Futures *)

Section FutureFacts.

Context {V : Type} (zero : V).

Local Abbreviation state := (@state V).
Local Abbreviation anyp := (fun _ : ptr => true).
Local Abbreviation anyt := (fun _ : task_id => true).

Lemma prog_ok_any (k : @prog V) : prog_ok anyp k = true.
Proof. induction k; simpl; auto. Qed.

Lemma cb_ok_any (cb : callback) : cb_ok anyp anyt cb = true.
Proof. destruct cb as [|[]| |]; done. Qed.

Lemma forallb_all {A : Type} (g : A -> bool) (l : list A) :
  (forall a, g a = true) -> forallb g l = true.
Proof. intros Hg. induction l; simpl; [done|]. by rewrite Hg. Qed.

(** Without protected futures or tasks every store is within the bounds. *)
Lemma closed_any (s : state) : closed anyp anyt true s.
Proof.
  split; [done|]. split; [done|]. apply closedb_spec. repeat split.
  - intros q f _. unfold fut_ok. simpl.
    rewrite forallb_all; [by destruct (done f)|apply cb_ok_any].
  - intros t tk _. unfold task_ok. simpl.
    assert (okpo anyp (pendingFut tk) = true) as -> by by destruct (pendingFut tk).
    destruct (coro tk) as [b|[p|] k| |]; simpl; rewrite ?prog_ok_any; done.
  - intros m [p|] _; done.
  - apply forallb_all. by intros [[] w].
Qed.

Lemma op_ok_any (o : @op V) : op_ok anyp anyt true o = true.
Proof.
  destruct o; simpl; rewrite ?cb_ok_any, ?prog_ok_any; try done.
  by apply forallb_all.
Qed.

(** Whatever a client does, a complete future keeps its fields. *)
Lemma exec_all_keeps_done (n : nat) (os : list op) (s s' : state) (p : ptr) (f : Future) :
  exec_all zero n os s = Done s' -> heap s !! p = Some f -> done f = true ->
  heap s' !! p = Some f.
Proof.
  intros H Hp Hd.
  destruct (exec_all_okstep zero anyp anyt true n os s s' (closed_any s)
              (forallb_all _ _ op_ok_any) H) as (_ & _ & _ & Hkeep & _).
  apply Hkeep; auto.
Qed.

Lemma SetResult_done_noop (m : nat) (p : ptr) (f : Future) (v : V) (e : error) (s : state) :
  heap s !! p = Some f -> done f = true -> SetResult zero (S m) p v e s = Done s.
Proof. intros Hp Hd. simpl. unfold get_fut. rewrite Hp. simpl. by rewrite Hd. Qed.

Lemma SetResult_pending (n : nat) (p : ptr) (f : Future) (v : V) (e : error)
  (s s' : state) :
  heap s !! p = Some f -> done f = false -> SetResult zero n p v e s = Done s' ->
  heap s' !! p = Some (mark_done v e f).
Proof.
  intros Hp Hd H. destruct n as [|n]; [done|]. simpl in H.
  unfold get_fut in H. rewrite Hp in H. simpl in H. rewrite Hd in H.
  assert (Hs : okstep anyp anyt true (upd_fut p (mark_done v e f) s) s').
  { eapply (foldM_okstep anyp anyt true _ (cb_ok anyp anyt));
      [|apply closed_any|apply forallb_all, cb_ok_any|exact H].
    intros cb s1 s2 Hc _ Hi. simpl in Hi.
    destruct (machine_ok zero anyp anyt true n) as (_ & IH & _).
    eapply IH; [done|apply cb_ok_any|exact Hi]. }
  destruct Hs as (_ & _ & _ & Hkeep & _). apply Hkeep; [|by left].
  simpl. apply list_lookup_insert_eq. by eapply lookup_lt_Some.
Qed.

(** C1: of two calls that complete a future, [SetResult] or [Cancel], only
    the first takes effect.  After the first call on a pending future the
    future is done and holds the pair of that call (for [Cancel(e)] the
    zero value and the cause [e], or [context.Canceled] when [e] is nil);
    a second call of either kind returns at once and leaves the whole
    store as it is; and nothing a client does afterwards changes the
    future. *)
Theorem SetResult_only_first_call_takes_effect
  (n : nat) (p : ptr) (f : Future) (o1 : op) (v1 : V) (e1 : error) (s s1 : state) :
  heap s !! p = Some f -> done f = false ->
  completion zero p o1 = Some (v1, e1) ->
  exec zero n o1 s = Done s1 ->
  exists f1,
    heap s1 !! p = Some f1 /\ done f1 = true /\ result f1 = v1 /\ err_ f1 = e1 /\
    (forall m o2 r, completion zero p o2 = Some r -> exec zero (S m) o2 s1 = Done s1) /\
    (forall m os s2, exec_all zero m os s1 = Done s2 -> heap s2 !! p = Some f1).
Proof.
  intros Hp Hd Ho1 H. exists (mark_done v1 e1 f).
  assert (H1 : heap s1 !! p = Some (mark_done v1 e1 f)).
  { destruct o1; simpl in Ho1; try done;
      destruct (Nat.eqb_spec p0 p) as [->|]; try done; injection Ho1 as <- <-;
      simpl in H; by eapply SetResult_pending. }
  split; [done|]. split; [done|]. split; [done|]. split; [done|]. split.
  - intros m o2 r Ho2. destruct o2; simpl in Ho2; try done;
      destruct (Nat.eqb_spec p0 p) as [->|]; try done; simpl;
      by eapply SetResult_done_noop.
  - intros m os s2 Hos. by eapply exec_all_keeps_done.
Qed.

Lemma emits_app (evs1 evs2 : list event) (s : state) :
  emits (evs1 ++ evs2) s = emits evs2 (emits evs1 s).
Proof. unfold emits. by rewrite fold_left_app. Qed.

Lemma emits_fields (evs : list event) (s : state) :
  heap (emits evs s) = heap s /\ trace (emits evs s) = trace s ++ evs.
Proof.
  revert s. induction evs as [|ev evs IH]; intros s; simpl.
  - by rewrite app_nil_r.
  - destruct (IH (emit ev s)) as (-> & ->). simpl. by rewrite <- app_assoc.
Qed.

Lemma invoke_observer (m : nat) (cb : callback) (v : V) (e : error) (s : state) :
  is_observer cb = true ->
  invoke zero (S (S m)) cb v e s = Done (emits (observe v e cb) s).
Proof. destruct cb as [tag|[tag| | |]| |]; done. Qed.

Lemma foldM_observers (m : nat) (cbs : list callback) (v : V) (e : error) (s : state) :
  forallb is_observer cbs = true ->
  foldM (fun cb => invoke zero (S (S m)) cb v e) cbs s =
  Done (emits (concat (map (observe v e) cbs)) s).
Proof.
  revert s. induction cbs as [|cb cbs IH]; intros s Hobs; [done|].
  apply andb_true_iff in Hobs as (Hcb & Hcbs). cbn [foldM map concat].
  rewrite invoke_observer by done. cbn [bind]. rewrite IH by done.
  by rewrite emits_app.
Qed.

(** C2, at the input on which the code fails: [Result] on a future fresh
    from [NewFuture] calls [Err] on the nil context and panics. *)
Theorem Result_of_new_future_panics (s : state) :
  Result zero (fst (NewFuture zero s)) (snd (NewFuture zero s)) = Panic.
Proof.
  unfold Result, get_fut. simpl.
  rewrite lookup_app_r by done. by rewrite Nat.sub_diag.
Qed.

(** *** Shield *)


Lemma get_fut_Some (p : ptr) (f : Future) (s : state) :
  heap s !! p = Some f -> get_fut p s = Done f.
Proof. unfold get_fut. by intros ->. Qed.

Lemma SetResult_S (n : nat) (p : ptr) (v : V) (e : error) (s : state) :
  SetResult zero (S n) p v e s =
  let* f := get_fut p s in
  if done f then Done s
  else foldM (fun cb => invoke zero n cb v e) (callbacks f)
             (upd_fut p (mark_done v e f) s).
Proof. done. Qed.

Lemma invoke_S (n : nat) (cb : callback) (v : V) (e : error) (s : state) :
  invoke zero (S n) cb v e s =
  match cb with
  | CbUser tag => Done (emit (EvResult tag v e) s)
  | CbDone d => invoke_done zero n d e s
  | CbShieldFwd fut => SetResult zero n fut v e s
  | CbShieldBack f =>
      if errors_Is e Canceled then Done s else SetResult zero n f v e s
  end.
Proof. done. Qed.

Lemma AddResultCallback_S (n : nat) (p : ptr) (cb : callback) (s : state) :
  AddResultCallback zero (S n) p cb s =
  let* f := get_fut p s in
  if done f then invoke zero n cb (result f) (err_ f) s
  else Done (upd_fut p (push_callback cb f) s).
Proof. done. Qed.

Lemma AddResultCallback_pending (n : nat) (p : ptr) (f : Future) (cb : callback)
  (s : state) :
  heap s !! p = Some f -> done f = false ->
  AddResultCallback zero (S n) p cb s = Done (upd_fut p (push_callback cb f) s).
Proof.
  intros Hp Hd. rewrite AddResultCallback_S, (get_fut_Some p f s Hp).
  cbn [bind]. by rewrite Hd.
Qed.

Lemma Shield_pending (n : nat) (f : ptr) (f0 : Future) (s : state) :
  heap s !! f = Some f0 -> done f0 = false ->
  Shield zero (S n) f s = Done (length (heap s), shielded zero f f0 s).
Proof.
  intros Hf Hd. assert (Hlt : f < length (heap s)) by by eapply lookup_lt_Some.
  unfold Shield, HasResult. rewrite (get_fut_Some f f0 s Hf). cbn [bind]. rewrite Hd.
  cbn [NewFuture].
  rewrite (AddResultCallback_pending n f f0); [|by apply lookup_app_l_Some|done].
  cbn [bind].
  rewrite (AddResultCallback_pending n (length (heap s)) (fresh_future zero)); [done| |done].
  cbn [upd_fut heap set_heap]. rewrite list_lookup_insert_ne by lia.
  rewrite lookup_app_r by done. by rewrite Nat.sub_diag.
Qed.

Lemma shielded_lookup (f : ptr) (f0 : Future) (s : state) (q : ptr) :
  heap s !! f = Some f0 ->
  heap (shielded zero f f0 s) !! q =
  if decide (q = length (heap s))
  then Some (push_callback (CbShieldBack f) (fresh_future zero))
  else if decide (q = f) then Some (push_callback (CbShieldFwd (length (heap s))) f0)
       else heap s !! q.
Proof.
  intros Hf. assert (Hlt : f < length (heap s)) by by eapply lookup_lt_Some.
  unfold shielded. cbn [upd_fut heap set_heap NewFuture snd].
  destruct (decide (q = length (heap s))) as [->|Hq].
  - rewrite list_lookup_insert_eq; [done|]. rewrite length_insert, length_app. simpl. lia.
  - rewrite list_lookup_insert_ne by done.
    destruct (decide (q = f)) as [->|Hqf].
    + rewrite list_lookup_insert_eq; [done|]. rewrite length_app. lia.
    + rewrite list_lookup_insert_ne by done.
      destruct (decide (q < length (heap s))).
      * by rewrite lookup_app_l.
      * rewrite !lookup_ge_None_2; [done|lia|]. rewrite length_app. simpl. lia.
Qed.




(** *** Wait *)

(** Once the address nothing refers to holds a future, the store is
    within the bounds that protect that future. *)
Lemma closed_after_alloc (g : Future) (s s' : state) :
  fresh_for (length (heap s)) s = true ->
  heap s' = heap s ++ [g] -> tasks s' = tasks s -> mutexes s' = mutexes s ->
  pendingCallbacks s' = pendingCallbacks s ->
  closed (fun q => negb (q =? length (heap s))) anyt true s'.
Proof.
  intros Hfresh Hh Ht Hm Hq. apply closedb_spec in Hfresh as (C1 & C2 & C3 & C4).
  split; [|split; [done|]].
  - intros q Hq0. apply negb_false_iff, Nat.eqb_eq in Hq0 as ->.
    rewrite Hh, length_app. simpl. lia.
  - apply closedb_spec. rewrite Hh, Ht, Hm, Hq. repeat split; try done.
    intros q h Hq0. apply lookup_app_Some in Hq0 as [Hq0|[Hge Hq0]]; [by eapply C1|].
    destruct (q - length (heap s)) eqn:Ed; [|done].
    assert (q = length (heap s)) as -> by lia.
    unfold fut_ok. rewrite Nat.eqb_refl. simpl. by rewrite orb_true_r.
Qed.

(** C10: [Wait] called with no future returns, in every mode, a fresh
    pending future without callbacks and registers nothing on any other
    future; whatever the loop and the clients then do, short of completing
    that future themselves or handing out closures that refer to it, it
    stays pending. *)
Theorem Wait_without_futures_stays_pending
  (n : nat) (mode : WaitMode) (s : state) :
  fresh_for (length (heap s)) s = true ->
  exists s1,
    Wait zero n mode [] s = Done (length (heap s), s1) /\
    heap s1 = heap s ++ [fresh_future zero] /\
    forall m os s2,
      forallb (op_ok (fun q => negb (q =? length (heap s))) anyt true) os = true ->
      exec_all zero m os s1 = Done s2 ->
      HasResult (length (heap s)) s2 = Done false.
Proof.
  intros Hfresh. eexists. split; [reflexivity|]. split; [reflexivity|].
  intros m os s2 Hos H.
  set (s1 := set_heap _ _) in H.
  assert (Hc : closed (fun q => negb (q =? length (heap s))) anyt true s1)
    by by apply (closed_after_alloc (fresh_future zero)).
  destruct (exec_all_okstep zero _ _ true m os s1 s2 Hc Hos H) as (_ & _ & _ & Hkeep & _).
  unfold HasResult, get_fut. rewrite (Hkeep (length (heap s)) (fresh_future zero)).
  - done.
  - subst s1. simpl. rewrite lookup_app_r by done. by rewrite Nat.sub_diag.
  - right. by rewrite Nat.eqb_refl.
Qed.

End FutureFacts.

(** ** Tasks *)

Section TaskFacts.

Context {V : Type} (zero : V).

Local Abbreviation state := (@state V).
Local Abbreviation anyp := (fun _ : ptr => true).

Lemma SpawnTask_spawned (n : nat) (body : prog) (s : state) :
  SpawnTask zero (S n) body s = Done (length (tasks s), spawned zero body s).
Proof.
  unfold SpawnTask, AddDoneCallback. cbn [NewFuture].
  rewrite (AddResultCallback_pending zero n (length (heap s)) (fresh_future zero)).
  - done.
  - cbn [set_tasks heap set_heap]. rewrite lookup_app_r by done.
    by rewrite Nat.sub_diag.
  - done.
Qed.




Lemma Result_done (p : ptr) (f : Future) (s : state) :
  heap s !! p = Some f -> done f = true -> Result zero p s = Done (result f, err_ f).
Proof.
  intros Hp Hd. unfold Result. rewrite (get_fut_Some p f s Hp). cbn [bind]. by rewrite Hd.
Qed.


End TaskFacts.

(** ** Reading from a stream *)

Section StreamFacts.

Import Stream.

Lemma index_lt (ch : byte) (l : list byte) (i : nat) :
  index ch l = Some i -> i < length l.
Proof.
  revert i. induction l as [|b l IH]; intros i; simpl; [done|].
  destruct (Byte.eqb b ch); [intros [= <-]; lia|].
  destruct (index ch l) as [j|]; [|done]. intros [= <-].
  specialize (IH j eq_refl). lia.
Qed.

Lemma index_app (ch : byte) (l1 l2 : list byte) :
  index ch (l1 ++ l2) =
  match index ch l1 with
  | Some i => Some i
  | None => option_map (fun j => length l1 + j) (index ch l2)
  end.
Proof.
  induction l1 as [|b l1 IH]; simpl.
  - destruct (index ch l2); reflexivity.
  - destruct (Byte.eqb b ch); [done|]. rewrite IH.
    destruct (index ch l1); [done|]. destruct (index ch l2); reflexivity.
Qed.

Lemma index_drop_None (ch : byte) (l : list byte) (k : nat) :
  index ch l = None -> index ch (drop k l) = None.
Proof.
  intros H. rewrite <- (take_drop k l) in H. rewrite index_app in H.
  destruct (index ch (take k l)); [done|]. by destruct (index ch (drop k l)).
Qed.

Lemma stream_bytes_cons (a : answer) (f : list answer) (input : list byte) :
  stream_bytes (a :: f) = Some input ->
  (exists rest, stream_bytes f = Some rest /\ input = bytes a ++ rest /\
                (is_again (read_err a) = true /\ wait_err a = None \/
                 read_err a = None)) \/
  (is_again (read_err a) = false /\ errors_Is (read_err a) EOF = true /\
   input = bytes a).
Proof.
  simpl. destruct (is_again (read_err a)) eqn:Ea.
  - destruct (wait_err a); [done|].
    destruct (stream_bytes f) as [rest|]; [|done]. intros [= <-]. left.
    exists rest. split; [done|]. split; [done|]. by left.
  - destruct (read_err a) as [e|] eqn:Ee.
    + destruct (err_is e EOF) eqn:Eeof; [|done]. intros [= <-]. right. done.
    + destruct (stream_bytes f) as [rest|]; [|done]. intros [= <-]. left.
      exists rest. split; [done|]. split; [done|]. by right.
Qed.

Lemma stream_bytes_split (a : answer) (f : list answer) (input : list byte) (k : nat) :
  stream_bytes (a :: f) = Some input ->
  exists rest,
    stream_bytes ({| bytes := drop k (bytes a); read_err := read_err a;
                     wait_err := wait_err a |} :: f) = Some rest /\
    input = take k (bytes a) ++ rest.
Proof.
  simpl. destruct (is_again (read_err a)).
  - destruct (wait_err a); [done|].
    destruct (stream_bytes f) as [rest|]; [|done]. intros [= <-]. simpl.
    eexists. split; [done|]. by rewrite app_assoc, take_drop.
  - destruct (read_err a) as [e|].
    + destruct (err_is e EOF); [|done]. intros [= <-].
      eexists. split; [done|]. by rewrite take_drop.
    + destruct (stream_bytes f) as [rest|]; [|done]. intros [= <-]. simpl.
      eexists. split; [done|]. by rewrite app_assoc, take_drop.
Qed.

Lemma weight_split (a : answer) (f : list answer) (k : nat) :
  weight ({| bytes := drop k (bytes a); read_err := read_err a;
             wait_err := wait_err a |} :: f) = weight (a :: f) - Nat.min k (length (bytes a)).
Proof. simpl. rewrite length_drop. lia. Qed.

(** What one call of [read] brings in: either more bytes and no error,
    with less left to read unless there was no room, or the rest of the
    bytes and an end-of-file error. *)
Lemma read_loop_spec (maxBytes : nat) (f : list answer) :
  forall buf input,
    length buf <= maxBytes -> stream_bytes f = Some input ->
    exists got e f',
      read_loop maxBytes buf f = (buf ++ got, e, f') /\
      length (buf ++ got) <= maxBytes /\
      ((e = None /\ weight f' <= weight f /\
        (weight f' < weight f \/ length buf = maxBytes) /\
        exists rest, stream_bytes f' = Some rest /\ input = got ++ rest) \/
       (errors_Is e EOF = true /\ input = got)).
Proof.
  induction f as [|a f IH]; intros buf input Hlen Hin.
  - injection Hin as <-. exists [], (Some EOF), []. simpl.
    rewrite app_nil_r. split; [done|]. split; [done|]. by right.
  - simpl. destruct (Nat.leb_spec (length (bytes a)) (maxBytes - length buf)) as [Hfit|Hbig].
    + apply stream_bytes_cons in Hin as [(rest & Hrest & -> & Hkind)|(Hag & Heof & ->)].
      * destruct Hkind as [(Hag & Hw)|Hnil].
        -- rewrite Hag, Hw.
           assert (Hlen' : length (buf ++ bytes a) <= maxBytes)
             by (rewrite length_app; lia).
           destruct (IH (buf ++ bytes a) rest Hlen' Hrest)
             as (got & e & f' & Hrl & Hle & Hcases).
           exists (bytes a ++ got), e, f'. rewrite app_assoc. split; [done|].
           split; [done|]. destruct Hcases as [(-> & Hw1 & _ & rest' & Hr' & ->)|(He & ->)].
           ++ left. cbn [weight]. split; [done|]. split; [lia|]. split; [left; lia|].
              exists rest'. split; [done|]. by rewrite app_assoc.
           ++ right. done.
        -- rewrite Hnil. simpl. exists (bytes a), None, f.
           split; [done|]. split; [rewrite length_app; lia|].
           left. cbn [weight]. split; [done|]. split; [lia|]. split; [left; lia|]. eauto.
      * rewrite Hag. exists (bytes a), (read_err a), f.
        split; [done|]. split; [rewrite length_app; lia|]. by right.
    + simpl. destruct (stream_bytes_split a f input (maxBytes - length buf) Hin)
        as (rest & Hrest & ->).
      eexists _, None, _. split; [done|].
      split; [rewrite length_app, length_take; lia|].
      left. split; [done|]. rewrite weight_split. cbn [weight]. split; [lia|]. split.
      * destruct (decide (length buf = maxBytes)); [by right|left]. lia.
      * eauto.
Qed.

Lemma read_full (bufSize : nat) (a : AsyncStream) :
  bufSize <= length (buffer a) -> read bufSize a = (bufSize, None, a).
Proof. intros H. unfold read. by rewrite (proj2 (Nat.leb_le _ _) H). Qed.

Lemma read_more (bufSize : nat) (a : AsyncStream) (buf : list byte) (e : error)
  (f : list answer) :
  length (buffer a) < bufSize ->
  read_loop bufSize (buffer a) (file a) = (buf, e, f) ->
  read bufSize a = (length buf, e, {| buffer := buf; file := f |}).
Proof.
  intros H Hrl. unfold read. rewrite (proj2 (Nat.leb_gt _ _) H). by rewrite Hrl.
Qed.

Lemma index_from_0 (ch : byte) (l : list byte) : index_from 0 ch l = index ch l.
Proof. unfold index_from. rewrite drop_0. by destruct (index ch l). Qed.

Lemma until_found (ch : byte) (l rest : list byte) (i : nat) :
  index ch l = Some i ->
  until ch (l ++ rest) = take (Nat.min (i + 1) (length l)) l.
Proof.
  intros Hi. pose proof (index_lt ch l i Hi) as Hlt.
  unfold until. rewrite index_app, Hi.
  rewrite Nat.min_l by lia. rewrite take_app_le by lia. done.
Qed.

Lemma until_none (ch : byte) (l : list byte) : index ch l = None -> until ch l = l.
Proof. unfold until. by intros ->. Qed.

Lemma ReadUntil_loop_spec (ch : byte) (n : nat) :
  forall bufSize a input,
    1 <= bufSize -> index ch (buffer a) = None ->
    stream_bytes (file a) = Some input ->
    2 * weight (file a) + (S (length (buffer a)) - bufSize) < n ->
    exists e a',
      ReadUntil_loop n bufSize ch a = Done (until ch (buffer a ++ input), e, a') /\
      (buffer a ++ input <> [] -> e = None) /\
      (buffer a ++ input = [] -> e <> None).
Proof.
  induction n as [|n IH]; intros bufSize a input Hb Hno Hin Hfuel; [lia|].
  cbn [ReadUntil_loop].
  destruct (Nat.le_gt_cases bufSize (length (buffer a))) as [Hfull|Hroom].
  - rewrite (read_full bufSize a Hfull). unfold index_from.
    rewrite (index_drop_None ch _ _ Hno). cbn [option_map errors_Is andb].
    rewrite (proj2 (Nat.leb_le _ _) Hfull).
    apply IH; [lia|done|done|lia].
  - destruct (read_loop_spec bufSize (file a) (buffer a) input (Nat.lt_le_incl _ _ Hroom) Hin)
      as (got & e & f' & Hrl & Hle & Hcases).
    rewrite (read_more bufSize a _ e f' Hroom Hrl). cbn [buffer file].
    rewrite Nat.sub_diag, index_from_0.
    destruct (index ch (buffer a ++ got)) as [i|] eqn:Hi.
    + cbn [consume buffer]. exists None. eexists. split; [|split; [done|]].
      * assert (Hall : until ch (buffer a ++ input) =
                       take (Nat.min (i + 1) (length (buffer a ++ got))) (buffer a ++ got)).
        { destruct Hcases as [(_ & _ & _ & rest & _ & ->)|(_ & ->)].
          - rewrite app_assoc. by apply until_found.
          - rewrite <- (app_nil_r (buffer a ++ got)) at 1. by apply until_found. }
        rewrite Hall. reflexivity.
      * intros Hnil. apply index_lt in Hi.
        destruct Hcases as [(_ & _ & _ & rest & _ & ->)|(_ & ->)].
        -- rewrite app_assoc in Hnil. apply app_eq_nil in Hnil as [Hnil _].
           rewrite Hnil in Hi. simpl in Hi. lia.
        -- rewrite Hnil in Hi. simpl in Hi. lia.
    + destruct Hcases as [(-> & Hw & Hprog & rest & Hrest & ->)|(Heof & ->)].
      * cbn [errors_Is andb].
        destruct (IH (if bufSize <=? length (buffer a ++ got) then bufSize * 2 else bufSize)
                     {| buffer := buffer a ++ got; file := f' |} rest)
          as (e & a' & Hrun & He1 & He2).
        -- destruct (bufSize <=? length (buffer a ++ got)); lia.
        -- done.
        -- done.
        -- cbn [buffer file]. destruct (Nat.leb_spec bufSize (length (buffer a ++ got))); lia.
        -- cbn [buffer] in *. rewrite <- app_assoc in Hrun, He1, He2. eauto.
      * rewrite Heof. cbn [andb].
        destruct (Nat.ltb_spec 0 (length (buffer a ++ got))) as [Hpos|Hzero].
        -- cbn [consumeAll buffer]. exists None. eexists.
           rewrite (until_none ch _ Hi). split; [reflexivity|]. split; [done|].
           intros Hnil. rewrite Hnil in Hpos. simpl in Hpos. lia.
        -- destruct e as [e|]; [|done]. exists (Some e). eexists.
           assert (Hnil : buffer a ++ got = []) by (apply nil_length_inv; lia).
           rewrite Hnil. split; [reflexivity|]. split; [done|]. done.
Qed.

(** C9: on a file that delivers [input] and then ends, [ReadUntil]
    returns, with [all] the buffered bytes followed by [input]: the bytes
    of [all] up to and including the first [character], and no error, when
    there is one; all of [all] and no error when there is none and [all]
    is not empty; and no bytes and an error when [all] is empty. *)
Theorem ReadUntil_returns_up_to_delimiter
  (character : byte) (a : AsyncStream) (input : list byte) (n : nat) :
  stream_bytes (file a) = Some input ->
  2 * weight (file a) + S (length (buffer a)) < n ->
  exists out e a',
    ReadUntil n character a = Done (out, e, a') /\
    match index character (buffer a ++ input) with
    | Some i => out = take (i + 1) (buffer a ++ input) /\ e = None
    | None =>
        match buffer a ++ input with
        | [] => out = [] /\ e <> None
        | _ :: _ => out = buffer a ++ input /\ e = None
        end
    end.
Proof.
  intros Hin Hfuel.
  assert (Hshape : forall (out : list byte) (e : error),
            out = until character (buffer a ++ input) ->
            (buffer a ++ input <> [] -> e = None) ->
            (buffer a ++ input = [] -> e <> None) ->
            match index character (buffer a ++ input) with
            | Some i => out = take (i + 1) (buffer a ++ input) /\ e = None
            | None =>
                match buffer a ++ input with
                | [] => out = [] /\ e <> None
                | _ :: _ => out = buffer a ++ input /\ e = None
                end
            end).
  { intros out e -> He1 He2. unfold until.
    destruct (index character (buffer a ++ input)) as [i|] eqn:Hi.
    - split; [done|]. apply He1. intros Hnil. rewrite Hnil in Hi. done.
    - destruct (buffer a ++ input); [split; [done|by apply He2]|].
      split; [done|]. by apply He1. }
  unfold ReadUntil. destruct (index character (buffer a)) as [i|] eqn:Hi.
  - cbn [consume]. eexists _, None, _. split; [reflexivity|].
    apply Hshape; [|done|].
    + symmetry. by apply until_found.
    + intros Hnil. apply index_lt in Hi. apply app_eq_nil in Hnil as [Hnil _].
      rewrite Hnil in Hi. simpl in Hi. lia.
  - destruct (ReadUntil_loop_spec character n 1024 a input) as (e & a' & Hrun & He1 & He2);
      [lia|done|done|lia|].
    exists (until character (buffer a ++ input)), e, a'. split; [done|].
    by apply Hshape.
Qed.

End StreamFacts.

(** ** Mutual exclusion *)

Section LockFacts.

Context {V : Type} (zero : V).

Local Abbreviation state := (@state V).
Local Abbreviation LW := (@lock_world V).

Lemma after_snoc (m : mutex_id) (tr : list event) (ev : @event V) :
  after m (tr ++ [ev]) = lock_step m (after m tr) ev.
Proof. unfold after. by rewrite fold_left_app. Qed.

Lemma frame_refl (ex : task_id -> Prop) (spare : ptr -> Prop) (s : state) :
  frame ex spare s s.
Proof. intros t tk Htk Hco _. by exists tk. Qed.

Lemma frame_trans (ex : task_id -> Prop) (spare : ptr -> Prop) (s1 s2 s3 : state) :
  frame ex spare s1 s2 -> frame ex spare s2 s3 -> frame ex spare s1 s3.
Proof.
  intros H12 H23 t tk Htk Hco Hex.
  destruct (H12 t tk Htk Hco Hex) as (tk2 & Htk2 & Hco2 & Hrf2 & Hp2).
  destruct (H23 t tk2 Htk2 Hco2 Hex) as (tk3 & Htk3 & Hco3 & Hrf3 & Hp3).
  exists tk3. split; [done|]. split; [done|]. split; [congruence|].
  intros Hsp Hpend. rewrite <- Hrf2 in *. auto.
Qed.

Lemma frame_weaken (ex ex' : task_id -> Prop) (spare spare' : ptr -> Prop) (s s' : state) :
  (forall t, ex t -> ex' t) -> (forall p, spare p -> spare' p) ->
  frame ex spare s s' -> frame ex' spare' s s'.
Proof.
  intros Hex Hsp H t tk Htk Hco Hn.
  destruct (H t tk Htk Hco) as (tk' & ? & ? & ? & Hp); [by auto|].
  exists tk'. repeat split; try done. intros Hs. apply Hp. by auto.
Qed.

(** A change that neither the invariant nor the frame looks at. *)
Lemma lw_same (s s' : state) :
  heap s' = heap s -> tasks s' = tasks s -> mutexes s' = mutexes s ->
  trace s' = trace s -> parent_cause s' = parent_cause s ->
  LW s -> LW s'.
Proof.
  intros Hh Ht Hm Htr Hp [Lp Lc Lh Lt Li Lm Lmi Ltr].
  assert (Hrf : forall p, is_rf s' p <-> is_rf s p) by (intros p; unfold is_rf; by rewrite Ht).
  assert (Hpe : forall p, pending s' p <-> pending s p) by (intros p; unfold pending; by rewrite Hh).
  assert (Hpd : forall o, pend_done s' o <-> pend_done s o)
    by (intros [p|]; unfold pend_done; by rewrite ?Hh).
  constructor; rewrite ?Hh, ?Ht, ?Hm, ?Htr, ?Hp; try done.
  - intros p f Hf Hd. destruct (Lh p f Hf Hd) as [?|[? ?]]; [by left|right].
    split; [by rewrite Hrf|done].
  - intros t tk Htk. destruct (Lt t tk Htk) as (H1 & H2 & H3).
    split; [done|]. split; [done|]. unfold task_clause in *. rewrite ?Hh.
    destruct (coro tk); rewrite ?Hpe, ?Hpd; try done.
    destruct H3 as (? & ? & H3). repeat split; try done.
    + by apply H3.
    + rewrite Hrf. by apply H3.
  - intros m F HF. destruct (Lm m F HF). by rewrite Hrf.
  - intros m. destruct (Ltr m) as (b & Hb & Hheld). exists b. split; [done|].
    intros Hbt. destruct (Hheld Hbt) as (F & f & ? & ? & ?). exists F, f. by rewrite Hm, Hh.
Qed.

Lemma frame_same_tasks (ex : task_id -> Prop) (spare : ptr -> Prop) (s s' : state) :
  heap s' = heap s -> tasks s' = tasks s -> frame ex spare s s'.
Proof.
  intros Hh Ht t tk Htk Hco _. exists tk. rewrite Ht. repeat split; try done.
  intros _. unfold pending. by rewrite Hh.
Qed.

Lemma upd_fut_lookup (p q : ptr) (f g : Future) (s : state) :
  heap s !! p = Some f ->
  heap (upd_fut p g s) !! q = if decide (p = q) then Some g else heap s !! q.
Proof.
  intros Hf. simpl. destruct (decide (p = q)) as [<-|Hne].
  - apply list_lookup_insert_eq. by eapply lookup_lt_Some.
  - by apply list_lookup_insert_ne.
Qed.

Lemma pending_upd_fut_ne (p q : ptr) (f g : Future) (s : state) :
  heap s !! p = Some f -> p <> q -> pending (upd_fut p g s) q <-> pending s q.
Proof.
  intros Hf Hne. unfold pending. rewrite (upd_fut_lookup p q f g s Hf).
  by rewrite decide_False.
Qed.

Lemma pend_done_upd_fut (p : ptr) (f g : Future) (o : option ptr) (s : state) :
  heap s !! p = Some f -> (done f = true -> done g = true) ->
  pend_done s o -> pend_done (upd_fut p g s) o.
Proof.
  intros Hf Hg. destruct o as [q|]; [|done]. intros (h & Hh & Hd).
  unfold pend_done. rewrite (upd_fut_lookup p q f g s Hf).
  destruct (decide (p = q)) as [<-|]; [|by exists h].
  exists g. split; [done|]. apply Hg. congruence.
Qed.

(** Completing a pending future keeps the invariant when [SetResult] may
    be called on it. *)
Lemma lw_mark_done (p : ptr) (f : Future) (v : V) (e : error) (s : state) :
  LW s -> heap s !! p = Some f -> done f = false -> pre_set s p ->
  LW (upd_fut p (mark_done v e f) s).
Proof.
  intros [Lp Lc Lh Lt Li Lm Lmi Ltr] Hf Hd Hpre.
  destruct Hpre as (Hpm & Hpt); [by exists f|].
  set (s' := upd_fut p (mark_done v e f) s).
  assert (Hlen : length (heap s') = length (heap s)) by (simpl; by rewrite length_insert).
  constructor; try done.
  - intros q g. unfold s'. rewrite (upd_fut_lookup p q f _ s Hf).
    destruct (decide (p = q)) as [<-|]; [intros [= <-]; by apply (Lc p f)|apply Lc].
  - intros q g. unfold s'. rewrite (upd_fut_lookup p q f _ s Hf).
    destruct (decide (p = q)) as [<-|]; [by intros [= <-]|apply Lh].
  - intros t tk Htk. destruct (Lt t tk Htk) as (H1 & H2 & H3).
    unfold task_clause in *. rewrite !Hlen. split; [done|]. split; [done|].
    assert (Hne : coro tk <> CoRunning -> p <> resultFut tk).
    { intros Hco ->. by apply Hco, (Hpt t tk). }
    destruct (coro tk) as [body|fut k| |] eqn:Hco.
    + destruct H3 as (? & ?). split; [done|].
      apply (pending_upd_fut_ne p _ f _ s Hf); [by apply Hne|done].
    + destruct H3 as (? & ? & ?). split; [done|]. split; [|done].
      apply (pending_upd_fut_ne p _ f _ s Hf); [by apply Hne|done].
    + by apply (pend_done_upd_fut p f).
    + by apply (pend_done_upd_fut p f).
  - intros m F HF. rewrite Hlen. by apply (Lm m).
  - intros m. destruct (Ltr m) as (b & Hb & Hheld). exists b. split; [done|].
    intros Hbt. destruct (Hheld Hbt) as (F & g & HF & Hg & Hgd). exists F, g.
    split; [done|]. split; [|done]. unfold s'. rewrite (upd_fut_lookup p F f _ s Hf).
    rewrite decide_False; [done|]. intros <-. rewrite (Hpm m HF) in Hb. congruence.
Qed.

(** A step callback is appended to a pending future tasks wait on. *)
Lemma lw_push_step (p : ptr) (f : Future) (t : task_id) (s : state) :
  LW s -> heap s !! p = Some f -> done f = false -> ~ is_rf s p ->
  LW (upd_fut p (push_callback (CbDone (DcStep t)) f) s).
Proof.
  intros [Lp Lc Lh Lt Li Lm Lmi Ltr] Hf Hd Hnrf.
  set (g := push_callback (CbDone (DcStep t)) f). set (s' := upd_fut p g s).
  assert (Hlen : length (heap s') = length (heap s)) by (simpl; by rewrite length_insert).
  assert (Hpe : forall q, pending s' q <-> pending s q).
  { intros q. unfold pending, s'. rewrite (upd_fut_lookup p q f g s Hf).
    destruct (decide (p = q)) as [<-|]; [|done]. split.
    - intros (h & [= <-] & Hh). by exists f.
    - intros _. by exists g. }
  constructor; try done.
  - intros q h. unfold s'. rewrite (upd_fut_lookup p q f g s Hf).
    destruct (decide (p = q)) as [<-|]; [intros [= <-]; by apply (Lc p f)|apply Lc].
  - intros q h. unfold s'. rewrite (upd_fut_lookup p q f g s Hf).
    destruct (decide (p = q)) as [<-|]; [|apply Lh]. intros [= <-] _. right.
    split; [done|]. destruct (Lh p f Hf Hd) as [(t' & tk' & ? & ? & _)|(_ & Hall)].
    + exfalso. apply Hnrf. by exists t', tk'.
    + simpl. rewrite forallb_app. by rewrite Hall.
  - intros t' tk Htk. destruct (Lt t' tk Htk) as (H1 & H2 & H3).
    unfold task_clause in *. rewrite !Hlen. split; [done|]. split; [done|].
    destruct (coro tk); rewrite ?Hpe; try done; by apply (pend_done_upd_fut p f).
  - intros m F HF. rewrite Hlen. by apply (Lm m).
  - intros m. destruct (Ltr m) as (b & Hb & Hheld). exists b. split; [done|].
    intros Hbt. destruct (Hheld Hbt) as (F & h & HF & Hh & Hhd).
    assert (HpF : pending s' F) by (apply Hpe; by exists h).
    destruct HpF as (h' & ? & ?). by exists F, h'.
Qed.

Lemma frame_upd_fut (ex : task_id -> Prop) (p : ptr) (f g : Future) (s : state) :
  heap s !! p = Some f -> frame ex (fun q => q = p) s (upd_fut p g s).
Proof.
  intros Hf t tk Htk Hco _. exists tk. repeat split; try done.
  intros Hsp Hpend. apply (pending_upd_fut_ne p _ f g s Hf); [|done].
  intros ->. by apply Hsp.
Qed.

Lemma frame_upd_fut_pending (ex : task_id -> Prop) (spare : ptr -> Prop) (p : ptr)
  (f g : Future) (s : state) :
  heap s !! p = Some f -> done g = false -> frame ex spare s (upd_fut p g s).
Proof.
  intros Hf Hg t tk Htk Hco _. exists tk. repeat split; try done.
  intros _ (h & Hh & Hd). unfold pending. rewrite (upd_fut_lookup p _ f g s Hf).
  destruct (decide (p = resultFut tk)); [by exists g|by exists h].
Qed.

Lemma upd_task_twice (t : task_id) (g1 g2 : Task -> Task) (s : state) :
  upd_task t g2 (upd_task t g1 s) = upd_task t (fun tk => g2 (g1 tk)) s.
Proof.
  unfold upd_task. destruct (tasks s !! t) as [tk|] eqn:E; simpl; [|by rewrite E].
  rewrite list_lookup_insert_eq by by eapply lookup_lt_Some.
  unfold set_tasks. simpl. by rewrite list_insert_insert_eq.
Qed.

Lemma upd_task_origin (t t' : task_id) (g : Task -> Task) (tk' : Task) (s : state) :
  (forall tk, resultFut (g tk) = resultFut tk) ->
  tasks (upd_task t g s) !! t' = Some tk' ->
  exists tk0, tasks s !! t' = Some tk0 /\ resultFut tk0 = resultFut tk' /\
              (t' <> t -> tk0 = tk') /\ (t' = t -> tk' = g tk0).
Proof.
  intros Hg. rewrite upd_task_lookup. destruct (decide (t = t')) as [<-|Hne].
  - destruct (tasks s !! t) as [tk|]; [|done]. simpl. intros [= <-].
    exists tk. by rewrite Hg.
  - intros H. exists tk'. repeat split; try done.
Qed.

(** A task is updated, keeping its result future; its cancellation cause
    may only change once that future is complete. *)
Lemma lw_upd_task (t : task_id) (g : Task -> Task) (s : state) :
  LW s ->
  (forall tk, resultFut (g tk) = resultFut tk) ->
  (forall tk, tasks s !! t = Some tk ->
     (cause (g tk) = cause tk \/ ~ pending s (resultFut tk)) /\
     lock_coro (coro (g tk)) = true /\ task_clause s (g tk)) ->
  LW (upd_task t g s).
Proof.
  intros [Lp Lc Lh Lt Li Lm Lmi Ltr] Hrf Hg. set (s' := upd_task t g s).
  destruct (upd_task_fields t g s) as (Eh & Em & Eq & Etr & _ & Ep & El). fold s' in Eh, Em, Etr, Ep.
  assert (Hisrf : forall p, is_rf s' p <-> is_rf s p).
  { intros p. split.
    - intros (t' & tk' & Htk' & <-).
      destruct (upd_task_origin t t' g tk' s Hrf Htk') as (tk0 & ? & ? & _). by exists t', tk0.
    - intros (t' & tk0 & Htk0 & <-). unfold is_rf, s'. setoid_rewrite upd_task_lookup.
      destruct (decide (t = t')) as [<-|Hne].
      + exists t, (g tk0). rewrite decide_True by done. by rewrite Htk0, Hrf.
      + exists t', tk0. by rewrite decide_False. }
  assert (Hclause : forall tk, task_clause s tk -> task_clause s' tk).
  { intros tk. unfold task_clause, pending, pend_done. rewrite Eh.
    destruct (coro tk); try done. intros (? & ? & H3). repeat split; try done.
    - by apply H3.
    - rewrite Hisrf. by apply H3. }
  constructor; rewrite ?Eh, ?Em, ?Etr, ?Ep; try done.
  - intros p f Hf Hd. destruct (Lh p f Hf Hd) as [(t' & tk' & Htk' & Hp & Hcb & Hca)|(? & ?)].
    + left. destruct (decide (t = t')) as [<-|Hne].
      * exists t, (g tk'). unfold s'. rewrite upd_task_lookup, decide_True, Htk' by done.
        rewrite Hrf. repeat split; try done.
        destruct (Hg tk' Htk') as ([->|Hnp] & _); [done|].
        exfalso. apply Hnp. rewrite Hp. by exists f.
      * exists t', tk'. unfold s'. by rewrite upd_task_lookup, decide_False.
    + right. by rewrite Hisrf.
  - intros t' tk' Htk'. unfold s' in Htk'. rewrite upd_task_lookup in Htk'.
    destruct (decide (t = t')) as [<-|Hne].
    + destruct (tasks s !! t) as [tk|] eqn:E; [|done]. injection Htk' as <-.
      destruct (Hg tk eq_refl) as (_ & ? & ?). destruct (Lt t tk E) as (? & _).
      rewrite Hrf. auto.
    + destruct (Lt t' tk' Htk') as (? & ? & ?). auto.
  - intros t1 t2 tk1 tk2 H1 H2 Heq.
    destruct (upd_task_origin t t1 g tk1 s Hrf H1) as (a1 & ? & Hr1 & _).
    destruct (upd_task_origin t t2 g tk2 s Hrf H2) as (a2 & ? & Hr2 & _).
    apply (Li t1 t2 a1 a2); congruence.
  - intros m F HF. rewrite Hisrf. by apply (Lm m).
  - intros m. destruct (Ltr m) as (b & ? & Hheld). exists b. split; [done|].
    intros Hb. destruct (Hheld Hb) as (F & f & ? & ? & ?). exists F, f. by rewrite Em, Eh.
Qed.

Lemma frame_upd_task (t : task_id) (g : Task -> Task) (spare : ptr -> Prop) (s : state) :
  frame (fun t' => t' = t) spare s (upd_task t g s).
Proof.
  intros t' tk Htk Hco Hne. exists tk. rewrite upd_task_lookup, decide_False by auto.
  repeat split; try done. intros _. unfold pending.
  by destruct (upd_task_fields t g s) as (-> & _).
Qed.

Lemma frame_upd_task_keep (t : task_id) (g : Task -> Task) (ex : task_id -> Prop)
  (spare : ptr -> Prop) (s : state) :
  (forall tk, coro (g tk) = coro tk /\ resultFut (g tk) = resultFut tk) ->
  frame ex spare s (upd_task t g s).
Proof.
  intros Hg t' tk Htk Hco _. rewrite upd_task_lookup.
  assert (Hpe : forall p, pending s p -> pending (upd_task t g s) p).
  { intros p. unfold pending. by destruct (upd_task_fields t g s) as (-> & _). }
  destruct (decide (t = t')) as [<-|Hne].
  - exists (g tk). rewrite Htk. destruct (Hg tk) as (-> & ->). repeat split; auto.
  - exists tk. repeat split; auto.
Qed.

Lemma held_same (m : mutex_id) (s s' : state) :
  heap s' = heap s -> mutexes s' = mutexes s -> held m s -> held m s'.
Proof. intros Hh Hm (F & f & ? & ? & ?). exists F, f. by rewrite Hm, Hh. Qed.

(** An event is recorded: the invariant asks for the trace part only. *)
Lemma lw_emit (ev : event) (s : state) :
  LW s ->
  (forall m b, after m (trace s) = Some b ->
     exists b', lock_step m (Some b) ev = Some b' /\ (b' = true -> b = true)) ->
  LW (emit ev s).
Proof.
  intros L Hev. pose proof (lw_trace _ L) as Ltr.
  pose proof (lw_same s (set_now (now s) s) eq_refl eq_refl eq_refl eq_refl eq_refl L)
    as [Lp Lc Lh Lt Li Lm Lmi _].
  constructor; try done. intros m. destruct (Ltr m) as (b & Hb & Hheld).
  destruct (Hev m b Hb) as (b' & Hb' & Himp). exists b'. simpl.
  rewrite after_snoc, Hb. split; [done|]. intros ->. by apply Hheld, Himp.
Qed.

Lemma lw_emit_other (ev : event) (s : state) :
  LW s ->
  match ev with EvAcquire _ _ => False | _ => True end ->
  LW (emit ev s).
Proof.
  intros L Hev. apply lw_emit; [done|]. intros m b _.
  destruct ev; try done; try by exists b.
  simpl. destruct (m0 =? m); [by exists false|by exists b].
Qed.

Lemma after_emit_unlock (t : task_id) (m : mutex_id) (s : state) :
  LW s -> after m (trace (emit (EvUnlock t m) s)) = Some false.
Proof.
  intros L. destruct (lw_trace _ L m) as (b & Hb & _). simpl.
  rewrite after_snoc, Hb. simpl. by rewrite Nat.eqb_refl.
Qed.

(** [Lock] finds the mutex free, installs a new future and returns. *)
Lemma lw_acquire (t : task_id) (m : mutex_id) (u : option ptr) (s : state) :
  LW s -> mutexes s !! m = Some u -> pend_done s u ->
  LW (emit (EvAcquire t m)
        (set_mutexes (<[m := Some (length (heap s))]> (mutexes s))
                     (snd (NewFuture zero s)))).
Proof.
  intros [Lp Lc Lh Lt Li Lm Lmi Ltr] Hu Hfree.
  assert (Hm_lt : m < length (mutexes s)) by by eapply lookup_lt_Some.
  assert (Hrf_lt : forall p, is_rf s p -> p < length (heap s)).
  { intros p (t' & tk' & Htk' & <-). by apply (Lt t' tk'). }
  assert (Hpe : forall (s' : state) p, heap s' = heap s ++ [fresh_future zero] ->
            pending s p -> pending s' p).
  { intros s' p Hs' (f & Hf & Hd). exists f. rewrite Hs'. split; [|done].
    by apply lookup_app_l_Some. }
  assert (Hpd : forall (s' : state) o, heap s' = heap s ++ [fresh_future zero] ->
            pend_done s o -> pend_done s' o).
  { intros s' [p|] Hs'; [|done]. intros (f & Hf & Hd). exists f. rewrite Hs'.
    split; [|done]. by apply lookup_app_l_Some. }
  constructor; simpl; try done.
  - intros p f Hp. apply lookup_app_Some in Hp as [Hp|[_ Hp]]; [by eapply Lc|].
    destruct (p - length (heap s)); [|done]. by injection Hp as <-.
  - intros p f Hp Hd. apply lookup_app_Some in Hp as [Hp|[Hge Hp]]; [by apply Lh|].
    destruct (p - length (heap s)) eqn:Ed; [|done]. injection Hp as <-. right.
    split; [|done]. intros Hrf. apply Hrf_lt in Hrf. lia.
  - intros t' tk' Htk'. destruct (Lt t' tk' Htk') as (H1 & H2 & H3).
    unfold task_clause in *. simpl. rewrite ?length_app. cbn [length].
    split; [lia|]. split; [done|].
    destruct (coro tk').
    + destruct H3. split; [done|]. by apply Hpe.
    + destruct H3 as (? & ? & H3). split; [done|]. split; [by apply Hpe|].
      intros p Hp. destruct (H3 p Hp). split; [lia|done].
    + by apply Hpd.
    + by apply Hpd.
  - intros m' F HF. rewrite length_app. simpl.
    apply list_lookup_insert_Some in HF as [(_ & [= <-] & _)|(_ & HF)].
    + split; [lia|]. intros Hrf. apply Hrf_lt in Hrf. lia.
    + destruct (Lm m' F HF). split; [lia|done].
  - intros m1 m2 F H1 H2.
    apply list_lookup_insert_Some in H1 as [(<- & [= <-] & _)|(Hn1 & H1)];
      apply list_lookup_insert_Some in H2 as [(<- & E2 & _)|(Hn2 & H2)]; try done.
    + destruct (Lm m2 _ H2). lia.
    + injection E2 as <-. destruct (Lm m1 _ H1). lia.
    + by apply (Lmi m1 m2 F).
  - intros m'. destruct (Ltr m') as (b & Hb & Hheld). rewrite after_snoc, Hb. simpl.
    destruct (Nat.eqb_spec m m') as [<-|Hne].
    + assert (b = false) as ->.
      { destruct b; [|done]. destruct (Hheld eq_refl) as (F & f & HF & Hf & Hd).
        rewrite Hu in HF. injection HF as ->. destruct Hfree as (f' & Hf' & Hd').
        congruence. }
      exists true. split; [done|]. intros _.
      exists (length (heap s)), (fresh_future zero). split.
      * by apply list_lookup_insert_eq.
      * split; [|done]. simpl. rewrite lookup_app_r by done. by rewrite Nat.sub_diag.
    + exists b. split; [done|]. intros Hbt.
      destruct (Hheld Hbt) as (F & f & HF & Hf & Hd). exists F, f. simpl.
      split; [by rewrite list_lookup_insert_ne|]. split; [|done].
      by apply lookup_app_l_Some.
Qed.

Local Abbreviation none_t := (fun _ : task_id => False).
Local Abbreviation none_p := (fun _ : ptr => False).

Lemma SetResult_done_eq (n : nat) (p : ptr) (f : Future) (v : V) (e : error)
  (s s' : state) :
  heap s !! p = Some f -> done f = true -> SetResult zero n p v e s = Done s' -> s' = s.
Proof.
  intros Hf Hd H. destruct n as [|n]; [done|]. rewrite SetResult_S in H.
  rewrite (get_fut_Some p f s Hf) in H. cbn [bind] in H. rewrite Hd in H. by injection H.
Qed.

Lemma is_rf_upd_task (t : task_id) (g : Task -> Task) (p : ptr) (s : state) :
  (forall tk, resultFut (g tk) = resultFut tk) ->
  is_rf (upd_task t g s) p <-> is_rf s p.
Proof.
  intros Hrf. split.
  - intros (t' & tk' & Htk' & <-).
    destruct (upd_task_origin t t' g tk' s Hrf Htk') as (tk0 & ? & ? & _). by exists t', tk0.
  - intros (t' & tk0 & Htk0 & <-). unfold is_rf. setoid_rewrite upd_task_lookup.
    destruct (decide (t = t')) as [<-|Hne].
    + exists t, (g tk0). rewrite decide_True by done. by rewrite Htk0, Hrf.
    + exists t', tk0. by rewrite decide_False.
Qed.

(** A task that has not returned is not cancelled. *)
Lemma Cause_None (t : task_id) (tk : Task) (s s0 : state) :
  LW s -> tasks s !! t = Some tk -> pending s (resultFut tk) ->
  parent_cause s0 = parent_cause s -> Cause tk s0 = None.
Proof.
  intros L Htk (f & Hf & Hd) Hp. unfold Cause. rewrite Hp, (lw_parent _ L).
  destruct (lw_heap _ L _ f Hf Hd) as [(t' & tk' & Htk' & Hrf & _ & Hca)|(Hn & _)].
  - assert (t' = t) as -> by by eapply (lw_rf_inj _ L).
    rewrite Htk in Htk'. injection Htk' as <-. by rewrite Hca.
  - exfalso. apply Hn. by exists t, tk.
Qed.

Lemma frame_drop_ex (t : task_id) (spare : ptr -> Prop) (s s' : state) :
  (forall tk, tasks s !! t = Some tk -> coro tk <> CoRunning) ->
  frame (fun t' => t' = t) spare s s' -> frame none_t spare s s'.
Proof.
  intros Hnr H t' tk Htk Hco _. apply (H t' tk Htk Hco). intros ->. by apply (Hnr tk).
Qed.

(** Completing the result future of task [t] spares the other tasks'. *)
Lemma frame_spare_rf (t : task_id) (tk : Task) (s s' : state) :
  LW s -> tasks s !! t = Some tk ->
  frame none_t (fun q => q = resultFut tk) s s' ->
  frame (fun t' => t' = t) none_p s s'.
Proof.
  intros L Htk H t' tk' Htk' Hco Hne.
  destruct (H t' tk' Htk' Hco) as (tk2 & ? & ? & ? & Hp); [tauto|].
  exists tk2. split; [done|]. split; [done|]. split; [done|]. intros _. apply Hp.
  intros Heq. apply Hne. by eapply (lw_rf_inj _ L).
Qed.

(** Completing a future that is no result future spares them all. *)
Lemma frame_spare_other (ex : task_id -> Prop) (F : ptr) (s s' : state) :
  ~ is_rf s F -> frame ex (fun q => q = F) s s' -> frame ex none_p s s'.
Proof.
  intros Hn H t tk Htk Hco Hex.
  destruct (H t tk Htk Hco Hex) as (tk2 & ? & ? & ? & Hp).
  exists tk2. split; [done|]. split; [done|]. split; [done|]. intros _. apply Hp.
  intros Heq. apply Hn. by exists t, tk.
Qed.

Lemma running_frame (ex : task_id -> Prop) (t : task_id) (s s' : state) :
  running s t -> ~ ex t -> frame ex none_p s s' -> running s' t.
Proof.
  intros (tk & Htk & Hco & Hp) Hex H.
  destruct (H t tk Htk Hco Hex) as (tk' & ? & ? & Hrf & Hpe).
  exists tk'. rewrite Hrf. split; [done|]. split; [done|]. apply Hpe; [tauto|done].
Qed.

Lemma running_same (t : task_id) (s s' : state) :
  heap s' = heap s -> tasks s' = tasks s -> running s t -> running s' t.
Proof.
  intros Hh Ht (tk & ? & ? & ?). exists tk. unfold pending. by rewrite Hh, Ht.
Qed.

Lemma foldM_steps (n : nat) (v : V) (e : error) (l : list callback) :
  ls_invoke zero n ->
  forall s s', LW s -> forallb is_step l = true ->
    foldM (fun cb => invoke zero n cb v e) l s = Done s' ->
    LW s' /\ frame none_t none_p s s'.
Proof.
  intros IH. induction l as [|cb l IHl]; intros s s' L Hl H; simpl in *.
  - injection H as <-. split; [done|apply frame_refl].
  - apply andb_true_iff in Hl as [Hcb Hl]. inv_bind H.
    assert (Hpre : cb_pre s cb) by by destruct cb as [|[]| |].
    destruct (IH cb v e s a L Hpre E) as (L1 & F1).
    destruct (IHl a s' L1 Hl H) as (L2 & F2).
    split; [done|]. by eapply frame_trans.
Qed.

Lemma task_clause_running (tk : Task) (s : state) :
  coro tk = CoRunning -> task_clause s tk -> pend_done s (pendingFut tk).
Proof. unfold task_clause. by intros ->. Qed.

Lemma ls_SetResult_step (n : nat) : lock_spec zero n -> ls_SetResult zero (S n).
Proof.
  intros (_ & IHinv & _) p v e s s' L Hpre H. rewrite SetResult_S in H.
  inv_bind H. inv_get E. rename a into f. destruct (done f) eqn:Hd.
  - injection H as <-. split; [done|apply frame_refl].
  - pose proof (lw_mark_done p f v e s L E Hd Hpre) as LM.
    pose proof (frame_upd_fut none_t p f (mark_done v e f) s E) as FM.
    assert (Hpend : pending s p) by by exists f.
    destruct (Hpre Hpend) as (_ & Hrun).
    destruct (lw_heap _ L p f E Hd) as [(t & tk & Htk & Hrf & Hcbs & _)|(_ & Hcbs)].
    + rewrite Hcbs in H. cbn [foldM] in H. inv_bind H. injection H as <-.
      assert (Hcb : cb_pre (upd_fut p (mark_done v e f) s) (CbDone (DcTaskDone t))).
      { exists tk. split; [done|]. split.
        - apply (pend_done_upd_fut p f); [done|done|].
          apply task_clause_running; [by eapply Hrun|]. by apply (lw_task _ L t).
        - rewrite Hrf. intros (g & Hg & Hgd).
          rewrite (upd_fut_lookup p p f _ s E), decide_True in Hg by done.
          injection Hg as <-. done. }
      destruct (IHinv _ v e _ _ LM Hcb E0) as (L1 & F1).
      split; [done|]. eapply frame_trans; [exact FM|].
      by apply (frame_weaken none_t none_t none_p (fun q => q = p) _ _).
    + destruct (foldM_steps n v e (callbacks f) IHinv _ _ LM Hcbs H) as (L1 & F1).
      split; [done|]. eapply frame_trans; [exact FM|].
      by apply (frame_weaken none_t none_t none_p (fun q => q = p) _ _).
Qed.

Lemma ls_invoke_step (n : nat) : lock_spec zero n -> ls_invoke zero (S n).
Proof.
  intros (_ & _ & IHd & _) cb v e s s' L Hpre H. rewrite invoke_S in H.
  destruct cb as [|d| |]; try done. by eapply IHd.
Qed.

Lemma task_clause_with_cause (e : error) (tk : Task) (s : state) :
  task_clause s (with_cause e tk) = task_clause s tk.
Proof. done. Qed.

Lemma ls_invoke_done_step (n : nat) : lock_spec zero n -> ls_invoke_done zero (S n).
Proof.
  intros (_ & _ & _ & _ & IHstep & _) d e s s' L Hpre H. simpl in H.
  destruct d as [|t|t|]; try done; [|by eapply IHstep].
  destruct Hpre as (tk & Htk & Hpf & Hnp).
  unfold get_task in H. rewrite Htk in H. cbn [of_option bind] in H.
  inv_bind H. injection H as <-.
  assert (a = s) as ->.
  { destruct (pendingFut tk) as [p|]; [|by injection E].
    destruct Hpf as (f & Hf & Hd). by eapply SetResult_done_eq. }
  unfold task_cancel. rewrite Htk. destruct (Cause tk s).
  - split; [done|apply frame_refl].
  - split; [|by apply frame_upd_task_keep].
    apply lw_upd_task; [done|done|]. intros tk0 Htk0.
    rewrite Htk in Htk0. injection Htk0 as <-.
    split; [by right|]. rewrite task_clause_with_cause. cbn [with_cause coro].
    destruct (lw_task _ L t tk Htk) as (_ & ? & ?). done.
Qed.

Lemma ls_AddResultCallback_step (n : nat) :
  lock_spec zero n -> ls_AddResultCallback zero (S n).
Proof.
  intros (_ & IHinv & _) p t s s' L Hp Hn H. rewrite AddResultCallback_S in H.
  inv_bind H. inv_get E. rename a into f. destruct (done f) eqn:Hd.
  - exact (IHinv (CbDone (DcStep t)) _ _ _ _ L I H).
  - injection H as <-. split; [by apply lw_push_step|].
    by eapply frame_upd_fut_pending.
Qed.

Lemma fixup_self (t : task_id) (r : option (option ptr)) (tk : Task) (s : state) :
  tasks (fixup t r s) !! t = Some tk -> pendingFut tk = default None r.
Proof.
  unfold fixup. rewrite upd_task_lookup, decide_True by done.
  destruct (tasks s !! t); [|done]. by intros [= <-].
Qed.

Lemma with_pendingFut_same (tk : @Task V) :
  with_pendingFut (pendingFut tk) tk = tk.
Proof. by destruct tk. Qed.

Lemma ls_Step_step (n : nat) : lock_spec zero n -> ls_Step zero (S n).
Proof.
  intros (_ & _ & _ & IHadd & _ & IHnext & _) t s s' L H. simpl in H.
  inv_bind H. destruct a as [sN r]. simpl in H.
  assert (L0 : LW (set_currentTasks (currentTasks s ++ [t]) s)) by by apply (lw_same s).
  destruct (IHnext _ _ _ L0 E) as (L1 & F1 & Hy). simpl in L1, F1, Hy.
  change (upd_task t (with_pendingFut (default None r)) sN) with (fixup t r sN) in H.
  set (s1 := fixup t r sN) in *.
  destruct (negb (bool_decide (last (currentTasks s1) = Some t))); [done|].
  set (s2 := set_currentTasks (currentTasks s) s1) in *.
  assert (L2 : LW s2) by by apply (lw_same s1).
  assert (F2 : frame none_t none_p s s2).
  { eapply frame_trans; [|eapply frame_trans; [exact F1|]].
    - by apply frame_same_tasks.
    - eapply frame_trans; [|apply (frame_same_tasks _ _ s1 s2); done].
      by apply frame_upd_task_keep. }
  destruct r as [[p|]|].
  - destruct (Hy p eq_refl) as (Hp & Hn).
    destruct (IHadd p t s2 s' L2 Hp Hn H) as (L3 & F3).
    split; [done|by eapply frame_trans].
  - injection H as <-. split; [by apply (lw_same s2)|].
    eapply frame_trans; [exact F2|]. by apply frame_same_tasks.
  - injection H as <-. split.
    + apply lw_upd_task; [done|done|]. intros tk Htk.
      pose proof (fixup_self t None tk sN Htk) as Hpf. simpl in Hpf.
      rewrite <- Hpf, with_pendingFut_same. split; [by left|].
      by destruct (lw_task _ L2 t tk Htk) as (_ & ? & ?).
    + eapply frame_trans; [exact F2|]. by apply frame_upd_task_keep.
Qed.

(** A task that is resumed finds the future it awaited complete: there
    is no context, so [Result] (line 71) would not return. *)
Lemma resumed_pend_done (n : nat) (t : task_id) (fut : option ptr) (k : prog)
  (s : state) (r : state * option (option ptr)) :
  (forall p f, heap s !! p = Some f -> ctx f = None) ->
  resumed zero n t None fut k s = Done r -> pend_done s fut.
Proof.
  intros Hctx H. destruct fut as [p|]; [|done]. destruct n as [|n]; [done|].
  simpl in H. inv_bind H. unfold Result in E. inv_bind E. inv_get E0.
  exists a0. split; [done|]. destruct (done a0); [done|].
  by rewrite (Hctx p a0 E0) in E.
Qed.

Lemma ls_resumed_step (n : nat) : lock_spec zero n -> ls_resumed zero (S n).
Proof.
  intros (_ & _ & _ & _ & _ & _ & _ & IHrun & _) t yerr fut k s r L Hr Hk -> Hpd H.
  simpl in H. destruct fut as [p|]; [|exact (IHrun t k s r L Hr Hk H)].
  inv_bind H. destruct (snd a) as [e|].
  - exact (IHrun t (PRet zero (Some e)) s r L Hr eq_refl H).
  - exact (IHrun t k s r L Hr Hk H).
Qed.

Lemma heap_upd_task (t : task_id) (g : Task -> Task) (s : state) :
  heap (upd_task t g s) = heap s.
Proof. by destruct (upd_task_fields t g s) as (-> & _). Qed.

Lemma parent_upd_task (t : task_id) (g : Task -> Task) (s : state) :
  parent_cause (upd_task t g s) = parent_cause s.
Proof. by destruct (upd_task_fields t g s) as (_ & _ & _ & _ & _ & -> & _). Qed.

Lemma pending_same (p : ptr) (s s' : state) :
  heap s' = heap s -> pending s p -> pending s' p.
Proof. unfold pending. by intros ->. Qed.

Lemma pend_done_same (o : option ptr) (s s' : state) :
  heap s' = heap s -> pend_done s o -> pend_done s' o.
Proof. unfold pend_done. by intros ->. Qed.

(** The task [t] just set to run, on a store that has its heap from [s]. *)
Lemma running_started (t : task_id) (tk : Task) (s s0 : state) :
  tasks s !! t = Some tk -> pending s (resultFut tk) ->
  heap s0 = heap s -> tasks s0 = tasks (upd_task t (with_coro CoRunning) s) ->
  running s0 t.
Proof.
  intros Htk Hp Hh Ht. exists (with_coro CoRunning tk).
  rewrite Ht, upd_task_lookup, decide_True, Htk by done.
  split; [done|]. split; [done|]. by apply (pending_same _ s).
Qed.

Lemma ls_next_step (n : nat) : lock_spec zero n -> ls_next zero (S n).
Proof.
  intros (_ & _ & _ & _ & _ & _ & IHres & IHrun & _) t s r L H. simpl in H.
  inv_bind H. inv_get E. rename a into tk.
  destruct (lw_task _ L t tk E) as (Hlen & Hlc & Hcl). unfold task_clause in Hcl.
  assert (Hnr : coro tk <> CoRunning ->
                forall tk0, tasks s !! t = Some tk0 -> coro tk0 <> CoRunning).
  { intros Hne tk0. rewrite E. by intros [= <-]. }
  assert (Lrun : pend_done s (pendingFut tk) ->
                 LW (upd_task t (with_coro CoRunning) s)).
  { intros Hpd. apply lw_upd_task; [done|done|]. intros tk0 Htk0.
    rewrite E in Htk0. injection Htk0 as <-. split; [by left|]. by split. }
  destruct (coro tk) as [body|fut k| |] eqn:Hco; [| |done|].
  - destruct Hcl as (Hpf & Hpend).
    set (s0 := upd_task t (with_coro CoRunning) s) in *.
    assert (L0 : LW (emit (EvStart t) s0)).
    { apply lw_emit_other; [|done]. apply Lrun. by rewrite Hpf. }
    assert (Hr : running (emit (EvStart t) s0) t).
    { apply (running_started t tk s); [done|done| |done]. apply heap_upd_task. }
    destruct (IHrun t body _ r L0 Hr Hlc H) as (L1 & F1 & Hy).
    split; [done|]. split; [|done].
    apply (frame_drop_ex t); [by apply Hnr|].
    eapply frame_trans; [apply (frame_upd_task t (with_coro CoRunning))|].
    eapply frame_trans; [|exact F1]. by apply frame_same_tasks.
  - destruct Hcl as (Hpf & Hpend & Hfut).
    set (s0 := upd_task t (with_coro CoRunning) s) in *.
    rewrite (Cause_None t tk s s0 L E Hpend (parent_upd_task _ _ _)) in H.
    assert (Hpd : pend_done s0 fut).
    { apply (resumed_pend_done n t fut k s0 r); [|done].
      unfold s0. rewrite heap_upd_task. apply (lw_ctx _ L). }
    assert (L0 : LW s0).
    { apply Lrun. rewrite Hpf. apply (pend_done_same _ s0); [|done].
      symmetry. apply heap_upd_task. }
    assert (Hr : running s0 t).
    { apply (running_started t tk s); [done|done| |done]. apply heap_upd_task. }
    destruct (IHres t None fut k s0 r L0 Hr Hlc eq_refl Hpd H) as (L1 & F1 & Hy).
    split; [done|]. split; [|done].
    apply (frame_drop_ex t); [by apply Hnr|].
    eapply frame_trans; [apply (frame_upd_task t (with_coro CoRunning))|exact F1].
  - injection H as <-. simpl. split; [|split; [apply frame_refl|done]].
    apply lw_upd_task; [done|done|]. intros tk0 Htk0.
    rewrite E in Htk0. injection Htk0 as <-. split; [by left|].
    unfold task_clause. cbn [with_pendingFut coro]. by rewrite Hco.
Qed.

Lemma ls_Yield_step (n : nat) : lock_spec zero n -> ls_Yield zero (S n).
Proof.
  intros _ t fut k s r L (tk & Htk & Hco & Hpend) Hk Hfut H. simpl in H.
  destruct (negb (bool_decide (last (currentTasks s) = Some t))); [done|].
  unfold get_task in H. rewrite Htk in H. cbn [of_option bind] in H.
  rewrite (Cause_None t tk s s L Htk Hpend eq_refl) in H. injection H as <-.
  cbn [fst snd]. unfold fixup. rewrite upd_task_twice.
  change (default None (Some fut)) with fut.
  set (g := fun tk0 : Task => with_pendingFut fut (with_coro (CoSuspended fut k) tk0)).
  assert (Hg : forall tk0 : Task, resultFut (g tk0) = resultFut tk0) by done.
  split; [|split].
  - apply lw_upd_task; [done|done|]. intros tk0 Htk0.
    rewrite Htk in Htk0. injection Htk0 as <-. split; [by left|]. split; [done|].
    unfold task_clause. cbn. split; [done|]. split; [done|]. done.
  - apply frame_upd_task.
  - intros p [= ->]. rewrite heap_upd_task, (is_rf_upd_task t g p s Hg). by apply Hfut.
Qed.

Lemma frame_grow (ex : task_id -> Prop) (spare : ptr -> Prop) (l : list Future)
  (s s' : state) :
  heap s' = heap s ++ l -> tasks s' = tasks s -> frame ex spare s s'.
Proof.
  intros Hh Ht t tk Htk Hco _. exists tk. rewrite Ht.
  split; [done|]. split; [done|]. split; [done|].
  intros _ (f & Hf & Hd). exists f. rewrite Hh. split; [|done]. by apply lookup_app_l_Some.
Qed.

Lemma ls_run_ret (n : nat) (t : task_id) (v : V) (e : error) (s : state)
  (r : state * option (option ptr)) :
  ls_SetResult zero n -> LW s -> running s t ->
  run zero (S n) t (PRet v e) s = Done r ->
  LW (fixup t (snd r) (fst r)) /\ frame (fun t' => t' = t) none_p s (fst r) /\
  yields_ok (fixup t (snd r) (fst r)) (snd r).
Proof.
  intros IHset L (tk & Htk & Hco & Hpend) H. simpl in H.
  unfold get_task in H. rewrite Htk in H. cbn [of_option bind] in H.
  inv_bind H. injection H as <-. rename a into s1.
  assert (Hpre : pre_set s (resultFut tk)).
  { intros _. split.
    - intros m Hm. destruct (lw_mutex _ L m _ Hm) as (_ & Hn).
      exfalso. apply Hn. by exists t, tk.
    - intros t' tk' Htk' Heq.
      assert (t' = t) as -> by by eapply (lw_rf_inj _ L).
      rewrite Htk in Htk'. by injection Htk' as <-. }
  destruct (IHset _ v e s s1 L Hpre E) as (L1 & F1).
  cbn [fst snd]. unfold fixup. rewrite upd_task_twice.
  split; [|split; [|done]].
  - apply lw_upd_task; [done|done|]. intros tk1 Htk1. split; [by left|]. by split.
  - eapply frame_trans; [apply (frame_spare_rf t tk s s1 L Htk F1)|apply frame_upd_task].
Qed.

Lemma ls_run_lock (n : nat) (t : task_id) (m : mutex_id) (k : prog) (s : state)
  (r : state * option (option ptr)) :
  ls_run zero n -> ls_Yield zero n -> LW s -> running s t -> lock_prog k = true ->
  run zero (S n) t (PLock m k) s = Done r ->
  LW (fixup t (snd r) (fst r)) /\ frame (fun t' => t' = t) none_p s (fst r) /\
  yields_ok (fixup t (snd r) (fst r)) (snd r).
Proof.
  intros IHrun IHy L Hr Hk H. simpl in H.
  inv_bind H. inv_get E. rename a into u. inv_bind H. destruct a.
  - apply (IHy t u (PLock m k) s r L Hr Hk); [|done].
    intros p ->. by apply (lw_mutex _ L m).
  - assert (Hpd : pend_done s u).
    { destruct u as [F|]; [|done]. inv_bind E0.
      apply HasResult_Done in E1 as (f & Hf & Hd). exists f. split; [done|].
      destruct a; [done|]. by injection E0. }
    pose proof (lw_acquire t m u s L E Hpd) as LA.
    cbn [NewFuture snd] in LA.
    set (sA := emit (EvAcquire t m) _) in *.
    assert (FA : frame (fun t' => t' = t) none_p s sA) by by apply (frame_grow _ _ [fresh_future zero]).
    assert (Hr' : running sA t) by (apply (running_frame (fun _ => False) t s); [done|tauto|
      by apply (frame_grow _ _ [fresh_future zero])]).
    destruct (IHrun t k sA r LA Hr' Hk H) as (L1 & F1 & Hy).
    split; [done|]. split; [|done]. by eapply frame_trans.
Qed.

Lemma ls_run_unlock (n : nat) (t : task_id) (m : mutex_id) (k : prog) (s : state)
  (r : state * option (option ptr)) :
  ls_SetResult zero n -> ls_run zero n -> LW s -> running s t -> lock_prog k = true ->
  run zero (S n) t (PUnlock m k) s = Done r ->
  LW (fixup t (snd r) (fst r)) /\ frame (fun t' => t' = t) none_p s (fst r) /\
  yields_ok (fixup t (snd r) (fst r)) (snd r).
Proof.
  intros IHset IHrun L Hr Hk H. simpl in H.
  set (s0 := emit (EvUnlock t m) s) in *.
  assert (L0 : LW s0) by by apply lw_emit_other.
  assert (Hr0 : running s0 t) by by apply (running_same t s).
  inv_bind H. inv_get E. rename a into u. inv_bind H. rename a into s1.
  assert (H1 : LW s1 /\ frame none_t none_p s0 s1).
  { destruct u as [F|]; [|injection E0 as <-; split; [done|apply frame_refl]].
    destruct (lw_mutex _ L0 m F E) as (_ & Hn).
    assert (Hpre : pre_set s0 F).
    { intros _. split.
      - intros m' Hm'. assert (m' = m) as -> by by eapply (lw_mutex_inj _ L0).
        by apply after_emit_unlock.
      - intros t' tk' Htk' Heq. exfalso. apply Hn. by exists t', tk'. }
    destruct (IHset F zero None s0 s1 L0 Hpre E0) as (L1 & F1).
    split; [done|]. by apply (frame_spare_other _ F). }
  destruct H1 as (L1 & F1).
  assert (Hr1 : running s1 t) by (apply (running_frame none_t t s0); [done|tauto|done]).
  destruct (IHrun t k s1 r L1 Hr1 Hk H) as (L2 & F2 & Hy).
  split; [done|]. split; [|done].
  eapply frame_trans; [apply (frame_same_tasks _ _ s s0); done|].
  eapply frame_trans; [|exact F2].
  by apply (frame_weaken none_t _ none_p none_p _ _).
Qed.

Lemma ls_run_step (n : nat) : lock_spec zero n -> ls_run zero (S n).
Proof.
  intros (IHset & _ & _ & _ & _ & _ & _ & IHrun & IHy) t k s r L Hr Hk H.
  destruct k as [v e|tag k|f k|k|m k|m k]; [| |done| | |].
  - by apply (ls_run_ret n t v e s r).
  - simpl in H, Hk.
    assert (L0 : LW (emit (EvMark t tag) s)) by by apply lw_emit_other.
    assert (Hr0 : running (emit (EvMark t tag) s) t) by by apply (running_same t s).
    destruct (IHrun t k _ r L0 Hr0 Hk H) as (L1 & F1 & Hy).
    split; [done|]. split; [|done].
    eapply frame_trans; [|exact F1]. by apply frame_same_tasks.
  - simpl in H, Hk. by apply (IHy t None k s r L Hr Hk).
  - by apply (ls_run_lock n t m k s r).
  - by apply (ls_run_unlock n t m k s r).
Qed.

Lemma lock_ok (n : nat) : lock_spec zero n.
Proof.
  induction n as [|n IH].
  - unfold lock_spec.
    split; [|split; [|split; [|split; [|split; [|split; [|split; [|split]]]]]]];
      repeat intro; discriminate.
  - split; [by apply ls_SetResult_step|]. split; [by apply ls_invoke_step|].
    split; [by apply ls_invoke_done_step|]. split; [by apply ls_AddResultCallback_step|].
    split; [by apply ls_Step_step|]. split; [by apply ls_next_step|].
    split; [by apply ls_resumed_step|]. split; [by apply ls_run_step|].
    by apply ls_Yield_step.
Qed.

Lemma Step_lock_world (n : nat) (t : task_id) (s s' : state) :
  LW s -> Step zero n t s = Done s' -> LW s'.
Proof.
  intros L H. destruct (lock_ok n) as (_ & _ & _ & _ & IH & _).
  by destruct (IH t s s' L H).
Qed.

(** A store that gets one more task: what [SpawnTask] leaves. *)
Lemma lw_spawn (body : prog) (g : Future) (s s' : state) :
  LW s -> lock_prog body = true ->
  ctx g = None -> done g = false ->
  callbacks g = [CbDone (DcTaskDone (length (tasks s)))] ->
  heap s' = heap s ++ [g] ->
  tasks s' = tasks s ++ [new_task body (length (heap s))] ->
  mutexes s' = mutexes s -> trace s' = trace s -> parent_cause s' = parent_cause s ->
  LW s'.
Proof.
  intros [Lp Lc Lh Lt Li Lm Lmi Ltr] Hbody Hgc Hgd Hgcb Hh Ht Hm Htr Hp.
  assert (Hrf : forall p, is_rf s' p -> is_rf s p \/ p = length (heap s)).
  { intros p (t & tk & Htk & <-). rewrite Ht in Htk.
    apply lookup_snoc_Some in Htk as [(_ & Htk)|(_ & <-)]; [left|by right].
    by exists t, tk. }
  assert (Hold : forall p, p < length (heap s) -> ~ is_rf s p -> ~ is_rf s' p).
  { intros p Hlt Hn Hi. destruct (Hrf p Hi); [done|lia]. }
  assert (Hpe : forall p, pending s p -> pending s' p).
  { intros p (f & Hf & Hd). exists f. rewrite Hh. split; [|done]. by apply lookup_app_l_Some. }
  assert (Hpd : forall o, pend_done s o -> pend_done s' o).
  { intros [p|]; [|done]. intros (f & Hf & Hd). exists f. rewrite Hh.
    split; [|done]. by apply lookup_app_l_Some. }
  assert (Hlen : length (heap s') = S (length (heap s))).
  { rewrite Hh, length_app. simpl. lia. }
  constructor; rewrite ?Hm, ?Htr, ?Hp; try done.
  - intros p f Hf. rewrite Hh in Hf.
    apply lookup_snoc_Some in Hf as [(_ & Hf)|(_ & <-)]; [by eapply Lc|done].
  - intros p f Hf Hd. rewrite Hh in Hf.
    apply lookup_snoc_Some in Hf as [(Hlt & Hf)|(-> & <-)].
    + destruct (Lh p f Hf Hd) as [(t & tk & Htk & ? & ? & ?)|(Hn & ?)].
      * left. exists t, tk. rewrite Ht. split; [by apply lookup_app_l_Some|done].
      * right. split; [by apply Hold|done].
    + left. exists (length (tasks s)), (new_task body (length (heap s))).
      rewrite Ht, lookup_app_r, Nat.sub_diag by done. done.
  - intros t tk Htk. rewrite Ht in Htk. rewrite Hlen.
    apply lookup_snoc_Some in Htk as [(_ & Htk)|(_ & <-)].
    + destruct (Lt t tk Htk) as (H1 & H2 & H3). split; [lia|]. split; [done|].
      unfold task_clause in *. destruct (coro tk).
      * destruct H3. auto.
      * destruct H3 as (? & ? & H3). split; [done|]. split; [auto|].
        intros p Hfp. destruct (H3 p Hfp). split; [lia|]. by apply Hold.
      * auto.
      * auto.
    + split; [simpl; lia|]. split; [done|]. split; [done|].
      exists g. rewrite Hh, lookup_app_r, Nat.sub_diag by done. done.
  - intros t t' tk tk' Htk Htk' Heq. rewrite Ht in Htk, Htk'.
    apply lookup_snoc_Some in Htk as [(_ & Htk)|(-> & <-)];
      apply lookup_snoc_Some in Htk' as [(_ & Htk')|(-> & <-)].
    + by eapply Li.
    + destruct (Lt t tk Htk) as (Hlt & _). simpl in Heq. lia.
    + destruct (Lt t' tk' Htk') as (Hlt & _). simpl in Heq. lia.
    + done.
  - intros m F HF. destruct (Lm m F HF). rewrite Hlen. split; [lia|]. by apply Hold.
  - intros m. destruct (Ltr m) as (b & ? & Hheld). exists b. split; [done|].
    intros Hb. destruct (Hheld Hb) as (F & f & ? & ? & ?). exists F, f.
    rewrite Hm, Hh. split; [done|]. split; [by apply lookup_app_l_Some|done].
Qed.

Lemma SpawnTask_lock_world (n : nat) (body : prog) (s : state) (r : task_id * state) :
  LW s -> lock_prog body = true -> SpawnTask zero n body s = Done r -> LW (snd r).
Proof.
  intros L Hb H. destruct n as [|n]; [done|].
  rewrite SpawnTask_spawned in H. injection H as <-. cbn [snd].
  apply (lw_spawn body
           (push_callback (CbDone (DcTaskDone (length (tasks s)))) (fresh_future zero)) s);
    try done.
  unfold spawned, RunCallback, ScheduleCallback, upd_fut. cbn.
  rewrite insert_app_r_alt by done. by rewrite Nat.sub_diag.
Qed.

Lemma run_loop_callback_lock_world (n : nat) (lc : loop_callback) (s s' : state) :
  LW s -> run_loop_callback zero n lc s = Done s' -> LW s'.
Proof.
  intros L H. destruct lc as [tag|t|t]; simpl in H.
  - injection H as <-. by apply lw_emit_other.
  - inv_bind H. inv_get E. rename a into tk. inv_bind H.
    apply HasResult_Done in E0 as (f & Hf & Hd). destruct a.
    + by injection H as <-.
    + rewrite (Cause_None t tk s s L E) in H; [|by exists f|done].
      by eapply Step_lock_world.
  - by eapply Step_lock_world.
Qed.

Lemma RunFirst_lock_world (n : nat) (s s' : state) :
  LW s -> RunFirst zero n s = Done s' -> LW s'.
Proof.
  intros L H. unfold RunFirst in H. destruct (pendingCallbacks s) as [|c q]; [done|].
  eapply run_loop_callback_lock_world; [|exact H]. by apply (lw_same s).
Qed.

Lemma runReadyCallbacks_lock_world (n : nat) (s s' : state) :
  LW s -> runReadyCallbacks zero n s = Done s' -> LW s'.
Proof.
  revert s s'. induction n as [|n IH]; intros s s' L H; [done|]. simpl in H.
  destruct (parent_cause s); [by injection H as <-|].
  destruct (pendingCallbacks s) as [|c q] eqn:Eq; [by injection H as <-|].
  destruct (time_Until (when c) (now s) <=? 0)%Z; [|by injection H as <-].
  inv_bind H. apply (IH a s'); [|done]. by apply (RunFirst_lock_world n s).
Qed.

Lemma lw_new_mutex (s : state) : LW s -> LW (set_mutexes (mutexes s ++ [None]) s).
Proof.
  intros [Lp Lc Lh Lt Li Lm Lmi Ltr].
  assert (Hold : forall m F, (mutexes s ++ [None]) !! m = Some (Some F) ->
                             mutexes s !! m = Some (Some F)).
  { intros m F HF. by apply lookup_snoc_Some in HF as [(_ & HF)|(_ & ?)]. }
  constructor; try done.
  - intros m F HF. apply (Lm m). by apply Hold.
  - intros m m' F HF HF'. apply (Lmi m m' F); by apply Hold.
  - intros m. destruct (Ltr m) as (b & ? & Hheld). exists b. split; [done|].
    intros Hb. destruct (Hheld Hb) as (F & f & ? & ? & ?). exists F, f.
    split; [|done]. cbn. by apply lookup_app_l_Some.
Qed.

Lemma lw_empty : LW (empty_state).
Proof.
  constructor; try done.
  intros m. exists false. split; [done|]. intros [=].
Qed.

Lemma exec_lock_world (n : nat) (o : op) (s s' : state) :
  LW s -> lock_op o = true -> exec zero n o s = Done s' -> LW s'.
Proof.
  intros L Ho H. destruct o; try done; simpl in H.
  - inv_bind H. injection H as <-. by apply (SpawnTask_lock_world n body s).
  - injection H as <-. by apply lw_new_mutex.
  - by apply (runReadyCallbacks_lock_world n s).
  - injection H as <-. by apply (lw_same s).
Qed.

Lemma exec_all_lock_world (n : nat) (os : list op) (s s' : state) :
  LW s -> forallb lock_op os = true -> exec_all zero n os s = Done s' -> LW s'.
Proof.
  unfold exec_all. revert s. induction os as [|o os IH]; intros s L Ho H; simpl in *.
  - by injection H as <-.
  - apply andb_true_iff in Ho as [Ho Hos]. inv_bind H.
    apply (IH a); [|done|done]. by apply (exec_lock_world n o s).
Qed.

(** [Unlock] of a mutex that was never locked (line 830: [unlockFut] is
    nil) leaves the store as it is. *)
Lemma Unlock_never_locked (n : nat) (m : mutex_id) (s : state) :
  mutexes s !! m = Some None -> Unlock zero n m s = Done s.
Proof. intros Hm. unfold Unlock, get_mutex. by rewrite Hm. Qed.

(** X14: as long as no task is cancelled the mutex has one holder at a time:
    whatever tasks that lock, unlock and yield are spawned and however the
    loop runs them, the trace never shows a second [Lock] return before
    an [Unlock], and a mutex the trace shows as held has a pending unlock
    future. *)
Theorem Mutex_one_holder_while_nothing_is_cancelled (n : nat) (os : list op)
  (s : state) :
  forallb lock_op os = true ->
  exec_all zero n os empty_state = Done s ->
  forall m, exists b, after m (trace s) = Some b /\ (b = true -> held m s).
Proof.
  intros Ho H. apply (lw_trace s).
  by apply (exec_all_lock_world n os empty_state s lw_empty).
Qed.

End LockFacts.

(** ** Chunks and lines of a stream *)

Section ChunkFacts.

Import Stream.

Lemma errors_Is_Some (e : error) (target : err) :
  errors_Is e target = true -> exists x, e = Some x.
Proof. destruct e as [x|]; [by exists x|done]. Qed.

Lemma ReadChunk_loop_stop (n chunkSize : nat) (x : err) (a : AsyncStream) :
  ReadChunk_loop (S n) chunkSize (Some x) a = Done (Some x, a).
Proof. cbn [ReadChunk_loop]. by rewrite andb_false_r. Qed.

(** What the loop of [ReadChunk] leaves: the buffer has grown by bytes of
    the file, in order, and either holds [chunkSize] bytes or the file is
    at its end with everything in the buffer. *)
Lemma ReadChunk_loop_spec (chunkSize n : nat) :
  forall a input,
    stream_bytes (file a) = Some input -> S (weight (file a)) < n ->
    exists e a' got rest,
      ReadChunk_loop n chunkSize None a = Done (e, a') /\
      buffer a' = buffer a ++ got /\ input = got ++ rest /\
      ((e = None /\ chunkSize <= length (buffer a')) \/
       (errors_Is e EOF = true /\ rest = [] /\ 0 < chunkSize)).
Proof.
  induction n as [|n IH]; intros a input Hin Hfuel; [lia|].
  cbn [ReadChunk_loop]. destruct (length (buffer a) <? chunkSize) eqn:Hlt.
  - apply Nat.ltb_lt in Hlt. cbn [andb negb].
    assert (Hle : length (buffer a) <= chunkSize) by lia.
    destruct (read_loop_spec chunkSize (file a) (buffer a) input Hle Hin)
      as (got & e & f' & Hrl & Hlen & Hcase).
    rewrite (read_more chunkSize a _ _ _ Hlt Hrl).
    destruct Hcase as [(-> & Hw & Hw2 & rest & Hrest & ->)|(Heof & ->)].
    + assert (Hfuel' : S (weight f') < n) by lia.
      destruct (IH {| buffer := buffer a ++ got; file := f' |} rest Hrest Hfuel')
        as (e' & a' & got' & rest' & Hrun & Hbuf & -> & Hend).
      exists e', a', (got ++ got'), rest'. cbn [buffer] in Hbuf.
      split; [done|]. split; [by rewrite Hbuf, app_assoc|].
      split; [by rewrite app_assoc|done].
    + destruct (errors_Is_Some e EOF Heof) as (x & ->).
      destruct n as [|n]; [lia|]. rewrite ReadChunk_loop_stop.
      exists (Some x), {| buffer := buffer a ++ got; file := f' |}, got, [].
      split; [done|]. split; [done|]. split; [by rewrite app_nil_r|].
      right. split; [done|]. split; [done|lia].
  - apply Nat.ltb_ge in Hlt. cbn [andb]. exists None, a, [], input.
    split; [done|]. split; [by rewrite app_nil_r|]. split; [done|]. by left.
Qed.

Lemma take_min_length {A : Type} (k : nat) (l : list A) :
  take (Nat.min k (length l)) l = take k l.
Proof.
  destruct (Nat.le_gt_cases k (length l)) as [Hle|Hgt].
  - by rewrite Nat.min_l.
  - rewrite Nat.min_r by lia. rewrite !take_ge; [done|lia|done].
Qed.

(** X1: on a file that delivers [input] and then ends, [ReadChunk]
    returns: the first [chunkSize] bytes of what is buffered followed by
    [input], fewer when the file ends before, and no error; or no bytes
    and the end-of-file error when a chunk is asked for and there is no
    byte at all.  What it returns and what it leaves buffered are, in
    order, the bytes that were there. *)
Theorem ReadChunk_returns_chunk
  (chunkSize : nat) (a : AsyncStream) (input : list byte) (n : nat) :
  stream_bytes (file a) = Some input ->
  S (weight (file a)) < n ->
  exists out e a',
    ReadChunk n chunkSize a = Done (out, e, a') /\
    (out ++ buffer a') `prefix_of` (buffer a ++ input) /\
    match buffer a ++ input, chunkSize with
    | [], S _ => out = [] /\ errors_Is e EOF = true
    | _, _ => out = take chunkSize (buffer a ++ input) /\ e = None
    end.
Proof.
  intros Hin Hfuel.
  destruct (ReadChunk_loop_spec chunkSize n a input Hin Hfuel)
    as (e & a1 & got & rest & Hrun & Hbuf & -> & Hend).
  unfold ReadChunk. rewrite Hrun. cbn [bind].
  destruct Hend as [(-> & Hlen)|(Heof & -> & Hpos)].
  - cbn [negb orb consume]. eexists _, None, _. split; [reflexivity|].
    cbn [buffer]. rewrite take_drop, take_min_length, Hbuf. split.
    + exists rest. by rewrite <- app_assoc.
    + assert (Htake : take chunkSize (buffer a ++ got) =
                      take chunkSize (buffer a ++ got ++ rest)).
      { rewrite (app_assoc (buffer a)). rewrite (take_app_le _ rest); [done|].
        by rewrite <- Hbuf. }
      rewrite Hbuf, length_app in Hlen.
      destruct (buffer a ++ got ++ rest) as [|b all] eqn:Hall; [|done].
      destruct chunkSize as [|c]; [done|]. exfalso.
      apply (f_equal length) in Hall. rewrite !length_app in Hall. simpl in Hall. lia.
  - destruct (errors_Is_Some e EOF Heof) as (x & ->). rewrite app_nil_r.
    cbn [negb orb]. rewrite Heof. cbn [andb]. rewrite <- Hbuf.
    destruct (buffer a1) as [|b all] eqn:Hb1.
    + cbn. exists [], (Some x), a1. split; [done|]. rewrite Hb1.
      split; [done|]. by destruct chunkSize; [lia|].
    + cbn [length Nat.ltb Nat.leb consume]. eexists _, None, _. split; [reflexivity|].
      cbn [buffer]. rewrite take_drop, take_min_length, Hb1. done.
Qed.

(** X2: [read] with a buffer shorter than [maxBytes] appends to the
    buffer bytes the file delivers, in order, never takes it beyond
    [maxBytes] and returns its new length; when it returns no error the
    file still has the rest to deliver, and the only error it can return
    on a file that delivers [input] and then ends is the end of the file,
    with all of [input] in the buffer. *)
Theorem read_appends_what_the_file_delivers
  (maxBytes : nat) (a : AsyncStream) (input : list byte) :
  length (buffer a) < maxBytes ->
  stream_bytes (file a) = Some input ->
  exists got rest e a',
    read maxBytes a = (length (buffer a'), e, a') /\
    buffer a' = buffer a ++ got /\
    length (buffer a') <= maxBytes /\
    input = got ++ rest /\
    (e = None -> stream_bytes (file a') = Some rest) /\
    (e <> None -> errors_Is e EOF = true /\ rest = []).
Proof.
  intros Hlt Hin. assert (Hle : length (buffer a) <= maxBytes) by lia.
  destruct (read_loop_spec maxBytes (file a) (buffer a) input Hle Hin)
    as (got & e & f' & Hrl & Hlen & Hcase).
  rewrite (read_more maxBytes a _ _ _ Hlt Hrl).
  destruct Hcase as [(-> & _ & _ & rest & Hrest & ->)|(Heof & ->)].
  - exists got, rest, None, {| buffer := buffer a ++ got; file := f' |}.
    repeat split; try done.
  - exists got, [], e, {| buffer := buffer a ++ got; file := f' |}.
    split; [done|]. split; [done|]. split; [done|]. split; [by rewrite app_nil_r|].
    split; [|done]. intros ->. done.
Qed.

Lemma take_snoc_middle {A : Type} (l r : list A) (b : A) (k : nat) :
  k = length l + 1 -> take k (l ++ b :: r) = l ++ [b].
Proof.
  intros ->. rewrite (cons_middle b l r), app_assoc.
  apply take_app_length'. rewrite length_app. simpl. lia.
Qed.

(** The loop of [yieldLines] when [yield] collects: [pre] is what has been
    given to [yield], [cur] the bytes of the line that is being read. *)
Lemma yieldLines_loop_collect (data : list byte) :
  forall todo pre cur st,
    data = pre ++ cur ++ todo ->
    Forall (fun c => c <> x0a) cur ->
    (todo = [] -> cur = []) ->
    exists pieces,
      yieldLines_loop collect data (length pre) (length pre + length cur) todo st
      = (st ++ pieces, None) /\
      concat pieces = cur ++ todo /\
      forall k p, pieces !! k = Some p ->
        exists body b, p = body ++ [b] /\ Forall (fun c => c <> x0a) body /\
                       (S k < length pieces -> b = x0a).
Proof.
  induction todo as [|b todo IH]; intros pre cur st Hdata Hcur Hend.
  - exists []. rewrite (Hend eq_refl), app_nil_r. split; [done|]. split; [done|].
    intros k p Hk. by rewrite lookup_nil in Hk.
  - cbn [yieldLines_loop].
    assert (Hlen : length data = length pre + length cur + S (length todo)).
    { rewrite Hdata, !length_app. simpl. lia. }
    assert (Hpiece : take (length pre + length cur + 1 - length pre)
                          (drop (length pre) data) = cur ++ [b]).
    { rewrite Hdata, drop_app_length. apply take_snoc_middle. lia. }
    assert (Hyield : forall pieces',
              (forall k p, pieces' !! k = Some p ->
                 exists body c, p = body ++ [c] /\ Forall (fun c => c <> x0a) body /\
                                (S k < length pieces' -> c = x0a)) ->
              (pieces' <> [] -> b = x0a) ->
              forall k p, ((cur ++ [b]) :: pieces') !! k = Some p ->
                exists body c, p = body ++ [c] /\ Forall (fun c => c <> x0a) body /\
                  (S k < length ((cur ++ [b]) :: pieces') -> c = x0a)).
    { intros pieces' Hsh Hb [|k] p Hk; simpl in Hk.
      - injection Hk as <-. exists cur, b. split; [done|]. split; [done|].
        intros Hl. apply Hb. intros ->. simpl in Hl. lia.
      - destruct (Hsh k p Hk) as (body & c & ? & ? & Hc). exists body, c.
        split; [done|]. split; [done|]. intros Hl. apply Hc. simpl in Hl. lia. }
    destruct (Byte.eqb b x0a) eqn:Hb.
    + apply Byte.byte_dec_bl in Hb as ->. cbn [orb]. rewrite Hpiece. cbn [collect].
      assert (Hdata' : data = (pre ++ cur ++ [x0a]) ++ [] ++ todo).
      { rewrite Hdata, <- !app_assoc. done. }
      destruct (IH (pre ++ cur ++ [x0a]) [] (st ++ [cur ++ [x0a]]) Hdata'
                  (Forall_nil_2 _) (fun _ => eq_refl)) as (pieces & Hrun & Hcat & Hsh).
      rewrite !length_app in Hrun. simpl in Hrun.
      replace (length pre + (length cur + 1) + 0) with (length pre + length cur + 1)
        in Hrun by lia.
      replace (length pre + (length cur + 1)) with (length pre + length cur + 1)
        in Hrun by lia.
      exists ((cur ++ [x0a]) :: pieces). rewrite Hrun.
      split; [by rewrite <- app_assoc|]. split.
      * simpl. rewrite Hcat, <- app_assoc. done.
      * by apply Hyield.
    + cbn [orb]. destruct todo as [|c todo].
      * replace (length pre + length cur =? length data - 1) with true
          by (symmetry; apply Nat.eqb_eq; simpl in Hlen; lia).
        rewrite Hpiece. cbn [collect yieldLines_loop]. exists [cur ++ [b]].
        split; [done|]. split; [simpl; by rewrite app_nil_r|].
        apply Hyield; [|done]. intros k p Hk. by rewrite lookup_nil in Hk.
      * replace (length pre + length cur =? length data - 1) with false
          by (symmetry; apply Nat.eqb_neq; simpl in Hlen; lia).
        assert (Hdata' : data = pre ++ (cur ++ [b]) ++ c :: todo).
        { rewrite Hdata, <- !app_assoc. done. }
        assert (Hcur' : Forall (fun c => c <> x0a) (cur ++ [b])).
        { apply Forall_app. split; [done|]. apply Forall_singleton.
          intros ->. by rewrite Byte.byte_dec_lb in Hb. }
        destruct (IH pre (cur ++ [b]) st Hdata' Hcur') as (pieces & Hrun & Hcat & Hsh);
          [done|].
        rewrite length_app in Hrun. simpl in Hrun.
        replace (length pre + (length cur + 1)) with (length pre + length cur + 1)
          in Hrun by lia.
        exists pieces. split; [done|]. split; [by rewrite Hcat, <- app_assoc|done].
Qed.

(** X3: [yieldLines] gives [yield] the data cut after every newline:
    the pieces, in order, make up the data again, no piece is empty, no
    piece has a newline before its last byte, and every piece but the last
    ends in a newline. *)
Theorem yieldLines_cuts_after_newlines (data : list byte) :
  exists pieces,
    yieldLines collect data [] = (pieces, None) /\
    concat pieces = data /\
    forall k p, pieces !! k = Some p ->
      exists body b, p = body ++ [b] /\ Forall (fun c => c <> x0a) body /\
                     (S k < length pieces -> b = x0a).
Proof.
  destruct (yieldLines_loop_collect data data [] [] [] eq_refl (Forall_nil_2 _)
              (fun _ => eq_refl)) as (pieces & Hrun & Hcat & Hsh).
  exists pieces. split; [exact Hrun|]. split; [exact Hcat|exact Hsh].
Qed.

Lemma yieldLines_loop_shift (data : list byte) :
  forall todo start i st,
    yieldLines_loop collect data start i todo st =
    (st ++ fst (yieldLines_loop collect data start i todo []), None).
Proof.
  induction todo as [|b todo IH]; intros start i st; cbn [yieldLines_loop].
  - by rewrite app_nil_r.
  - destruct (Byte.eqb b x0a || (i =? length data - 1)); [|apply IH].
    cbn [collect app]. rewrite (IH _ _ (st ++ _)), (IH _ _ [_]). cbn [fst].
    by rewrite <- app_assoc.
Qed.

(** Whatever [yield] does, [yieldLines] calls it on the pieces of the
    data, in order, until it fails. *)
Lemma yieldLines_loop_each {St : Type} (yield : list byte -> St -> St * error)
  (data : list byte) :
  forall todo start i st,
    yieldLines_loop yield data start i todo st =
    yield_each yield (fst (yieldLines_loop collect data start i todo [])) st.
Proof.
  induction todo as [|b todo IH]; intros start i st; cbn [yieldLines_loop].
  - done.
  - destruct (Byte.eqb b x0a || (i =? length data - 1)); [|apply IH].
    cbn [collect app]. rewrite (yieldLines_loop_shift data todo _ _ [_]).
    cbn [fst app yield_each]. destruct (yield _ st) as [st1 [e|]]; [done|apply IH].
Qed.

Lemma yield_each_log (k : nat) (e : err) :
  forall pieces st,
    length st <= k ->
    yield_each (log_upto k e) pieces st =
    (take (S k) (st ++ pieces), if k <? length (st ++ pieces) then Some e else None).
Proof.
  induction pieces as [|piece rest IH]; intros st Hst.
  - rewrite app_nil_r. cbn [yield_each]. rewrite take_ge by lia.
    by replace (k <? length st) with false by (symmetry; apply Nat.ltb_ge; lia).
  - cbn [yield_each log_upto]. destruct (length st <? k) eqn:Hlt.
    + apply Nat.ltb_lt in Hlt. rewrite IH by (rewrite length_app; simpl; lia).
      by rewrite <- app_assoc.
    + apply Nat.ltb_ge in Hlt. rewrite take_snoc_middle by lia.
      replace (k <? length (st ++ piece :: rest)) with true; [done|].
      symmetry. apply Nat.ltb_lt. rewrite length_app. simpl. lia.
Qed.

(** X4: when [yield] fails, [yieldLines] returns that error at once and
    calls [yield] no more.  For every [yield], whatever it does with its
    state, [yieldLines] does what giving it the pieces of the data one
    after the other, up to the first error, does; so a [yield] that logs
    every call and fails on each call after the first [k] is left with
    the first [k] + 1 pieces in its log, and no later one, when the data
    has more than [k] pieces. *)
Theorem yieldLines_stops_at_the_first_error {St : Type}
  (yield : list byte -> St -> St * error) (data : list byte) (st : St)
  (k : nat) (e : err) :
  let pieces := fst (yieldLines collect data []) in
  yieldLines yield data st = yield_each yield pieces st /\
  yieldLines (log_upto k e) data [] =
    (take (S k) pieces, if k <? length pieces then Some e else None).
Proof.
  intros pieces. split; [apply yieldLines_loop_each|].
  unfold yieldLines. rewrite yieldLines_loop_each. fold (yieldLines collect data []).
  fold pieces. apply (yield_each_log k e pieces []). simpl. lia.
Qed.

End ChunkFacts.

(** ** The queue *)

Section QueueFacts.

Context {V : Type} (zero : V).

Local Abbreviation state := (@state V).

Lemma Push_loop_end (n : nat) :
  forall (fs : list ptr) (ds : list V) (s s' : state) (q' : Queue),
    Push_loop zero n fs ds s = Done (q', s') ->
    (data q' = [] \/ futs q' = []) /\
    futs q' `suffix_of` fs /\ data q' `suffix_of` ds.
Proof.
  induction fs as [|f fs IH]; intros ds s s' q' H.
  - destruct ds; injection H as <- <-; (split; [by right|done]).
  - destruct ds as [|item ds]; [injection H as <- <-; split; [by left|done]|].
    cbn [Push_loop] in H. inv_bind H. destruct a.
    + destruct (IH _ _ _ _ H) as (? & ? & ?).
      split; [done|]. split; [by apply suffix_cons_r|done].
    + inv_bind H. destruct (IH _ _ _ _ H) as (? & ? & ?).
      split; [done|]. split; by apply suffix_cons_r.
Qed.

(** X5: when [Push] returns, the queue does not hold both items and
    waiters, whatever it held before; what is left of the waiters is an
    end of the list of waiters, and what is left of the items an end of
    the items with the new one last. *)
Theorem Push_leaves_items_or_waiters
  (n : nat) (item : V) (q q' : Queue) (s s' : state) :
  Push zero n item q s = Done (q', s') ->
  (data q' = [] \/ futs q' = []) /\
  futs q' `suffix_of` futs q /\
  data q' `suffix_of` (data q ++ [item]).
Proof. apply Push_loop_end. Qed.

Lemma SetResult_fresh (n : nat) (v : V) (e : error) (s : state) :
  SetResult zero (S n) (length (heap s)) v e (snd (NewFuture zero s)) =
  Done (set_heap (heap s ++ [mark_done v e (fresh_future zero)]) s).
Proof.
  rewrite SetResult_S. cbn [NewFuture snd].
  rewrite (get_fut_Some (length (heap s)) (fresh_future zero)).
  - cbn [bind fresh_future done callbacks foldM]. unfold upd_fut. cbn [heap set_heap].
    rewrite insert_app_r_alt by done. by rewrite Nat.sub_diag.
  - cbn [heap set_heap]. rewrite lookup_app_r by done. by rewrite Nat.sub_diag.
Qed.

(** [Get] on a queue that holds an item returns a future that has it. *)
Lemma Get_item (n : nat) (x : V) (rest : list V) (q : Queue) (s : state) :
  data q = x :: rest ->
  exists s',
    Get zero (S n) q s =
      Done ({| data := rest; futs := futs q ++ [length (heap s)] |}, length (heap s), s') /\
    Result zero (length (heap s)) s' = Done (x, None).
Proof.
  intros Hd. unfold Get. rewrite Hd.
  change (NewFuture zero s) with (length (heap s), snd (NewFuture zero s)).
  cbv iota beta. rewrite SetResult_fresh. cbn [bind fst snd data futs].
  eexists. split; [reflexivity|].
  apply (Result_done zero _ (mark_done x None (fresh_future zero))); [|done].
  cbn [heap set_heap]. rewrite lookup_app_r by done. by rewrite Nat.sub_diag.
Qed.

(** X6: on a queue nobody waits on, [Push] stores the item behind those
    that are there and touches nothing else, and the [Get] that follows
    returns a new future that already has the oldest item (the one just
    pushed when there was no other) and takes it off the queue. *)
Theorem Get_after_Push_returns_the_oldest_item
  (n m : nat) (item : V) (q : Queue) (s : state) :
  futs q = [] ->
  exists q1 q2 s2,
    Push zero n item q s = Done (q1, s) /\
    data q1 = data q ++ [item] /\
    Get zero (S m) q1 s = Done (q2, length (heap s), s2) /\
    Result zero (length (heap s)) s2 = Done (hd item (data q), None) /\
    data q2 = tl (data q ++ [item]).
Proof.
  intros Hf. unfold Push. rewrite Hf. cbn [Push_loop].
  set (q1 := {| data := data q ++ [item]; futs := [] |}).
  assert (Hd : data q1 = hd item (data q) :: tl (data q ++ [item])).
  { cbn [q1 data]. by destruct (data q). }
  destruct (Get_item m _ _ q1 s Hd) as (s2 & HG & HR).
  eexists q1, _, s2. split; [by destruct (data q ++ [item])|].
  split; [done|]. split; [exact HG|]. split; [exact HR|done].
Qed.

Lemma HasResult_of (p : ptr) (fu : Future) (s : state) :
  heap s !! p = Some fu -> HasResult p s = Done (done fu).
Proof. intros Hp. unfold HasResult. by rewrite (get_fut_Some p fu s Hp). Qed.

Lemma Push_loop_skips (n : nat) (item : V) (skipped fs : list ptr) (s : state) :
  Forall (fun p => exists fu, heap s !! p = Some fu /\ done fu = true) skipped ->
  Push_loop zero n (skipped ++ fs) [item] s = Push_loop zero n fs [item] s.
Proof.
  induction 1 as [|p skipped (fu & Hp & Hd) _ IH]; [done|].
  cbn [app Push_loop]. rewrite (HasResult_of p fu s Hp), Hd. cbn [bind]. exact IH.
Qed.

(** X7: on a queue that holds no item, [Push] passes over the waiters
    that already have a result (they were cancelled) and completes the
    first one that has none with the item: it returns when that
    [SetResult] does, the item is then the result of that future, it is
    not stored, and the waiters behind stay queued. *)
Theorem Push_hands_the_item_to_the_first_pending_waiter
  (n : nat) (item : V) (q : Queue) (skipped fs : list ptr) (f : ptr) (fu : Future)
  (s : state) :
  data q = [] ->
  futs q = skipped ++ f :: fs ->
  Forall (fun p => exists fp, heap s !! p = Some fp /\ done fp = true) skipped ->
  heap s !! f = Some fu -> done fu = false ->
  Push zero n item q s =
    (let* s1 := SetResult zero n f item None s in
     Done ({| data := []; futs := fs |}, s1)) /\
  forall s1, SetResult zero n f item None s = Done s1 ->
             Result zero f s1 = Done (item, None).
Proof.
  intros Hd Hf Hsk Hp Hpend. split.
  - unfold Push. rewrite Hd, Hf. cbn [app]. rewrite (Push_loop_skips n item _ _ s Hsk).
    cbn [Push_loop]. rewrite (HasResult_of f fu s Hp), Hpend. cbn [bind].
    destruct (SetResult zero n f item None s); [|done|done]. cbn [bind]. by destruct fs.
  - intros s1 H1.
    apply (Result_done zero f (mark_done item None fu)); [|done].
    by apply (SetResult_pending zero n f fu item None s s1).
Qed.

(** X17: a consumer that comes first: on an empty queue [Get] returns a
    new pending future and queues it, and the [Push] that follows
    completes that future with the item and leaves the queue empty
    again. *)
Theorem Push_after_Get_completes_the_future_of_Get
  (n m : nat) (item : V) (q : Queue) (s : state) :
  data q = [] -> futs q = [] ->
  exists q1 s1 q2 s2,
    Get zero n q s = Done (q1, length (heap s), s1) /\
    HasResult (length (heap s)) s1 = Done false /\
    futs q1 = [length (heap s)] /\
    Push zero (S m) item q1 s1 = Done (q2, s2) /\
    Result zero (length (heap s)) s2 = Done (item, None) /\
    data q2 = [] /\ futs q2 = [].
Proof.
  intros Hd Hf. destruct q as [d fs]. cbn [data futs] in Hd, Hf. subst d fs.
  unfold Get. cbn [NewFuture bind fst snd data futs app].
  set (s1 := set_heap (heap s ++ [fresh_future zero]) s).
  assert (Hfut : heap s1 !! length (heap s) = Some (fresh_future zero)).
  { unfold s1. cbn [heap set_heap]. rewrite lookup_app_r by done. by rewrite Nat.sub_diag. }
  eexists _, s1, _, _. split; [reflexivity|].
  split; [by rewrite (HasResult_of _ _ s1 Hfut)|]. split; [done|].
  unfold Push. cbn [data futs app Push_loop]. rewrite (HasResult_of _ _ s1 Hfut).
  cbn [bind done fresh_future]. change s1 with (snd (NewFuture zero s)).
  rewrite (SetResult_fresh m item None s). cbn [bind].
  split; [reflexivity|]. split; [|done].
  apply (Result_done zero _ (mark_done item None (fresh_future zero))); [|done].
  cbn [heap set_heap]. rewrite lookup_app_r by done. by rewrite Nat.sub_diag.
Qed.

End QueueFacts.

(** ** Waiting for several futures *)

Section WaitFacts.

Context {V : Type} (zero : V).

Local Abbreviation state := (@state V).

Lemma invoke_done_Wait (n c k : nat) (mode : WaitMode) (w : ptr) (e : error) (s : state) :
  invoke_done zero (S n) (DcWait c mode k w) e s =
  let* cell := get_cell c s in
  match e with
  | Some _ =>
      let s1 := set_cells (<[c := (S (fst cell), e)]> (cells s)) s in
      if negb (WaitMode_eqb mode WaitAll) then SetResult zero n w zero e s1 else Done s1
  | None =>
      let s1 := set_cells (<[c := (S (fst cell), snd cell)]> (cells s)) s in
      if (k <=? S (fst cell)) || WaitMode_eqb mode WaitFirstResult
      then SetResult zero n w zero (snd cell) s1
      else Done s1
  end.
Proof. done. Qed.

(** One of the futures [Wait] watches completes: the callback of line 863
    counts it, keeps its error, and completes [w] or not. *)
Lemma wait_step (m c k n : nat) (le : error) (mode : WaitMode) (w f : ptr)
  (fw ff : Future) (v : V) (e : error) (s : state) :
  cells s !! c = Some (k, le) ->
  heap s !! w = Some fw -> done fw = false -> callbacks fw = [] ->
  heap s !! f = Some ff -> done ff = false ->
  callbacks ff = [CbDone (DcWait c mode n w)] ->
  f <> w ->
  let le' := match e with Some _ => e | None => le end in
  let fires := match e with
               | Some _ => negb (WaitMode_eqb mode WaitAll)
               | None => (n <=? S k) || WaitMode_eqb mode WaitFirstResult
               end in
  let s1 := set_cells (<[c := (S k, le')]> (cells s)) (upd_fut f (mark_done v e ff) s) in
  SetResult zero (S (S (S (S m)))) f v e s =
  Done (if fires then upd_fut w (mark_done zero le' fw) s1 else s1).
Proof.
  intros Hc Hw Hwd Hwc Hf Hfd Hfc Hne le' fires s1.
  assert (Hw1 : forall cs, heap (set_cells cs (upd_fut f (mark_done v e ff) s)) !! w
                           = Some fw).
  { intros cs. unfold upd_fut. cbn [heap set_cells set_heap].
    by rewrite list_lookup_insert_ne. }
  assert (Hset : forall cs er,
            SetResult zero (S m) w zero er (set_cells cs (upd_fut f (mark_done v e ff) s))
            = Done (upd_fut w (mark_done zero er fw)
                      (set_cells cs (upd_fut f (mark_done v e ff) s)))).
  { intros cs er. rewrite SetResult_S, (get_fut_Some w fw _ (Hw1 cs)).
    cbn [bind]. by rewrite Hwd, Hwc. }
  rewrite SetResult_S, (get_fut_Some f ff s Hf). cbn [bind]. rewrite Hfd, Hfc.
  cbn [foldM]. rewrite invoke_S, invoke_done_Wait. unfold get_cell.
  change (cells (upd_fut f (mark_done v e ff) s)) with (cells s). rewrite Hc.
  cbn [of_option bind fst snd]. subst le' fires s1. destruct e as [x|].
  - destruct (negb (WaitMode_eqb mode WaitAll)); [|done]. rewrite Hset. done.
  - destruct ((n <=? S k) || WaitMode_eqb mode WaitFirstResult); [|done].
    rewrite Hset. done.
Qed.

(** The loop of [Wait] (line 862) over futures nothing is registered on. *)
Lemma register_all (n : nat) (d : done_callback) :
  forall (fs : list ptr) (s : state),
    NoDup fs -> Forall (untouched s) fs ->
    exists s',
      foldM (fun fut => AddDoneCallback zero (S n) fut d) fs s = Done s' /\
      cells s' = cells s /\
      (forall p, p ∉ fs -> heap s' !! p = heap s !! p) /\
      (forall p, p ∈ fs ->
         exists ff, heap s' !! p = Some ff /\ done ff = false /\
                    callbacks ff = [CbDone d]).
Proof.
  induction fs as [|f fs IH]; intros s Hnd Hall.
  - exists s. split; [done|]. split; [done|]. split; [done|].
    intros p Hp. by apply elem_of_nil in Hp.
  - apply NoDup_cons in Hnd as [Hf Hnd]. apply Forall_cons in Hall as [(ff & Hff & Hd & Hc) Hall].
    cbn [foldM]. unfold AddDoneCallback at 1.
    rewrite (AddResultCallback_pending zero n f ff (CbDone d) s Hff Hd). cbn [bind].
    set (s0 := upd_fut f (push_callback (CbDone d) ff) s).
    assert (Hne : forall p, p <> f -> heap s0 !! p = heap s !! p).
    { intros p Hp. unfold s0, upd_fut. cbn [heap set_heap].
      by rewrite list_lookup_insert_ne. }
    assert (Hall0 : Forall (untouched s0) fs).
    { apply Forall_forall. intros p Hp. unfold untouched. rewrite Hne.
      - by apply (proj1 (Forall_forall _ _) Hall).
      - intros ->. done. }
    destruct (IH s0 Hnd Hall0) as (s' & Hrun & Hcells & Hout & Hin).
    exists s'. split; [done|]. split; [done|]. split.
    + intros p Hp. apply not_elem_of_cons in Hp as [Hpf Hp]. by rewrite Hout, Hne.
    + intros p Hp. apply elem_of_cons in Hp as [->|Hp]; [|by apply Hin].
      rewrite (Hout f Hf). exists (push_callback (CbDone d) ff).
      split; [|split; [exact Hd|cbn [callbacks push_callback]; by rewrite Hc]].
      unfold s0, upd_fut. cbn [heap set_heap]. apply list_lookup_insert_eq.
      by eapply lookup_lt_Some.
Qed.

(** What [Wait] leaves when nothing is registered on the futures yet. *)
Lemma Wait_registers (n : nat) (mode : WaitMode) (futs : list ptr) (s : state) :
  NoDup futs -> Forall (untouched s) futs ->
  exists s1,
    Wait zero (S n) mode futs s = Done (length (heap s), s1) /\
    cells s1 !! length (cells s) = Some (0, None) /\
    untouched s1 (length (heap s)) /\
    forall p, p ∈ futs ->
      p <> length (heap s) /\
      exists ff, heap s1 !! p = Some ff /\ done ff = false /\
        callbacks ff =
          [CbDone (DcWait (length (cells s)) mode (length futs) (length (heap s)))].
Proof.
  intros Hnd Hall. unfold Wait. cbn [NewFuture].
  set (s0 := set_heap _ _).
  assert (Hlt : forall p, p ∈ futs -> p < length (heap s)).
  { intros p Hp. destruct (proj1 (Forall_forall _ _) Hall p Hp) as (ff & Hff & _).
    by eapply lookup_lt_Some. }
  assert (Hall0 : Forall (untouched s0) futs).
  { apply Forall_forall. intros p Hp.
    destruct (proj1 (Forall_forall _ _) Hall p Hp) as (ff & Hff & Hd & Hc).
    exists ff. split; [|done]. unfold s0. cbn [heap set_heap set_cells].
    by apply lookup_app_l_Some. }
  destruct (register_all n (DcWait (length (cells s)) mode (length futs) (length (heap s)))
              futs s0 Hnd Hall0) as (s1 & Hrun & Hcells & Hout & Hin).
  change (heap (set_cells (cells s ++ [(0, None)]) s)) with (heap s).
  rewrite Hrun. cbn [bind].
  exists s1. split; [done|]. split; [|split].
  - rewrite Hcells. unfold s0. cbn [cells set_heap set_cells].
    rewrite lookup_app_r by done. by rewrite Nat.sub_diag.
  - unfold untouched. rewrite Hout.
    + exists (fresh_future zero). split; [|done]. unfold s0. cbn [heap set_heap set_cells].
      rewrite lookup_app_r by done. by rewrite Nat.sub_diag.
    + intros Hw. apply Hlt in Hw. lia.
  - intros p Hp. split; [apply Hlt in Hp; lia|by apply Hin].
Qed.

(** X8: [Wait] in the modes [WaitFirstResult] and [WaitFirstError], on
    distinct futures nothing is registered on yet: it returns a new
    pending future, and when the first of the futures completes, with
    [(v, e)], that future completes with the error [e] if the first future
    failed, or the mode is [WaitFirstResult], or it was the only one to
    wait for; in [WaitFirstError] with more futures to come and no error
    it stays pending. *)
Theorem Wait_first_completion
  (n m : nat) (mode : WaitMode) (futs : list ptr) (f : ptr) (v : V) (e : error)
  (s : state) :
  NoDup futs -> Forall (untouched s) futs -> f ∈ futs -> mode <> WaitAll ->
  exists s1 s2,
    Wait zero (S n) mode futs s = Done (length (heap s), s1) /\
    HasResult (length (heap s)) s1 = Done false /\
    SetResult zero (4 + m) f v e s1 = Done s2 /\
    if bool_decide (is_Some e) || WaitMode_eqb mode WaitFirstResult
       || (length futs <=? 1)
    then Result zero (length (heap s)) s2 = Done (zero, e)
    else HasResult (length (heap s)) s2 = Done false.
Proof.
  intros Hnd Hall Hf Hmode.
  destruct (Wait_registers n mode futs s Hnd Hall)
    as (s1 & HW & Hc & (fw & Hw & Hwd & Hwc) & Hin).
  destruct (Hin f Hf) as (Hne & ff & Hff & Hfd & Hfc).
  pose proof (wait_step m _ 0 _ None mode _ f fw ff v e s1 Hc Hw Hwd Hwc Hff Hfd Hfc Hne)
    as Hstep. cbv zeta in Hstep.
  eexists s1, _. split; [exact HW|]. split; [by rewrite (HasResult_of _ fw s1 Hw), Hwd|].
  split; [exact Hstep|].
  set (s1' := set_cells _ (upd_fut f (mark_done v e ff) s1)).
  assert (Hw1 : heap s1' !! length (heap s) = Some fw).
  { unfold s1', upd_fut. cbn [heap set_cells set_heap]. by rewrite list_lookup_insert_ne. }
  assert (Hdone : forall er,
            Result zero (length (heap s)) (upd_fut (length (heap s)) (mark_done zero er fw) s1')
            = Done (zero, er)).
  { intros er. apply (Result_done zero _ (mark_done zero er fw)); [|done].
    unfold upd_fut. cbn [heap set_heap]. apply list_lookup_insert_eq.
    by eapply lookup_lt_Some. }
  assert (Hpend : HasResult (length (heap s)) s1' = Done false).
  { by rewrite (HasResult_of _ fw s1' Hw1), Hwd. }
  destruct e as [x|].
  - cbn [orb]. replace (negb (WaitMode_eqb mode WaitAll)) with true by by destruct mode.
    apply Hdone.
  - cbn [orb]. rewrite (orb_comm (WaitMode_eqb mode WaitFirstResult)).
    destruct ((length futs <=? 1) || WaitMode_eqb mode WaitFirstResult);
      [apply Hdone|exact Hpend].
Qed.

(** [WaitAll] while the watched futures complete one after the other:
    [k] have completed, [le] is the error kept, [cs] are those to come. *)
Lemma wait_all_run (m c n : nat) (w : ptr) (fw : Future) :
  forall (cs : list (ptr * V * error)) (k : nat) (le : error) (s : state),
    cs <> [] -> k + length cs = n ->
    NoDup (map (fun c => fst (fst c)) cs) ->
    (forall p, p ∈ map (fun c : ptr * V * error => fst (fst c)) cs ->
       p <> w /\ exists ff, heap s !! p = Some ff /\ done ff = false /\
                            callbacks ff = [CbDone (DcWait c WaitAll n w)]) ->
    cells s !! c = Some (k, le) ->
    heap s !! w = Some fw -> done fw = false -> callbacks fw = [] ->
    exists s',
      complete_all zero (S (S (S (S m)))) cs s = Done s' /\
      match last cs with
      | Some (_, _, None) =>
          Result zero w s' =
          Done (zero, fold_left (fun le c => match snd c with
                                             | Some e => Some e
                                             | None => le
                                             end) cs le)
      | _ => HasResult w s' = Done false
      end.
Proof.
  induction cs as [|[[f v] e] cs IH]; intros k le s Hne Hlen Hnd Hin Hc Hw Hwd Hwc; [done|].
  cbn [map fst snd] in Hnd, Hin. apply NoDup_cons in Hnd as [Hf Hnd].
  destruct (Hin f (list_elem_of_here _ _)) as (Hfw & ff & Hff & Hfd & Hfc).
  pose proof (wait_step m c k n le WaitAll w f fw ff v e s Hc Hw Hwd Hwc Hff Hfd Hfc Hfw)
    as Hstep. cbv zeta in Hstep.
  unfold complete_all. cbn [foldM fst snd]. rewrite Hstep. clear Hstep.
  set (le' := match e with Some _ => e | None => le end).
  set (s1 := set_cells (<[c := (S k, le')]> (cells s)) (upd_fut f (mark_done v e ff) s)).
  assert (Hw1 : heap s1 !! w = Some fw).
  { unfold s1, upd_fut. cbn [heap set_cells set_heap]. by rewrite list_lookup_insert_ne. }
  destruct cs as [|c2 cs].
  - cbn [length] in Hlen. cbn [last fold_left snd foldM bind].
    replace (n <=? S k) with true by (symmetry; apply Nat.leb_le; lia).
    destruct e as [x|]; cbn [orb negb WaitMode_eqb].
    + eexists. split; [reflexivity|]. by rewrite (HasResult_of w fw s1 Hw1), Hwd.
    + eexists. split; [reflexivity|].
      apply (Result_done zero w (mark_done zero le fw)); [|done].
      unfold upd_fut. cbn [heap set_heap]. apply list_lookup_insert_eq.
      by eapply lookup_lt_Some.
  - cbn [length] in Hlen.
    replace (match e with
             | Some _ => negb (WaitMode_eqb WaitAll WaitAll)
             | None => (n <=? S k) || WaitMode_eqb WaitAll WaitFirstResult
             end) with false.
    2:{ destruct e; [done|]. symmetry. cbn [WaitMode_eqb]. rewrite orb_false_r.
        apply Nat.leb_gt. lia. }
    cbn [bind].
    destruct (IH (S k) le' s1) as (s' & Hrun & Hres); try done.
    + cbn [length]. lia.
    + intros p Hp. destruct (Hin p (list_elem_of_further _ _ _ Hp)) as (Hpw & Hpf).
      split; [done|]. unfold s1, upd_fut. cbn [heap set_cells set_heap].
      rewrite list_lookup_insert_ne; [done|]. intros ->. done.
    + unfold s1. cbn [cells set_cells]. apply list_lookup_insert_eq.
      by eapply lookup_lt_Some.
    + exists s'. split; [exact Hrun|]. unfold le' in Hres. by destruct e.
Qed.

(** X9: [Wait] in the mode [WaitAll], on distinct futures nothing is
    registered on yet, which then all complete, in any order: the future
    [Wait] returned completes only if the one that completes last has no
    error, and its error is then the error of the last future that
    failed, nil if none did; if the one that completes last fails, it is
    still pending when all have completed. *)
Theorem WaitAll_reports_when_the_last_future_succeeds
  (n m : nat) (futs : list ptr) (cs : list (ptr * V * error)) (s : state) :
  NoDup futs -> Forall (untouched s) futs ->
  map (fun c => fst (fst c)) cs ≡ₚ futs -> cs <> [] ->
  exists s1 s2,
    Wait zero (S n) WaitAll futs s = Done (length (heap s), s1) /\
    complete_all zero (4 + m) cs s1 = Done s2 /\
    match last cs with
    | Some (_, _, None) =>
        Result zero (length (heap s)) s2 = Done (zero, futErr_after cs)
    | _ => HasResult (length (heap s)) s2 = Done false
    end.
Proof.
  intros Hnd Hall Hperm Hne.
  destruct (Wait_registers n WaitAll futs s Hnd Hall)
    as (s1 & HW & Hc & (fw & Hw & Hwd & Hwc) & Hin).
  destruct (wait_all_run m (length (cells s)) (length futs) (length (heap s)) fw
              cs 0 None s1) as (s2 & Hrun & Hres); try done.
  - rewrite <- Hperm. by rewrite length_map.
  - by rewrite Hperm.
  - intros p Hp. rewrite Hperm in Hp. by apply Hin.
  - exists s1, s2. split; [exact HW|]. split; [exact Hrun|exact Hres].
Qed.

End WaitFacts.

(** ** The shield, from the other side *)

Section ShieldFacts.

Context {V : Type} (zero : V).

Local Abbreviation state := (@state V).

(** X15: a shield passes results on in both directions (line 139): when
    the shield of a pending future is completed with anything that is not
    [context.Canceled], its source completes with the same result. *)
Theorem completing_a_shield_completes_its_source
  (n m : nat) (f : ptr) (v : V) (e : error) (s : state) :
  untouched s f -> errors_Is e Canceled = false ->
  exists s1 s2,
    Shield zero (S n) f s = Done (length (heap s), s1) /\
    SetResult zero (5 + m) (length (heap s)) v e s1 = Done s2 /\
    Result zero (length (heap s)) s2 = Done (v, e) /\
    Result zero f s2 = Done (v, e).
Proof.
  intros (f0 & Hf & Hd & Hc) He. set (fut := length (heap s)).
  assert (Hlt : f < fut) by by eapply lookup_lt_Some.
  set (s1 := shielded zero f f0 s).
  set (g := push_callback (CbShieldBack f) (fresh_future zero)).
  set (f1 := push_callback (CbShieldFwd fut) f0).
  assert (Hfut : heap s1 !! fut = Some g).
  { unfold s1. rewrite (shielded_lookup zero f f0 s _ Hf). by rewrite decide_True. }
  assert (Hsrc : heap s1 !! f = Some f1).
  { unfold s1. rewrite (shielded_lookup zero f f0 s _ Hf).
    rewrite decide_False by (unfold fut in Hlt; lia). by rewrite decide_True. }
  set (sA := upd_fut fut (mark_done v e g) s1).
  set (sB := upd_fut f (mark_done v e f1) sA).
  assert (HfA : heap sA !! f = Some f1).
  { unfold sA, upd_fut. cbn [heap set_heap]. rewrite list_lookup_insert_ne by lia. done. }
  assert (HgA : heap sA !! fut = Some (mark_done v e g)).
  { unfold sA, upd_fut. cbn [heap set_heap]. apply list_lookup_insert_eq.
    by eapply lookup_lt_Some. }
  assert (HgB : heap sB !! fut = Some (mark_done v e g)).
  { unfold sB, upd_fut. cbn [heap set_heap]. rewrite list_lookup_insert_ne by lia. done. }
  assert (HfB : heap sB !! f = Some (mark_done v e f1)).
  { unfold sB, upd_fut. cbn [heap set_heap]. apply list_lookup_insert_eq.
    by eapply lookup_lt_Some. }
  exists s1, sB. split; [by apply Shield_pending|]. split; [|split].
  - change (5 + m) with (S (S (S (S (S m))))).
    rewrite SetResult_S, (get_fut_Some fut g s1 Hfut). cbn [bind].
    cbn [g done push_callback fresh_future callbacks app foldM]. fold g. fold sA.
    rewrite invoke_S, He, SetResult_S, (get_fut_Some f f1 sA HfA). cbn [bind].
    cbn [f1 done push_callback callbacks]. rewrite Hd, Hc. cbn [app foldM]. fold f1. fold sB.
    rewrite invoke_S. by rewrite (SetResult_done_noop zero m fut _ v e sB HgB).
  - by apply (Result_done zero fut (mark_done v e g)).
  - by apply (Result_done zero f (mark_done v e f1)).
Qed.

End ShieldFacts.

(** ** Tasks from start to end *)

Section TaskRuns.

Context {V : Type} (zero : V).

Local Abbreviation state := (@state V).

Lemma invoke_done_TaskDone (n : nat) (t : task_id) (e : error) (s : state) :
  invoke_done zero (S n) (DcTaskDone t) e s =
  let* tk := get_task t s in
  let* s1 := match pendingFut tk with
             | Some p => SetResult zero n p zero (cancel_err None) s
             | None => Done s
             end in
  Done (task_cancel t e s1).
Proof. done. Qed.

Lemma run_Mark (n : nat) (t : task_id) (tag : nat) (k : prog) (s : state) :
  run zero (S n) t (PMark tag k) s = run zero n t k (emit (EvMark t tag) s).
Proof. done. Qed.

Lemma run_Ret (n : nat) (t : task_id) (v : V) (e : error) (s : state) :
  run zero (S n) t (PRet v e) s =
  let* tk := get_task t s in
  let* s1 := SetResult zero n (resultFut tk) v e s in
  Done (upd_task t (with_coro CoFinished) s1, None).
Proof. done. Qed.

Lemma get_task_Some (t : task_id) (tk : Task) (s : state) :
  tasks s !! t = Some tk -> get_task t s = Done tk.
Proof. unfold get_task. by intros ->. Qed.

Lemma emits_rest (evs : list event) (s : state) :
  tasks (emits evs s) = tasks s /\ pendingCallbacks (emits evs s) = pendingCallbacks s /\
  currentTasks (emits evs s) = currentTasks s /\ parent_cause (emits evs s) = parent_cause s /\
  now (emits evs s) = now s.
Proof.
  revert s. induction evs as [|ev evs IH]; intros s; [done|]. apply (IH (emit ev s)).
Qed.

(** The task's own callback on its result future (line 205), when the
    future the task last waited on, if any, has its result. *)
Lemma TaskDone_settled (c : nat) (t : task_id) (tk : Task) (e : error) (s : state) :
  tasks s !! t = Some tk -> cause tk = None -> parent_cause s = None ->
  pend_done s (pendingFut tk) ->
  invoke_done zero (S (S c)) (DcTaskDone t) e s =
  Done (upd_task t (with_cause (cancel_err e)) s).
Proof.
  intros Htk Hca Hpa Hpd. rewrite invoke_done_TaskDone, (get_task_Some t tk s Htk).
  cbn [bind].
  assert (Hs1 : match pendingFut tk with
                | Some p => SetResult zero (S c) p zero (cancel_err None) s
                | None => Done s
                end = Done s).
  { destruct (pendingFut tk) as [p|]; [|done]. destruct Hpd as (fp & Hfp & Hd).
    by apply (SetResult_done_noop zero c p fp). }
  rewrite Hs1. cbn [bind]. unfold task_cancel, Cause. by rewrite Htk, Hca, Hpa.
Qed.

(** A coroutine that returns: the result future gets what it returns and
    the task's callback on it cancels the task's context. *)
Lemma run_straight (c : nat) (t : task_id) (tk : Task) (frf : Future) (v : V) (e : error) :
  forall (tags : list nat) (s : state),
    tasks s !! t = Some tk -> cause tk = None ->
    pend_done s (pendingFut tk) -> pendingFut tk <> Some (resultFut tk) ->
    parent_cause s = None ->
    heap s !! resultFut tk = Some frf -> done frf = false ->
    callbacks frf = [CbDone (DcTaskDone t)] ->
    run zero (length tags + (5 + c)) t (straight tags v e) s =
    Done (upd_task t (with_coro CoFinished)
            (upd_task t (with_cause (cancel_err e))
               (upd_fut (resultFut tk) (mark_done v e frf)
                  (emits (map (EvMark t) tags) s))), None).
Proof.
  induction tags as [|tag tags IH]; intros s Htk Hca Hpd Hne Hpa Hrf Hd Hcb.
  - cbn [length straight fold_right map emits fold_left Nat.add].
    rewrite run_Ret, (get_task_Some t tk s Htk). cbn [bind].
    rewrite SetResult_S, (get_fut_Some _ frf s Hrf). cbn [bind]. rewrite Hd, Hcb.
    cbn [foldM]. rewrite invoke_S.
    rewrite (TaskDone_settled c t tk e); [done|done|done|done|].
    destruct (pendingFut tk) as [p|]; [|done]. destruct Hpd as (fp & Hfp & Hdp).
    exists fp. split; [|done]. unfold upd_fut. cbn [heap set_heap].
    rewrite list_lookup_insert_ne; [done|]. intros Heq. apply Hne. by rewrite Heq.
  - change (straight (tag :: tags) v e) with (PMark tag (straight tags v e)).
    cbn [length map]. change (S (length tags) + (5 + c))
      with (S (length tags + (5 + c))). rewrite run_Mark.
    by rewrite (IH (emit (EvMark t tag) s)).
Qed.

Lemma Step_S (n : nat) (t : task_id) (s : state) :
  Step zero (S n) t s =
  let oldTasks := currentTasks s in
  let* r := next zero n t (set_currentTasks (oldTasks ++ [t]) s) in
  let s1 := upd_task t (with_pendingFut (default None (snd r))) (fst r) in
  if negb (bool_decide (last (currentTasks s1) = Some t)) then Panic
  else
    let s2 := set_currentTasks oldTasks s1 in
    match snd r with
    | Some (Some p) => AddResultCallback zero n p (CbDone (DcStep t)) s2
    | Some None => Done (RunCallback (LcStep t) s2)
    | None => Done (upd_task t (with_pendingFut None) s2)
    end.
Proof. done. Qed.

Lemma next_S (n : nat) (t : task_id) (s : state) :
  next zero (S n) t s =
  let* tk := get_task t s in
  match coro tk with
  | CoNew body =>
      run zero n t body (emit (EvStart t) (upd_task t (with_coro CoRunning) s))
  | CoSuspended fut k =>
      let s0 := upd_task t (with_coro CoRunning) s in
      match Cause tk s0 with
      | Some er =>
          let* s1 := SetResult zero n (resultFut tk) zero (cancel_err (Some er)) s0 in
          let* terr := Err (resultFut tk) s1 in
          resumed zero n t terr fut k s1
      | None => resumed zero n t None fut k s0
      end
  | CoRunning => Panic
  | CoFinished => Done (s, None)
  end.
Proof. done. Qed.

Lemma upd_task_rest (t : task_id) (g : Task -> Task) (s : state) :
  pendingCallbacks (upd_task t g s) = pendingCallbacks s /\
  trace (upd_task t g s) = trace s /\
  currentTasks (upd_task t g s) = currentTasks s.
Proof. destruct (upd_task_fields t g s) as (_ & _ & -> & -> & -> & _). done. Qed.

Lemma upd_task_self (t : task_id) (g : Task -> Task) (tk : Task) (s : state) :
  tasks s !! t = Some tk -> tasks (upd_task t g s) !! t = Some (g tk).
Proof. intros Htk. by rewrite upd_task_lookup, decide_True, Htk. Qed.

(** The step of a task whose coroutine returns in this step (line 230):
    the loop is left as it was found, but for the task. *)
Lemma Step_to_the_end (n : nat) (t : task_id) (tkR : Task) (s sR : state) :
  next zero n t (set_currentTasks (currentTasks s ++ [t]) s) = Done (sR, None) ->
  currentTasks sR = currentTasks s ++ [t] ->
  tasks sR !! t = Some tkR ->
  exists s',
    Step zero (S n) t s = Done s' /\
    heap s' = heap sR /\ trace s' = trace sR /\
    pendingCallbacks s' = pendingCallbacks sR /\ parent_cause s' = parent_cause sR /\
    currentTasks s' = currentTasks s /\
    tasks s' !! t = Some (with_pendingFut None tkR).
Proof.
  intros Hnext Hcur Htk. rewrite Step_S. cbv zeta. rewrite Hnext. cbn [bind fst snd default].
  destruct (upd_task_rest t (with_pendingFut None) sR) as (Hq & Htr & Hc).
  rewrite Hc, Hcur, last_snoc, bool_decide_eq_true_2 by done. cbn [negb].
  eexists. split; [reflexivity|].
  set (s2 := set_currentTasks (currentTasks s) (upd_task t (with_pendingFut None) sR)).
  destruct (upd_task_rest t (with_pendingFut None) s2) as (Hq2 & Htr2 & Hc2).
  rewrite heap_upd_task, parent_upd_task, Hq2, Htr2, Hc2. unfold s2.
  cbn [heap trace pendingCallbacks parent_cause currentTasks set_currentTasks].
  rewrite heap_upd_task, parent_upd_task, Hq, Htr.
  repeat (split; [done|]).
  rewrite (upd_task_self t _ (with_pendingFut None tkR)); [done|].
  cbn [tasks set_currentTasks]. by apply upd_task_self.
Qed.

(** The step that starts a coroutine which returns without waiting. *)
Lemma Step_new_straight (c : nat) (t : task_id) (tk : Task) (frf : Future)
  (tags : list nat) (v : V) (e : error) (s : state) :
  tasks s !! t = Some tk -> coro tk = CoNew (straight tags v e) ->
  cause tk = None -> pendingFut tk = None -> parent_cause s = None ->
  heap s !! resultFut tk = Some frf -> done frf = false ->
  callbacks frf = [CbDone (DcTaskDone t)] ->
  exists s',
    Step zero (S (S (length tags + (5 + c)))) t s = Done s' /\
    heap s' = <[resultFut tk := mark_done v e frf]> (heap s) /\
    trace s' = trace s ++ EvStart t :: map (EvMark t) tags /\
    pendingCallbacks s' = pendingCallbacks s /\ parent_cause s' = None /\
    currentTasks s' = currentTasks s /\
    exists tk', tasks s' !! t = Some tk' /\ coro tk' = CoFinished.
Proof.
  intros Htk Hco Hca Hpf Hpa Hrf Hd Hcb.
  set (sa := set_currentTasks (currentTasks s ++ [t]) s).
  set (s0 := emit (EvStart t) (upd_task t (with_coro CoRunning) sa)).
  assert (Htk0 : tasks s0 !! t = Some (with_coro CoRunning tk)) by by apply upd_task_self.
  assert (Hrun := run_straight c t (with_coro CoRunning tk) frf v e tags s0 Htk0 Hca).
  cbn [pendingFut resultFut with_coro] in Hrun. rewrite Hpf in Hrun.
  specialize (Hrun I). unfold s0 at 1 2 in Hrun. cbn [heap parent_cause emit] in Hrun.
  rewrite heap_upd_task, parent_upd_task in Hrun.
  specialize (Hrun ltac:(done) Hpa Hrf Hd Hcb).
  set (sR := upd_task t (with_coro CoFinished) _) in Hrun.
  assert (Hnext : next zero (S (length tags + (5 + c))) t sa = Done (sR, None)).
  { rewrite next_S, (get_task_Some t tk sa Htk). cbn [bind]. by rewrite Hco. }
  destruct (emits_fields (map (EvMark t) tags) s0) as (Heh & Het).
  destruct (emits_rest (map (EvMark t) tags) s0) as (Hets & Heq & Hec & Hep & _).
  destruct (upd_task_rest t (with_coro CoRunning) sa) as (Hq0 & Htr0 & Hc0).
  assert (HsR : heap sR = <[resultFut tk := mark_done v e frf]> (heap s) /\
                trace sR = trace s ++ EvStart t :: map (EvMark t) tags /\
                pendingCallbacks sR = pendingCallbacks s /\ parent_cause sR = None /\
                currentTasks sR = currentTasks s ++ [t]).
  { unfold sR. set (sM := upd_fut _ _ _).
    set (sC := upd_task t (with_cause (cancel_err e)) sM).
    destruct (upd_task_rest t (with_coro CoFinished) sC) as (-> & -> & ->).
    rewrite heap_upd_task, parent_upd_task. unfold sC.
    destruct (upd_task_rest t (with_cause (cancel_err e)) sM) as (-> & -> & ->).
    rewrite heap_upd_task, parent_upd_task. unfold sM, upd_fut.
    cbn [heap trace pendingCallbacks parent_cause currentTasks set_heap].
    rewrite Heh, Het, Heq, Hec, Hep. unfold s0.
    cbn [heap trace pendingCallbacks parent_cause currentTasks emit].
    rewrite heap_upd_task, parent_upd_task, Hq0, Htr0, Hc0. unfold sa.
    cbn [heap trace pendingCallbacks parent_cause currentTasks set_currentTasks].
    rewrite <- app_assoc. done. }
  destruct HsR as (HRh & HRt & HRq & HRp & HRc).
  assert (HtkR : exists tkR, tasks sR !! t = Some tkR /\ coro tkR = CoFinished).
  { eexists. split; [|shelve]. unfold sR. apply upd_task_self, upd_task_self.
    unfold upd_fut. cbn [tasks set_heap]. rewrite Hets. exact Htk0.
    Unshelve. done. }
  destruct HtkR as (tkR & HtkR & HcoR).
  destruct (Step_to_the_end _ t tkR s sR Hnext HRc HtkR)
    as (s' & HS & Hh & Ht & Hq & Hp & Hcu & Htk').
  exists s'. split; [exact HS|]. rewrite Hh, Ht, Hq, Hp.
  repeat (split; [done|]). exists (with_pendingFut None tkR). by split.
Qed.

Lemma runReadyCallbacks_S (n : nat) (s : state) :
  runReadyCallbacks zero (S n) s =
  match parent_cause s, pendingCallbacks s with
  | None, c :: _ =>
      if (time_Until (when c) (now s) <=? 0)%Z
      then let* s1 := RunFirst zero n s in runReadyCallbacks zero n s1
      else Done s
  | _, _ => Done s
  end.
Proof. done. Qed.

Lemma time_Until_now (x : Z) : (time_Until (x + 0) x <=? 0)%Z = true.
Proof. unfold time_Until. by replace (x + 0 - x)%Z with 0%Z by lia. Qed.

(** X10: a task whose coroutine returns [(v, e)] without waiting for
    anything, spawned when no callback is queued and run by the loop: the
    coroutine runs once, from start to end, the task's result future
    completes with [(v, e)], and the queue is empty again. *)
Theorem task_completes_with_what_the_coroutine_returns
  (n : nat) (tags : list nat) (v : V) (e : error) (s : state) :
  pendingCallbacks s = [] -> parent_cause s = None ->
  length tags + 8 <= n ->
  exists s',
    exec_all zero n [OSpawnTask (straight tags v e); ORunReady] s = Done s' /\
    Result zero (length (heap s)) s' = Done (v, e) /\
    trace s' = trace s ++ EvStart (length (tasks s))
                            :: map (EvMark (length (tasks s))) tags /\
    pendingCallbacks s' = [] /\
    exists tk, tasks s' !! length (tasks s) = Some tk /\ coro tk = CoFinished.
Proof.
  intros Hq Hpa Hn.
  replace n with (S (S (S (length tags + (5 + (n - length tags - 8)))))) by lia.
  set (c := n - length tags - 8). set (body := straight tags v e).
  unfold exec_all. cbn [foldM exec]. rewrite SpawnTask_spawned. cbn [bind snd].
  set (t := length (tasks s)). set (rf := length (heap s)).
  set (frf := push_callback (CbDone (DcTaskDone t)) (fresh_future zero)).
  set (sq := set_pendingCallbacks [] (spawned zero body s)).
  assert (Htk : tasks sq !! t = Some (new_task body rf)).
  { unfold sq, spawned, RunCallback, ScheduleCallback, upd_fut.
    cbn [tasks set_pendingCallbacks set_heap set_tasks NewFuture snd].
    rewrite lookup_app_r by done. by rewrite Nat.sub_diag. }
  assert (Hheap : heap sq = heap s ++ [frf]).
  { unfold sq, spawned, RunCallback, ScheduleCallback, upd_fut.
    cbn [heap set_pendingCallbacks set_heap set_tasks NewFuture snd].
    rewrite insert_app_r_alt by done. by rewrite Nat.sub_diag. }
  assert (Hrf : heap sq !! rf = Some frf).
  { rewrite Hheap, lookup_app_r by done. by rewrite Nat.sub_diag. }
  destruct (Step_new_straight c t (new_task body rf) frf tags v e sq Htk eq_refl
              eq_refl eq_refl Hpa Hrf eq_refl eq_refl)
    as (s1 & HS & Hh & Ht & Hq1 & Hp1 & _ & Htk1).
  exists s1. split.
  - rewrite runReadyCallbacks_S.
    assert (Hqs : pendingCallbacks (spawned zero body s)
                  = [NewCallback 0 (LcStart t)
                       (upd_fut rf frf (set_tasks (tasks s ++ [new_task body rf])
                                          (snd (NewFuture zero s))))]).
    { unfold spawned, RunCallback, ScheduleCallback. cbn [pendingCallbacks
        set_pendingCallbacks upd_fut set_heap set_tasks NewFuture snd]. by rewrite Hq. }
    change (parent_cause (spawned zero body s)) with (parent_cause s).
    rewrite Hpa, Hqs. cbn [when NewCallback]. change (now (upd_fut _ _ _)) with (now s).
    change (now (spawned zero body s)) with (now s). rewrite time_Until_now.
    unfold RunFirst. rewrite Hqs. cbn [callback_ NewCallback run_loop_callback].
    fold sq. rewrite (get_task_Some t _ sq Htk). cbn [bind resultFut new_task].
    rewrite (HasResult_of rf frf sq Hrf). cbn [bind done frf push_callback fresh_future].
    unfold Cause. cbn [cause new_task]. change (parent_cause sq) with (parent_cause s).
    rewrite Hpa, HS. cbn [bind]. rewrite runReadyCallbacks_S, Hp1, Hq1. done.
  - split; [|split; [|split]].
    + apply (Result_done zero rf (mark_done v e frf)); [|done]. rewrite Hh.
      apply list_lookup_insert_eq. rewrite Hheap, length_app. simpl. lia.
    + by rewrite Ht.
    + by rewrite Hq1.
    + exact Htk1.
Qed.

Lemma resumed_S (n : nat) (t : task_id) (yerr : error) (fut : option ptr) (k : prog)
  (s : state) :
  resumed zero (S n) t yerr fut k s =
  match yerr, fut with
  | Some e, _ => run zero n t (PRet zero (Some e)) s
  | None, None => run zero n t k s
  | None, Some p =>
      let* r := Result zero p s in
      match snd r with
      | Some e => run zero n t (PRet zero (Some e)) s
      | None => run zero n t k s
      end
  end.
Proof. done. Qed.

Lemma invoke_done_Step (n : nat) (t : task_id) (e : error) (s : state) :
  invoke_done zero (S n) (DcStep t) e s = Step zero n t s.
Proof. done. Qed.

(** A task that waits for [p] is stepped when [p] has failed: [Await]
    returns the error of [p] and the coroutine returns it, to a result
    future that is complete already. *)
Lemma Step_after_failure (c : nat) (t : task_id) (tk : Task) (p : ptr) (k : prog)
  (frf fp : Future) (x : err) (s : state) :
  tasks s !! t = Some tk -> coro tk = CoSuspended (Some p) k ->
  cause tk = None -> parent_cause s = None ->
  heap s !! resultFut tk = Some frf -> done frf = true ->
  heap s !! p = Some fp -> done fp = true -> err_ fp = Some x ->
  exists s',
    Step zero (S (S (S (S (S c))))) t s = Done s' /\
    heap s' = heap s /\ trace s' = trace s /\
    pendingCallbacks s' = pendingCallbacks s /\ parent_cause s' = None /\
    currentTasks s' = currentTasks s /\
    exists tk', tasks s' !! t = Some tk' /\ coro tk' = CoFinished /\
                cause tk' = None /\ pendingFut tk' = None.
Proof.
  intros Htk Hco Hca Hpa Hrf Hrd Hp Hpd Hpe.
  set (sa := set_currentTasks (currentTasks s ++ [t]) s).
  set (s0 := upd_task t (with_coro CoRunning) sa).
  set (sR := upd_task t (with_coro CoFinished) s0).
  assert (Htk0 : tasks s0 !! t = Some (with_coro CoRunning tk)) by by apply upd_task_self.
  assert (Hh0 : heap s0 = heap s) by exact (heap_upd_task t _ sa).
  assert (Hnext : next zero (S (S (S (S c)))) t sa = Done (sR, None)).
  { rewrite next_S, (get_task_Some t tk sa Htk). cbn [bind]. rewrite Hco. cbv zeta.
    fold s0. unfold Cause. rewrite Hca. unfold s0 at 1. rewrite parent_upd_task.
    change (parent_cause sa) with (parent_cause s). rewrite Hpa, resumed_S.
    rewrite (Result_done zero p fp s0); [|by rewrite Hh0|done].
    cbn [bind snd]. rewrite Hpe, run_Ret, (get_task_Some t _ s0 Htk0).
    cbn [bind resultFut with_coro].
    rewrite (SetResult_done_noop zero c _ frf); [done|by rewrite Hh0|done]. }
  destruct (upd_task_rest t (with_coro CoRunning) sa) as (Hq0 & Htr0 & Hc0).
  fold s0 in Hq0, Htr0, Hc0.
  destruct (upd_task_rest t (with_coro CoFinished) s0) as (HqR & HtrR & HcR).
  fold sR in HqR, HtrR, HcR.
  assert (HhR : heap sR = heap s) by (unfold sR; by rewrite heap_upd_task).
  assert (HpR : parent_cause sR = None).
  { unfold sR, s0. by rewrite !parent_upd_task. }
  assert (HtkR : tasks sR !! t = Some (with_coro CoFinished (with_coro CoRunning tk)))
    by by apply upd_task_self.
  assert (HcurR : currentTasks sR = currentTasks s ++ [t]) by by rewrite HcR, Hc0.
  destruct (Step_to_the_end _ t _ s sR Hnext HcurR HtkR)
    as (s' & HS & Hh & Ht & Hq & Hpp & Hcu & Htk').
  exists s'. split; [exact HS|]. rewrite Hh, Ht, Hq, Hpp, HhR, HpR, HqR, HtrR, Hq0, Htr0.
  repeat (split; [done|]). eexists. split; [exact Htk'|]. done.
Qed.

(** X11: cancelling a task that waits for a future cancels that future
    as well (line 207): the task's result future completes with the
    cause, [context.Canceled] if none was given, the future it waits for
    completes with [context.Canceled] for everyone who holds it, and the
    task is stepped at once, inside [Cancel]: its [Await] returns that
    error, the coroutine returns and nothing of what follows the [Await]
    runs. *)
Theorem cancelling_a_task_cancels_the_future_it_awaits
  (n : nat) (t : task_id) (tk : Task) (p : ptr) (k : prog) (frf fp : Future)
  (e0 : error) (s : state) :
  tasks s !! t = Some tk -> coro tk = CoSuspended (Some p) k ->
  cause tk = None -> pendingFut tk = Some p -> parent_cause s = None ->
  heap s !! resultFut tk = Some frf -> done frf = false ->
  callbacks frf = [CbDone (DcTaskDone t)] ->
  heap s !! p = Some fp -> done fp = false -> callbacks fp = [CbDone (DcStep t)] ->
  p <> resultFut tk -> 11 <= n ->
  exists s',
    Task_Cancel zero n t e0 s = Done s' /\
    Result zero (resultFut tk) s' = Done (zero, cancel_err e0) /\
    Result zero p s' = Done (zero, Some Canceled) /\
    trace s' = trace s /\
    exists tk', tasks s' !! t = Some tk' /\ coro tk' = CoFinished /\
                pendingFut tk' = None.
Proof.
  intros Htk Hco Hca Hpf Hpa Hrf Hrd Hrc Hp Hpd Hpc Hne Hn.
  replace n with (S (S (S (S (S (S (S (S (S (S (S (n - 11)))))))))))) by lia.
  set (c := n - 11).
  set (sA := upd_fut (resultFut tk) (mark_done zero (cancel_err e0) frf) s).
  set (sB := upd_fut p (mark_done zero (cancel_err None) fp) sA).
  assert (HpA : heap sA !! p = Some fp).
  { unfold sA, upd_fut. cbn [heap set_heap]. by rewrite list_lookup_insert_ne. }
  assert (HpB : heap sB !! p = Some (mark_done zero (cancel_err None) fp)).
  { unfold sB, upd_fut. cbn [heap set_heap]. apply list_lookup_insert_eq.
    by eapply lookup_lt_Some. }
  assert (HrB : heap sB !! resultFut tk = Some (mark_done zero (cancel_err e0) frf)).
  { unfold sB, upd_fut. cbn [heap set_heap]. rewrite list_lookup_insert_ne by done.
    unfold sA, upd_fut. cbn [heap set_heap]. apply list_lookup_insert_eq.
    by eapply lookup_lt_Some. }
  destruct (Step_after_failure c t tk p k _ _ Canceled sB Htk Hco Hca Hpa HrB eq_refl
              HpB eq_refl eq_refl)
    as (s1 & HS & Hh & Ht & _ & Hp1 & _ & tk1 & Htk1 & Hco1 & Hca1 & Hpf1).
  exists (upd_task t (with_cause (cancel_err (cancel_err e0))) s1). split.
  - unfold Task_Cancel, Cancel. rewrite (get_task_Some t tk s Htk). cbn [bind].
    rewrite SetResult_S, (get_fut_Some _ frf s Hrf). cbn [bind]. rewrite Hrd, Hrc.
    cbn [foldM]. fold sA. rewrite invoke_S, invoke_done_TaskDone.
    rewrite (get_task_Some t tk sA Htk). cbn [bind]. rewrite Hpf.
    rewrite SetResult_S, (get_fut_Some p fp sA HpA). cbn [bind]. rewrite Hpd, Hpc.
    cbn [foldM]. fold sB. rewrite invoke_S, invoke_done_Step, HS. cbn [bind].
    unfold task_cancel, Cause. by rewrite Htk1, Hca1, Hp1.
  - destruct (upd_task_rest t (with_cause (cancel_err (cancel_err e0))) s1)
      as (_ & Htr & _).
    split; [|split; [|split]].
    + apply (Result_done zero _ (mark_done zero (cancel_err e0) frf)); [|done].
      by rewrite heap_upd_task, Hh.
    + apply (Result_done zero _ (mark_done zero (cancel_err None) fp)); [|done].
      by rewrite heap_upd_task, Hh.
    + by rewrite Htr, Ht.
    + eexists. split; [by apply upd_task_self|]. by split.
Qed.

Lemma run_Await (n : nat) (t : task_id) (f : ptr) (k : prog) (s : state) :
  run zero (S n) t (PAwait f k) s = Yield zero n t (Some f) k s.
Proof. done. Qed.

Lemma Yield_S (n : nat) (t : task_id) (fut : option ptr) (k : prog) (s : state) :
  Yield zero (S n) t fut k s =
  if negb (bool_decide (last (currentTasks s) = Some t)) then Panic
  else
    let* tk := get_task t s in
    match Cause tk s with
    | Some er =>
        let* s1 := SetResult zero n (resultFut tk) zero (cancel_err (Some er)) s in
        let* s2 := match fut with
                   | Some p => SetResult zero n p zero (cancel_err (Some er)) s1
                   | None => Done s1
                   end in
        let* terr := Err (resultFut tk) s2 in
        resumed zero n t terr fut k s2
    | None =>
        Done (upd_task t (with_coro (CoSuspended fut k)) s, Some fut)
    end.
Proof. done. Qed.

(** The store a coroutine leaves when it returns. *)
Lemma returned_fields (t : task_id) (tk0 : Task) (rf : ptr) (m : Future)
  (evs : list event) (e : error) (s0 : state) :
  tasks s0 !! t = Some tk0 ->
  let sR := upd_task t (with_coro CoFinished)
              (upd_task t (with_cause (cancel_err e))
                 (upd_fut rf m (emits evs s0))) in
  heap sR = <[rf := m]> (heap s0) /\ trace sR = trace s0 ++ evs /\
  pendingCallbacks sR = pendingCallbacks s0 /\ parent_cause sR = parent_cause s0 /\
  currentTasks sR = currentTasks s0 /\
  tasks sR !! t = Some (with_coro CoFinished (with_cause (cancel_err e) tk0)).
Proof.
  intros Htk sR. unfold sR. set (sM := upd_fut rf m (emits evs s0)).
  set (sC := upd_task t (with_cause (cancel_err e)) sM).
  destruct (emits_fields evs s0) as (Heh & Het).
  destruct (emits_rest evs s0) as (Hets & Heq & Hec & Hep & _).
  destruct (upd_task_rest t (with_coro CoFinished) sC) as (-> & -> & ->).
  rewrite heap_upd_task, parent_upd_task. unfold sC.
  destruct (upd_task_rest t (with_cause (cancel_err e)) sM) as (-> & -> & ->).
  rewrite heap_upd_task, parent_upd_task. unfold sM, upd_fut.
  cbn [heap trace pendingCallbacks parent_cause currentTasks set_heap].
  rewrite Heh, Het, Heq, Hec, Hep. repeat (split; [done|]).
  apply upd_task_self, upd_task_self. cbn [tasks set_heap]. by rewrite Hets.
Qed.

(** X12: a task that waits for a future goes on when that future
    completes, inside the [SetResult] that completes it, provided the
    context the task was spawned in has not been cancelled and the task
    itself has not been cancelled.  The task is the only one registered
    on the future it waits for, its own result future is pending and
    carries only the task's own completion callback, and the rest of the
    coroutine awaits no more.  Then: if the future completes with no
    error the rest of the coroutine runs and the task's result is what
    the coroutine returns; if it completes with an error, [Await] returns
    it, the coroutine returns it and the rest does not run.  (Under a
    cancelled context the resumed task ends with the cause instead.) *)
Theorem completing_a_future_resumes_the_task_that_awaits_it
  (n : nat) (t : task_id) (tk : Task) (p : ptr) (frf fp : Future)
  (tags : list nat) (v v' : V) (e e' : error) (s : state) :
  tasks s !! t = Some tk -> coro tk = CoSuspended (Some p) (straight tags v e) ->
  cause tk = None -> pendingFut tk = Some p -> parent_cause s = None ->
  heap s !! resultFut tk = Some frf -> done frf = false ->
  callbacks frf = [CbDone (DcTaskDone t)] ->
  heap s !! p = Some fp -> done fp = false -> callbacks fp = [CbDone (DcStep t)] ->
  p <> resultFut tk -> length tags + 11 <= n ->
  exists s',
    SetResult zero n p v' e' s = Done s' /\
    Result zero p s' = Done (v', e') /\
    Result zero (resultFut tk) s' =
      Done (match e' with None => (v, e) | Some _ => (zero, e') end) /\
    trace s' = trace s ++ match e' with
                          | None => map (EvMark t) tags
                          | Some _ => []
                          end /\
    exists tk', tasks s' !! t = Some tk' /\ coro tk' = CoFinished.
Proof.
  intros Htk Hco Hca Hpf Hpa Hrf Hrd Hrc Hp Hpd Hpc Hne Hn.
  set (tags' := match e' with None => tags | Some _ => [] end).
  set (v1 := match e' with None => v | Some _ => zero end).
  set (e1 := match e' with None => e | Some _ => e' end).
  assert (Hlen : length tags' <= length tags) by (unfold tags'; destruct e'; simpl; lia).
  replace n with (S (S (S (S (S (S (length tags' + (5 + (n - length tags' - 11)))))))))
    by lia.
  set (c := n - length tags' - 11).
  set (sB := upd_fut p (mark_done v' e' fp) s).
  set (sa := set_currentTasks (currentTasks sB ++ [t]) sB).
  set (s0 := upd_task t (with_coro CoRunning) sa).
  assert (Hh0 : heap s0 = <[p := mark_done v' e' fp]> (heap s))
    by exact (heap_upd_task t _ sa).
  assert (Hp0 : heap s0 !! p = Some (mark_done v' e' fp)).
  { rewrite Hh0. apply list_lookup_insert_eq. by eapply lookup_lt_Some. }
  assert (Hr0 : heap s0 !! resultFut tk = Some frf).
  { rewrite Hh0. by rewrite list_lookup_insert_ne. }
  assert (Htk0 : tasks s0 !! t = Some (with_coro CoRunning tk)) by by apply upd_task_self.
  assert (Hpa0 : parent_cause s0 = None) by (unfold s0; by rewrite parent_upd_task).
  assert (Hrun := run_straight c t (with_coro CoRunning tk) frf v1 e1 tags' s0 Htk0 Hca).
  cbn [pendingFut resultFut with_coro] in Hrun. rewrite Hpf in Hrun.
  specialize (Hrun (ex_intro _ _ (conj Hp0 eq_refl))).
  specialize (Hrun ltac:(congruence) Hpa0 Hr0 Hrd Hrc).
  set (sR := upd_task t (with_coro CoFinished) _) in Hrun.
  assert (Hnext : next zero (S (S (length tags' + (5 + c)))) t sa = Done (sR, None)).
  { rewrite next_S, (get_task_Some t tk sa Htk). cbn [bind]. rewrite Hco. cbv zeta.
    fold s0. unfold Cause. rewrite Hca, Hpa0, resumed_S.
    rewrite (Result_done zero p _ s0 Hp0 eq_refl). cbn [bind snd err_ mark_done].
    unfold tags', v1, e1 in Hrun. by destruct e'. }
  destruct (returned_fields t _ (resultFut tk) (mark_done v1 e1 frf)
              (map (EvMark t) tags') e1 s0 Htk0) as (HRh & HRt & HRq & HRp & HRc & HRtk).
  fold sR in HRh, HRt, HRq, HRp, HRc, HRtk.
  destruct (upd_task_rest t (with_coro CoRunning) sa) as (_ & Htr0 & Hc0).
  fold s0 in Htr0, Hc0.
  assert (HcurR : currentTasks sR = currentTasks sB ++ [t]) by by rewrite HRc, Hc0.
  destruct (Step_to_the_end _ t _ sB sR Hnext HcurR HRtk)
    as (s' & HS & Hh & Ht & _ & _ & _ & Htk').
  exists s'. split.
  - rewrite SetResult_S, (get_fut_Some p fp s Hp). cbn [bind]. rewrite Hpd, Hpc.
    cbn [foldM]. fold sB. by rewrite invoke_S, invoke_done_Step, HS.
  - split; [|split; [|split]].
    + apply (Result_done zero p (mark_done v' e' fp)); [|done].
      rewrite Hh, HRh, list_lookup_insert_ne by congruence. exact Hp0.
    + replace (match e' with None => (v, e) | Some _ => (zero, e') end) with (v1, e1)
        by (unfold v1, e1; by destruct e').
      apply (Result_done zero _ (mark_done v1 e1 frf)); [|done].
      rewrite Hh, HRh. apply list_lookup_insert_eq. by eapply lookup_lt_Some.
    + rewrite Ht, HRt, Htr0. unfold tags'. by destruct e'.
    + eexists. split; [exact Htk'|done].
Qed.

(** The step of a task that waits for a future which has its result. *)
Lemma Step_suspended_on_done (c : nat) (t : task_id) (tk : Task) (p : ptr)
  (frf fp : Future) (tags : list nat) (v : V) (e : error) (s : state) :
  tasks s !! t = Some tk -> coro tk = CoSuspended (Some p) (straight tags v e) ->
  cause tk = None -> pendingFut tk = Some p -> parent_cause s = None ->
  heap s !! resultFut tk = Some frf -> done frf = false ->
  callbacks frf = [CbDone (DcTaskDone t)] ->
  heap s !! p = Some fp -> done fp = true -> p <> resultFut tk ->
  let tags' := match err_ fp with None => tags | Some _ => [] end in
  let v1 := match err_ fp with None => v | Some _ => zero end in
  let e1 := match err_ fp with None => e | Some _ => err_ fp end in
  exists s',
    Step zero (S (S (S (length tags' + (5 + c))))) t s = Done s' /\
    heap s' = <[resultFut tk := mark_done v1 e1 frf]> (heap s) /\
    trace s' = trace s ++ map (EvMark t) tags' /\
    pendingCallbacks s' = pendingCallbacks s /\ parent_cause s' = None /\
    currentTasks s' = currentTasks s /\
    exists tk', tasks s' !! t = Some tk' /\ coro tk' = CoFinished.
Proof.
  intros Htk Hco Hca Hpf Hpa Hrf Hrd Hrc Hp Hpd Hne tags' v1 e1.
  set (sa := set_currentTasks (currentTasks s ++ [t]) s).
  set (s0 := upd_task t (with_coro CoRunning) sa).
  assert (Hh0 : heap s0 = heap s) by exact (heap_upd_task t _ sa).
  assert (Htk0 : tasks s0 !! t = Some (with_coro CoRunning tk)) by by apply upd_task_self.
  assert (Hpa0 : parent_cause s0 = None) by (unfold s0; by rewrite parent_upd_task).
  assert (Hrun := run_straight c t (with_coro CoRunning tk) frf v1 e1 tags' s0 Htk0 Hca).
  cbn [pendingFut resultFut with_coro] in Hrun. rewrite Hpf, Hh0 in Hrun.
  assert (Hp0 : heap s0 !! p = Some fp) by by rewrite Hh0.
  specialize (Hrun (ex_intro _ _ (conj Hp0 Hpd))).
  specialize (Hrun ltac:(congruence) Hpa0 Hrf Hrd Hrc).
  set (sR := upd_task t (with_coro CoFinished) _) in Hrun.
  assert (Hnext : next zero (S (S (length tags' + (5 + c)))) t sa = Done (sR, None)).
  { rewrite next_S, (get_task_Some t tk sa Htk). cbn [bind]. rewrite Hco. cbv zeta.
    fold s0. unfold Cause. rewrite Hca, Hpa0, resumed_S.
    rewrite (Result_done zero p fp s0); [|by rewrite Hh0|done]. cbn [bind snd].
    unfold tags', v1, e1 in Hrun. by destruct (err_ fp). }
  destruct (returned_fields t _ (resultFut tk) (mark_done v1 e1 frf)
              (map (EvMark t) tags') e1 s0 Htk0) as (HRh & HRt & HRq & HRp & HRc & HRtk).
  fold sR in HRh, HRt, HRq, HRp, HRc, HRtk.
  destruct (upd_task_rest t (with_coro CoRunning) sa) as (Hq0 & Htr0 & Hc0).
  fold s0 in Hq0, Htr0, Hc0.
  assert (HcurR : currentTasks sR = currentTasks s ++ [t]) by by rewrite HRc, Hc0.
  destruct (Step_to_the_end _ t _ s sR Hnext HcurR HRtk)
    as (s' & HS & Hh & Ht & Hq & Hpp & Hcu & Htk').
  exists s'. split; [exact HS|].
  rewrite Hh, Ht, Hq, Hpp, HRh, HRt, HRq, HRp, Hh0, Htr0, Hq0, Hpa0.
  repeat (split; [done|]). eexists. split; [exact Htk'|done].
Qed.

(** X13: a coroutine that awaits a future which already has its result
    is not put back on the loop: [Step] registers its callback on the
    future (line 236), the callback runs at once and steps the task again,
    so the first step of the task runs the coroutine through the [Await]
    to its end. *)
Theorem awaiting_a_completed_future_goes_on_in_the_same_step
  (n : nat) (t : task_id) (tk : Task) (p : ptr) (frf fp : Future)
  (tags : list nat) (v : V) (e : error) (s : state) :
  tasks s !! t = Some tk -> coro tk = CoNew (PAwait p (straight tags v e)) ->
  cause tk = None -> pendingFut tk = None -> parent_cause s = None ->
  heap s !! resultFut tk = Some frf -> done frf = false ->
  callbacks frf = [CbDone (DcTaskDone t)] ->
  heap s !! p = Some fp -> done fp = true -> p <> resultFut tk ->
  length tags + 12 <= n ->
  exists s',
    Step zero n t s = Done s' /\
    Result zero (resultFut tk) s' =
      Done (match err_ fp with None => (v, e) | Some _ => (zero, err_ fp) end) /\
    trace s' = trace s ++ EvStart t :: match err_ fp with
                                       | None => map (EvMark t) tags
                                       | Some _ => []
                                       end /\
    pendingCallbacks s' = pendingCallbacks s /\
    exists tk', tasks s' !! t = Some tk' /\ coro tk' = CoFinished.
Proof.
  intros Htk Hco Hca Hpf Hpa Hrf Hrd Hrc Hp Hpd Hne Hn.
  set (k := straight tags v e) in *.
  set (tags' := match err_ fp with None => tags | Some _ => [] end).
  assert (Hlen : length tags' <= length tags)
    by (unfold tags'; destruct (err_ fp); simpl; lia).
  replace n with (S (S (S (S (S (S (S (length tags' + (5 + (n - length tags' - 12))))))))))
    by lia.
  set (c := n - length tags' - 12).
  set (sa := set_currentTasks (currentTasks s ++ [t]) s).
  set (s0 := emit (EvStart t) (upd_task t (with_coro CoRunning) sa)).
  set (sY := upd_task t (with_coro (CoSuspended (Some p) k)) s0).
  set (s1 := upd_task t (with_pendingFut (Some p)) sY).
  set (s2 := set_currentTasks (currentTasks s) s1).
  destruct (upd_task_rest t (with_coro CoRunning) sa) as (Hq0 & Htr0 & Hc0).
  destruct (upd_task_rest t (with_coro (CoSuspended (Some p) k)) s0) as (HqY & HtrY & HcY).
  destruct (upd_task_rest t (with_pendingFut (Some p)) sY) as (Hq1 & Htr1 & Hc1).
  fold sY in HqY, HtrY, HcY. fold s1 in Hq1, Htr1, Hc1.
  assert (Hcur0 : currentTasks s0 = currentTasks s ++ [t]) by exact Hc0.
  assert (Hpa0 : parent_cause s0 = None) by exact (eq_trans (parent_upd_task t _ sa) Hpa).
  assert (Htk0 : tasks s0 !! t = Some (with_coro CoRunning tk))
    by exact (upd_task_self t _ tk sa Htk).
  assert (HtkY : tasks sY !! t = Some (with_coro (CoSuspended (Some p) k)
                                          (with_coro CoRunning tk)))
    by by apply upd_task_self.
  assert (Htk2 : tasks s2 !! t = Some (with_pendingFut (Some p)
                   (with_coro (CoSuspended (Some p) k) (with_coro CoRunning tk))))
    by exact (upd_task_self t _ _ sY HtkY).
  assert (Hh2 : heap s2 = heap s).
  { unfold s2, s1, sY. cbn [heap set_currentTasks]. rewrite !heap_upd_task.
    exact (heap_upd_task t _ sa). }
  assert (Hpa2 : parent_cause s2 = None).
  { unfold s2, s1, sY. cbn [parent_cause set_currentTasks]. by rewrite !parent_upd_task. }
  assert (Htr2 : trace s2 = trace s ++ [EvStart t]).
  { unfold s2. cbn [trace set_currentTasks]. rewrite Htr1, HtrY. unfold s0.
    cbn [trace emit]. by rewrite Htr0. }
  assert (Hq2 : pendingCallbacks s2 = pendingCallbacks s).
  { unfold s2. cbn [pendingCallbacks set_currentTasks]. rewrite Hq1, HqY. unfold s0.
    cbn [pendingCallbacks emit]. by rewrite Hq0. }
  destruct (Step_suspended_on_done c t _ p frf fp tags v e s2 Htk2 eq_refl Hca eq_refl
              Hpa2) as (s' & HS & Hh & Ht & Hq & _ & _ & Htk');
    [by rewrite Hh2|done|done|by rewrite Hh2|done|done|].
  cbn [resultFut with_pendingFut with_coro] in Hh. fold tags' in HS, Ht.
  exists s'. split.
  - rewrite Step_S. cbv zeta. fold sa.
    rewrite next_S, (get_task_Some t tk sa Htk). cbn [bind]. rewrite Hco. fold s0.
    rewrite run_Await, Yield_S, Hcur0, last_snoc, bool_decide_eq_true_2 by done.
    cbn [negb]. rewrite (get_task_Some t _ s0 Htk0). cbn [bind]. unfold Cause.
    cbn [cause with_coro]. rewrite Hca, Hpa0. fold sY. cbn [bind fst snd default].
    unfold id. fold s1. rewrite Hc1, HcY, Hcur0, last_snoc, bool_decide_eq_true_2 by done.
    cbn [negb]. fold s2. rewrite AddResultCallback_S.
    rewrite (get_fut_Some p fp s2) by by rewrite Hh2. cbn [bind]. rewrite Hpd.
    rewrite invoke_S, invoke_done_Step. exact HS.
  - split; [|split; [|split]].
    + replace (match err_ fp with None => (v, e) | Some _ => (zero, err_ fp) end)
        with (match err_ fp with None => v | Some _ => zero end,
              match err_ fp with None => e | Some _ => err_ fp end)
        by by destruct (err_ fp).
      apply (Result_done zero _ (mark_done _ _ frf)); [|done]. rewrite Hh.
      apply list_lookup_insert_eq. rewrite Hh2. by eapply lookup_lt_Some.
    + rewrite Ht, Htr2, <- app_assoc. unfold tags'. by destruct (err_ fp).
    + by rewrite Hq, Hq2.
    + exact Htk'.
Qed.

(** X16: a task that is resumed after the context it was spawned in has
    been cancelled does not go on (line 197): the future it waited for
    completes as asked, but the task's result future is cancelled with the
    cause of the context, the coroutine gets that error from [Await] and
    returns, and nothing of what follows the [Await] runs. *)
Theorem a_task_resumed_under_a_cancelled_context_ends_with_the_cause
  (n : nat) (t : task_id) (tk : Task) (p : ptr) (k : prog) (frf fp : Future)
  (v' : V) (e' : error) (er : err) (s : state) :
  tasks s !! t = Some tk -> coro tk = CoSuspended (Some p) k ->
  cause tk = None -> pendingFut tk = Some p -> parent_cause s = Some er ->
  heap s !! resultFut tk = Some frf -> done frf = false ->
  callbacks frf = [CbDone (DcTaskDone t)] ->
  heap s !! p = Some fp -> done fp = false -> callbacks fp = [CbDone (DcStep t)] ->
  p <> resultFut tk -> 9 <= n ->
  exists s',
    SetResult zero n p v' e' s = Done s' /\
    Result zero p s' = Done (v', e') /\
    Result zero (resultFut tk) s' = Done (zero, Some er) /\
    trace s' = trace s /\
    exists tk', tasks s' !! t = Some tk' /\ coro tk' = CoFinished.
Proof.
  intros Htk Hco Hca Hpf Hpa Hrf Hrd Hrc Hp Hpd Hpc Hne Hn.
  replace n with (S (S (S (S (S (S (S (S (S (n - 9)))))))))) by lia. set (c := n - 9).
  set (sB := upd_fut p (mark_done v' e' fp) s).
  set (sa := set_currentTasks (currentTasks sB ++ [t]) sB).
  set (s0 := upd_task t (with_coro CoRunning) sa).
  set (sC := upd_fut (resultFut tk) (mark_done zero (Some er) frf) s0).
  set (sR := upd_task t (with_coro CoFinished) sC).
  assert (Hh0 : heap s0 = <[p := mark_done v' e' fp]> (heap s))
    by exact (heap_upd_task t _ sa).
  assert (Hr0 : heap s0 !! resultFut tk = Some frf).
  { rewrite Hh0. by rewrite list_lookup_insert_ne. }
  assert (HrC : heap sC !! resultFut tk = Some (mark_done zero (Some er) frf)).
  { unfold sC, upd_fut. cbn [heap set_heap]. apply list_lookup_insert_eq.
    by eapply lookup_lt_Some. }
  assert (HpC : heap sC !! p = Some (mark_done v' e' fp)).
  { unfold sC, upd_fut. cbn [heap set_heap]. rewrite list_lookup_insert_ne by done.
    rewrite Hh0. apply list_lookup_insert_eq. by eapply lookup_lt_Some. }
  assert (Htk0 : tasks s0 !! t = Some (with_coro CoRunning tk)) by by apply upd_task_self.
  assert (Hpa0 : parent_cause s0 = Some er) by (unfold s0; by rewrite parent_upd_task).
  assert (Hset : SetResult zero (S (S (S (S c)))) (resultFut tk) zero
                   (cancel_err (Some er)) s0 = Done sC).
  { rewrite SetResult_S, (get_fut_Some _ frf s0 Hr0). cbn [bind]. rewrite Hrd, Hrc.
    cbn [foldM cancel_err]. fold sC. rewrite invoke_S, invoke_done_TaskDone.
    rewrite (get_task_Some t _ sC Htk0). cbn [bind pendingFut with_coro]. rewrite Hpf.
    rewrite (SetResult_done_noop zero c p _ _ _ sC HpC eq_refl). cbn [bind].
    unfold task_cancel, Cause. change (tasks sC) with (tasks s0). rewrite Htk0.
    cbn [cause with_coro]. rewrite Hca. change (parent_cause sC) with (parent_cause s0).
    by rewrite Hpa0. }
  assert (Hnext : next zero (S (S (S (S (S c))))) t sa = Done (sR, None)).
  { rewrite next_S, (get_task_Some t tk sa Htk). cbn [bind]. rewrite Hco. cbv zeta.
    fold s0. unfold Cause. rewrite Hca, Hpa0, Hset. cbn [bind]. unfold Err. rewrite (get_fut_Some _ _ sC HrC).
    cbn [bind err_ mark_done]. rewrite resumed_S, run_Ret.
    rewrite (get_task_Some t _ sC Htk0). cbn [bind resultFut with_coro].
    by rewrite (SetResult_done_noop zero (S c) _ _ _ _ sC HrC eq_refl). }
  destruct (upd_task_rest t (with_coro CoRunning) sa) as (_ & Htr0 & Hc0).
  fold s0 in Htr0, Hc0.
  destruct (upd_task_rest t (with_coro CoFinished) sC) as (_ & HtrR & HcR).
  fold sR in HtrR, HcR.
  assert (HtkR : tasks sR !! t = Some (with_coro CoFinished (with_coro CoRunning tk)))
    by by apply upd_task_self.
  assert (HcurR : currentTasks sR = currentTasks sB ++ [t]) by by rewrite HcR.
  destruct (Step_to_the_end _ t _ sB sR Hnext HcurR HtkR)
    as (s' & HS & Hh & Ht & _ & _ & _ & Htk').
  assert (HhR : heap sR = heap sC) by apply heap_upd_task.
  exists s'. split.
  - rewrite SetResult_S, (get_fut_Some p fp s Hp). cbn [bind]. rewrite Hpd, Hpc.
    cbn [foldM]. fold sB. by rewrite invoke_S, invoke_done_Step, HS.
  - split; [|split; [|split]].
    + apply (Result_done zero p (mark_done v' e' fp)); [|done]. by rewrite Hh, HhR.
    + apply (Result_done zero _ (mark_done zero (Some er) frf)); [|done].
      by rewrite Hh, HhR.
    + rewrite Ht, HtrR. exact Htr0.
    + eexists. split; [exact Htk'|done].
Qed.

Lemma run_to_the_yield (n : nat) (t : task_id) (k : prog) :
  forall (tags : list nat) (s : state),
    run zero (length tags + S n) t (then_yield tags k) s =
    Yield zero n t None k (emits (map (EvMark t) tags) s).
Proof.
  induction tags as [|tag tags IH]; intros s; [done|].
  change (then_yield (tag :: tags) k) with (PMark tag (then_yield tags k)).
  cbn [length map]. change (S (length tags) + S n) with (S (length tags + S n)).
  rewrite run_Mark. by rewrite IH.
Qed.

(** The step that starts a coroutine which yields to the loop: the task
    is queued to be stepped again (line 240). *)
Lemma Step_new_yield (c : nat) (t : task_id) (tk : Task) (tags : list nat) (k : prog)
  (s : state) :
  tasks s !! t = Some tk -> coro tk = CoNew (then_yield tags k) ->
  cause tk = None -> parent_cause s = None ->
  exists s',
    Step zero (S (S (length tags + S (S c)))) t s = Done s' /\
    heap s' = heap s /\ trace s' = trace s ++ EvStart t :: map (EvMark t) tags /\
    pendingCallbacks s' =
      Add {| callback_ := LcStep t; when := (now s + 0)%Z |} (pendingCallbacks s) /\
    parent_cause s' = None /\ now s' = now s /\
    tasks s' !! t = Some (with_pendingFut None (with_coro (CoSuspended None k)
                                                 (with_coro CoRunning tk))).
Proof.
  intros Htk Hco Hca Hpa.
  set (sa := set_currentTasks (currentTasks s ++ [t]) s).
  set (s0 := emit (EvStart t) (upd_task t (with_coro CoRunning) sa)).
  set (sE := emits (map (EvMark t) tags) s0).
  set (sY := upd_task t (with_coro (CoSuspended None k)) sE).
  set (s1 := upd_task t (with_pendingFut None) sY).
  destruct (upd_task_rest t (with_coro CoRunning) sa) as (Hq0 & Htr0 & Hc0).
  destruct (emits_fields (map (EvMark t) tags) s0) as (HhE & HtE).
  destruct (emits_rest (map (EvMark t) tags) s0) as (HtsE & HqE & HcE & HpE & HnE).
  fold sE in HhE, HtE, HtsE, HqE, HcE, HpE, HnE.
  destruct (upd_task_rest t (with_coro (CoSuspended None k)) sE) as (HqY & HtrY & HcY).
  fold sY in HqY, HtrY, HcY.
  destruct (upd_task_rest t (with_pendingFut None) sY) as (Hq1 & Htr1 & Hc1).
  fold s1 in Hq1, Htr1, Hc1.
  assert (Htk0 : tasks s0 !! t = Some (with_coro CoRunning tk))
    by exact (upd_task_self t _ tk sa Htk).
  assert (HtkE : tasks sE !! t = Some (with_coro CoRunning tk)) by by rewrite HtsE.
  assert (HcurE : currentTasks sE = currentTasks s ++ [t]) by (rewrite HcE; exact Hc0).
  assert (HpaE : parent_cause sE = None).
  { rewrite HpE. exact (eq_trans (parent_upd_task t _ sa) Hpa). }
  assert (Hnow : forall (g : Task -> Task) (x : state), now (upd_task t g x) = now x).
  { intros g x. unfold upd_task. by destruct (tasks x !! t). }
  eexists. split.
  - rewrite Step_S. cbv zeta. fold sa.
    rewrite next_S, (get_task_Some t tk sa Htk). cbn [bind]. rewrite Hco. fold s0.
    rewrite run_to_the_yield. fold sE.
    rewrite Yield_S, HcurE, last_snoc, bool_decide_eq_true_2 by done. cbn [negb].
    rewrite (get_task_Some t _ sE HtkE). cbn [bind]. unfold Cause.
    cbn [cause with_coro]. rewrite Hca, HpaE. fold sY. cbn [bind fst snd default].
    unfold id. fold s1. rewrite Hc1, HcY, HcurE, last_snoc, bool_decide_eq_true_2 by done.
    cbn [negb]. reflexivity.
  - unfold RunCallback, ScheduleCallback, NewCallback.
    cbn [heap trace pendingCallbacks parent_cause now tasks set_pendingCallbacks
         set_currentTasks].
    assert (Hh1 : heap s1 = heap s).
    { unfold s1, sY. rewrite !heap_upd_task, HhE. exact (heap_upd_task t _ sa). }
    assert (Hn1 : now s1 = now s).
    { unfold s1, sY. rewrite !Hnow, HnE. exact (Hnow _ sa). }
    assert (Hp1 : parent_cause s1 = None).
    { unfold s1, sY. rewrite !parent_upd_task. exact HpaE. }
    assert (Htr : trace s1 = trace s ++ EvStart t :: map (EvMark t) tags).
    { rewrite Htr1, HtrY, HtE. unfold s0. cbn [trace emit]. rewrite Htr0.
      by rewrite <- app_assoc. }
    assert (Hq : pendingCallbacks s1 = pendingCallbacks s).
    { rewrite Hq1, HqY, HqE. exact Hq0. }
    rewrite Hh1, Hn1, Hp1, Htr, Hq. repeat (split; [done|]).
    apply upd_task_self, upd_task_self. exact HtkE.
Qed.

(** The step of a task that yielded to the loop and whose coroutine then
    returns. *)
Lemma Step_suspended_none (c : nat) (t : task_id) (tk : Task) (frf : Future)
  (tags : list nat) (v : V) (e : error) (s : state) :
  tasks s !! t = Some tk -> coro tk = CoSuspended None (straight tags v e) ->
  cause tk = None -> pendingFut tk = None -> parent_cause s = None ->
  heap s !! resultFut tk = Some frf -> done frf = false ->
  callbacks frf = [CbDone (DcTaskDone t)] ->
  exists s',
    Step zero (S (S (S (length tags + (5 + c))))) t s = Done s' /\
    heap s' = <[resultFut tk := mark_done v e frf]> (heap s) /\
    trace s' = trace s ++ map (EvMark t) tags /\
    pendingCallbacks s' = pendingCallbacks s /\ parent_cause s' = None /\
    exists tk', tasks s' !! t = Some tk' /\ coro tk' = CoFinished.
Proof.
  intros Htk Hco Hca Hpf Hpa Hrf Hrd Hrc.
  set (sa := set_currentTasks (currentTasks s ++ [t]) s).
  set (s0 := upd_task t (with_coro CoRunning) sa).
  assert (Hh0 : heap s0 = heap s) by exact (heap_upd_task t _ sa).
  assert (Htk0 : tasks s0 !! t = Some (with_coro CoRunning tk)) by by apply upd_task_self.
  assert (Hpa0 : parent_cause s0 = None) by (unfold s0; by rewrite parent_upd_task).
  assert (Hrun := run_straight c t (with_coro CoRunning tk) frf v e tags s0 Htk0 Hca).
  cbn [pendingFut resultFut with_coro] in Hrun. rewrite Hpf, Hh0 in Hrun.
  specialize (Hrun I ltac:(done) Hpa0 Hrf Hrd Hrc).
  set (sR := upd_task t (with_coro CoFinished) _) in Hrun.
  assert (Hnext : next zero (S (S (length tags + (5 + c)))) t sa = Done (sR, None)).
  { rewrite next_S, (get_task_Some t tk sa Htk). cbn [bind]. rewrite Hco. cbv zeta.
    fold s0. unfold Cause. by rewrite Hca, Hpa0, resumed_S. }
  destruct (returned_fields t _ (resultFut tk) (mark_done v e frf)
              (map (EvMark t) tags) e s0 Htk0) as (HRh & HRt & HRq & HRp & HRc & HRtk).
  fold sR in HRh, HRt, HRq, HRp, HRc, HRtk.
  destruct (upd_task_rest t (with_coro CoRunning) sa) as (Hq0 & Htr0 & Hc0).
  fold s0 in Hq0, Htr0, Hc0.
  assert (HcurR : currentTasks sR = currentTasks s ++ [t]) by by rewrite HRc, Hc0.
  destruct (Step_to_the_end _ t _ s sR Hnext HcurR HRtk)
    as (s' & HS & Hh & Ht & Hq & Hpp & _ & Htk').
  exists s'. split; [exact HS|].
  rewrite Hh, Ht, Hq, Hpp, HRh, HRt, HRq, HRp, Hh0, Htr0, Hq0, Hpa0.
  repeat (split; [done|]). eexists. split; [exact Htk'|done].
Qed.

(** X18: a coroutine that yields to the loop with no future is queued
    again with no delay (line 240) and the pass of [runReadyCallbacks]
    that started it resumes it: spawned when no callback is queued, it has
    run to its end when the pass returns, its result future has what it
    returned and the queue is empty. *)
Theorem a_task_that_yields_is_resumed_in_the_same_pass
  (n : nat) (tags1 tags2 : list nat) (v : V) (e : error) (s : state) :
  pendingCallbacks s = [] -> parent_cause s = None ->
  length tags1 + length tags2 + 10 <= n ->
  exists s',
    exec_all zero n [OSpawnTask (then_yield tags1 (straight tags2 v e)); ORunReady] s
      = Done s' /\
    Result zero (length (heap s)) s' = Done (v, e) /\
    trace s' = trace s ++ EvStart (length (tasks s))
                 :: map (EvMark (length (tasks s))) tags1
                 ++ map (EvMark (length (tasks s))) tags2 /\
    pendingCallbacks s' = [] /\
    exists tk, tasks s' !! length (tasks s) = Some tk /\ coro tk = CoFinished.
Proof.
  intros Hq Hpa Hn.
  pose (c1 := n - length tags1 - 5). pose (c2 := n - length tags2 - 10).
  assert (H1 : n = S (S (S (length tags1 + S (S c1))))) by (unfold c1; lia).
  assert (H2 : S (S (length tags1 + S (S c1)))
               = S (S (S (S (length tags2 + (5 + c2)))))) by (unfold c1, c2; lia).
  clearbody c1 c2. rewrite H1. clear H1 Hn.
  set (body := then_yield tags1 (straight tags2 v e)).
  unfold exec_all. cbn [foldM exec]. rewrite SpawnTask_spawned. cbn [bind snd].
  set (t := length (tasks s)). set (rf := length (heap s)).
  set (frf := push_callback (CbDone (DcTaskDone t)) (fresh_future zero)).
  set (sq := set_pendingCallbacks [] (spawned zero body s)).
  assert (Htk : tasks sq !! t = Some (new_task body rf)).
  { unfold sq, spawned, RunCallback, ScheduleCallback, upd_fut.
    cbn [tasks set_pendingCallbacks set_heap set_tasks NewFuture snd].
    rewrite lookup_app_r by done. by rewrite Nat.sub_diag. }
  assert (Hheap : heap sq = heap s ++ [frf]).
  { unfold sq, spawned, RunCallback, ScheduleCallback, upd_fut.
    cbn [heap set_pendingCallbacks set_heap set_tasks NewFuture snd].
    rewrite insert_app_r_alt by done. by rewrite Nat.sub_diag. }
  assert (Hrf : heap sq !! rf = Some frf).
  { rewrite Hheap, lookup_app_r by done. by rewrite Nat.sub_diag. }
  destruct (Step_new_yield c1 t (new_task body rf) tags1 (straight tags2 v e) sq Htk
              eq_refl eq_refl Hpa)
    as (s1 & HS1 & Hh1 & Ht1 & Hq1 & Hp1 & Hn1 & Htk1).
  cbn [pendingCallbacks sq set_pendingCallbacks Add] in Hq1.
  set (sq2 := set_pendingCallbacks [] s1).
  destruct (Step_suspended_none c2 t _ frf tags2 v e sq2 Htk1 eq_refl eq_refl eq_refl Hp1)
    as (s2 & HS2 & Hh2 & Ht2 & Hq2 & Hp2 & Htk2);
    [by (cbn [heap sq2 set_pendingCallbacks resultFut with_pendingFut with_coro new_task];
         rewrite Hh1)|done|done|].
  cbn [resultFut with_pendingFut with_coro new_task] in Hh2.
  exists s2. split.
  - rewrite runReadyCallbacks_S.
    assert (Hqs : pendingCallbacks (spawned zero body s)
                  = [NewCallback 0 (LcStart t)
                       (upd_fut rf frf (set_tasks (tasks s ++ [new_task body rf])
                                          (snd (NewFuture zero s))))]).
    { unfold spawned, RunCallback, ScheduleCallback. cbn [pendingCallbacks
        set_pendingCallbacks upd_fut set_heap set_tasks NewFuture snd]. by rewrite Hq. }
    change (parent_cause (spawned zero body s)) with (parent_cause s).
    rewrite Hpa, Hqs. cbn [when NewCallback]. change (now (upd_fut _ _ _)) with (now s).
    change (now (spawned zero body s)) with (now s). rewrite time_Until_now.
    unfold RunFirst at 1. rewrite Hqs. cbn [callback_ NewCallback run_loop_callback].
    fold sq. rewrite (get_task_Some t _ sq Htk). cbn [bind resultFut new_task].
    rewrite (HasResult_of rf frf sq Hrf). cbn [bind done frf push_callback fresh_future].
    unfold Cause. cbn [cause new_task]. change (parent_cause sq) with (parent_cause s).
    rewrite Hpa, HS1. cbn [bind]. rewrite H2, runReadyCallbacks_S, Hp1, Hq1.
    cbn [when]. rewrite Hn1, time_Until_now. unfold RunFirst. rewrite Hq1.
    cbn [callback_ run_loop_callback]. fold sq2. rewrite HS2. cbn [bind].
    rewrite runReadyCallbacks_S, Hp2, Hq2. done.
  - split; [|split; [|split]].
    + apply (Result_done zero rf (mark_done v e frf)); [|done]. rewrite Hh2.
      apply list_lookup_insert_eq. cbn [heap sq2 set_pendingCallbacks].
      rewrite Hh1, Hheap, length_app. simpl. lia.
    + rewrite Ht2. cbn [trace sq2 set_pendingCallbacks]. rewrite Ht1, <- app_assoc. done.
    + by rewrite Hq2.
    + exact Htk2.
Qed.

End TaskRuns.

(** ** Callbacks of a future *)

Section WatchFacts.

Context {V : Type} (zero : V) (T : nat -> bool).

Local Abbreviation state := (@state V).

Lemma keeps_refl (s : state) : quiet T s -> keeps T s s.
Proof. by split. Qed.

Lemma keeps_trans (s1 s2 s3 : state) :
  keeps T s1 s2 -> keeps T s2 s3 -> keeps T s1 s3.
Proof. intros [_ H1] [H2 H3]. split; [done|]. by rewrite H3. Qed.

Lemma keeps_silent (s s' : state) :
  heap s' = heap s -> trace s' = trace s -> quiet T s -> keeps T s s'.
Proof.
  intros Hh Ht Hq. split.
  - intros q g. rewrite Hh. apply Hq.
  - unfold seen. by rewrite Ht.
Qed.

Lemma seen_emit (ev : event) (s : state) :
  seen T (emit ev s) = seen T s ++ (if tagged T ev then [ev] else []).
Proof. unfold seen. cbn [trace emit]. by rewrite List.filter_app. Qed.

Lemma keeps_emit (ev : event) (s : state) :
  tagged T ev = false -> quiet T s -> keeps T s (emit ev s).
Proof.
  intros Hev Hq. split; [exact Hq|]. by rewrite seen_emit, Hev, app_nil_r.
Qed.

Lemma upd_task_heap_trace (t : task_id) (g : Task -> Task) (s : state) :
  heap (upd_task t g s) = heap s /\ trace (upd_task t g s) = trace s.
Proof. unfold upd_task. by destruct (tasks s !! t). Qed.

Lemma keeps_upd_task (t : task_id) (g : Task -> Task) (s : state) :
  quiet T s -> keeps T s (upd_task t g s).
Proof. destruct (upd_task_heap_trace t g s). by apply keeps_silent. Qed.

Lemma keeps_task_cancel (t : task_id) (e : error) (s : state) :
  quiet T s -> keeps T s (task_cancel t e s).
Proof.
  intros Hq. unfold task_cancel. destruct (tasks s !! t) as [tk|]; [|by apply keeps_refl].
  destruct (Cause tk s); [by apply keeps_refl|by apply keeps_upd_task].
Qed.

(** Completing a future takes it out of the pending ones. *)
Lemma quiet_mark_done (p : ptr) (f : Future) (v : V) (e : error) (s : state) :
  quiet_but p T s -> quiet T (upd_fut p (mark_done v e f) s).
Proof.
  intros Hq q g Hg Hd. cbn [upd_fut heap set_heap] in Hg.
  destruct (decide (q = p)) as [->|Hne].
  - apply list_lookup_insert_Some in Hg as [(_ & <- & _)|(? & _)]; done.
  - rewrite list_lookup_insert_ne in Hg by done. by eapply Hq.
Qed.

Lemma quiet_quiet_but (p : ptr) (s : state) : quiet T s -> quiet_but p T s.
Proof. intros Hq q g _. apply Hq. Qed.

Lemma keeps_mark_done (p : ptr) (f : Future) (v : V) (e : error) (s : state) :
  quiet T s -> keeps T s (upd_fut p (mark_done v e f) s).
Proof. intros Hq. split; [|done]. by apply quiet_mark_done, quiet_quiet_but. Qed.

Lemma keeps_push_callback (p : ptr) (f : Future) (cb : callback) (s : state) :
  quiet T s -> heap s !! p = Some f -> cb_quiet T cb = true ->
  keeps T s (upd_fut p (push_callback cb f) s).
Proof.
  intros Hq Hf Hcb. split; [|done]. intros q g Hg Hd.
  cbn [upd_fut heap set_heap] in Hg. destruct (decide (q = p)) as [->|Hne].
  - apply list_lookup_insert_Some in Hg as [(_ & <- & _)|(? & _)]; [|done].
    cbn [callbacks push_callback]. rewrite forallb_app. cbn [forallb].
    rewrite Hcb. by rewrite (Hq p f Hf Hd).
  - rewrite list_lookup_insert_ne in Hg by done. by eapply Hq.
Qed.

Lemma keeps_NewFuture (s : state) : quiet T s -> keeps T s (snd (NewFuture zero s)).
Proof.
  intros Hq. split; [|done]. intros q g Hg Hd. cbn [NewFuture snd heap set_heap] in Hg.
  apply lookup_app_Some in Hg as [Hg|(_ & Hg)]; [by eapply Hq|].
  destruct (q - length (heap s)); [|done]. by injection Hg as <-.
Qed.

Lemma foldM_keeps {A : Type} (f : A -> state -> res state) (P : A -> bool)
  (l : list A) :
  (forall a s s', quiet T s -> P a = true -> f a s = Done s' -> keeps T s s') ->
  forall s s', quiet T s -> forallb P l = true -> foldM f l s = Done s' -> keeps T s s'.
Proof.
  intros Hf. induction l as [|a l IH]; intros s s' Hq Hl H; simpl in *.
  - injection H as <-. by apply keeps_refl.
  - apply andb_true_iff in Hl as [Ha Hl]. inv_bind H.
    pose proof (Hf _ _ _ Hq Ha E) as Hs. eapply keeps_trans; [exact Hs|].
    apply IH; [apply Hs|done|done].
Qed.

Lemma SetResult_ws (n : nat) : watch_spec zero T n -> ws_SetResult zero T (S n).
Proof.
  intros (_ & IHinv & _) p v e s s' Hq H. simpl in H.
  inv_bind H. inv_get E. destruct (done a) eqn:Hd.
  - injection H as <-. by apply keeps_refl.
  - pose proof (keeps_mark_done p a v e s Hq) as Hs.
    eapply keeps_trans; [exact Hs|].
    eapply (foldM_keeps _ (cb_quiet T)); [|apply Hs|exact (Hq p a E Hd)|exact H].
    intros cb s1 s2 Hq1 Hcb Hi. simpl in Hi. eapply IHinv; eauto.
Qed.

Lemma invoke_ws (n : nat) : watch_spec zero T n -> ws_invoke zero T (S n).
Proof.
  intros (IHset & _ & IHdone & _) cb v e s s' Hq Hcb H. simpl in H.
  destruct cb as [tag|d|fut|f]; simpl in Hcb.
  - injection H as <-. apply keeps_emit; [|done]. simpl. by destruct (T tag).
  - by eapply IHdone.
  - by eapply IHset.
  - destruct (errors_Is e Canceled).
    + injection H as <-. by apply keeps_refl.
    + by eapply IHset.
Qed.

Lemma invoke_done_ws (n : nat) : watch_spec zero T n -> ws_invoke_done zero T (S n).
Proof.
  intros (IHset & _ & _ & _ & IHstep & _) d e s s' Hq Hd H. simpl in H.
  destruct d as [tag|t|t|c mode k w]; simpl in Hd.
  - injection H as <-. apply keeps_emit; [|done]. simpl. by destruct (T tag).
  - inv_bind H. inv_get E. inv_bind H. injection H as <-.
    assert (Hs : keeps T s a0).
    { destruct (pendingFut a) as [p|] eqn:Hp.
      - by eapply IHset.
      - injection E0 as <-. by apply keeps_refl. }
    eapply keeps_trans; [exact Hs|]. apply keeps_task_cancel, Hs.
  - by eapply IHstep.
  - inv_bind H. destruct e as [e|].
    + assert (Hs : keeps T s (set_cells (<[c:=(S (fst a), Some e)]> (cells s)) s))
        by by apply keeps_silent.
      destruct (negb (WaitMode_eqb mode WaitAll)).
      * eapply keeps_trans; [exact Hs|]. eapply IHset; [apply Hs|exact H].
      * by injection H as <-.
    + assert (Hs : keeps T s (set_cells (<[c:=(S (fst a), snd a)]> (cells s)) s))
        by by apply keeps_silent.
      destruct ((k <=? S (fst a)) || WaitMode_eqb mode WaitFirstResult).
      * eapply keeps_trans; [exact Hs|]. eapply IHset; [apply Hs|exact H].
      * by injection H as <-.
Qed.

Lemma AddResultCallback_ws (n : nat) :
  watch_spec zero T n -> ws_AddResultCallback zero T (S n).
Proof.
  intros (_ & IHinv & _) p cb s s' Hq Hcb H. simpl in H.
  inv_bind H. inv_get E. destruct (done a) eqn:Hd.
  - by eapply IHinv.
  - injection H as <-. by apply keeps_push_callback.
Qed.

Lemma Step_ws (n : nat) : watch_spec zero T n -> ws_Step zero T (S n).
Proof.
  intros (_ & _ & _ & IHadd & _ & IHnext & _) t s s' Hq H. simpl in H.
  inv_bind H. destruct a as [sN r]. simpl in H.
  assert (Hs0 : keeps T s (set_currentTasks (currentTasks s ++ [t]) s))
    by by apply keeps_silent.
  pose proof (IHnext _ _ _ (proj1 Hs0) E) as Hs1. simpl in Hs1.
  pose proof (keeps_upd_task t (with_pendingFut (default None r)) _ (proj1 Hs1)) as Hs2.
  set (s1 := upd_task t (with_pendingFut (default None r)) sN) in *.
  destruct (negb (bool_decide (last (currentTasks s1) = Some t))); [done|].
  assert (Hs3 : keeps T s1 (set_currentTasks (currentTasks s) s1))
    by (apply keeps_silent; [done|done|apply Hs2]).
  assert (Hs : keeps T s (set_currentTasks (currentTasks s) s1)).
  { eapply keeps_trans; [exact Hs0|]. eapply keeps_trans; [exact Hs1|].
    eapply keeps_trans; [exact Hs2|exact Hs3]. }
  eapply keeps_trans; [exact Hs|]. destruct r as [[p|]|].
  - eapply IHadd; [apply Hs| |exact H]. done.
  - injection H as <-. apply keeps_silent; [done|done|apply Hs].
  - injection H as <-. apply keeps_upd_task, Hs.
Qed.

Lemma next_ws (n : nat) : watch_spec zero T n -> ws_next zero T (S n).
Proof.
  intros (IHset & _ & _ & _ & _ & _ & IHres & IHrun & _) t s r Hq H. simpl in H.
  inv_bind H. inv_get E.
  pose proof (keeps_upd_task t (with_coro CoRunning) s Hq) as Hs0.
  destruct (coro a) as [body|fut k| |] eqn:Hcoro.
  - assert (Hs1 : keeps T (upd_task t (with_coro CoRunning) s)
                    (emit (EvStart t) (upd_task t (with_coro CoRunning) s)))
      by (apply keeps_emit; [done|apply Hs0]).
    pose proof (IHrun _ _ _ _ (proj1 Hs1) H) as Hs2.
    eapply keeps_trans; [exact Hs0|]. by eapply keeps_trans.
  - destruct (Cause a (upd_task t (with_coro CoRunning) s)) as [er|].
    + inv_bind H. inv_bind H.
      pose proof (IHset _ _ _ _ _ (proj1 Hs0) E0) as Hs1.
      pose proof (IHres _ _ _ _ _ _ (proj1 Hs1) H) as Hs2.
      eapply keeps_trans; [exact Hs0|]. by eapply keeps_trans.
    + pose proof (IHres _ _ _ _ _ _ (proj1 Hs0) H) as Hs2.
      by eapply keeps_trans.
  - done.
  - injection H as <-. by apply keeps_refl.
Qed.

Lemma resumed_ws (n : nat) : watch_spec zero T n -> ws_resumed zero T (S n).
Proof.
  intros (_ & _ & _ & _ & _ & _ & _ & IHrun & _) t yerr fut k s r Hq H.
  simpl in H. destruct yerr as [e|]; [exact (IHrun t (PRet zero (Some e)) _ _ Hq H)|].
  destruct fut as [p|]; [|exact (IHrun _ _ _ _ Hq H)].
  inv_bind H. destruct (snd a) as [e|].
  - exact (IHrun t (PRet zero (Some e)) _ _ Hq H).
  - exact (IHrun _ _ _ _ Hq H).
Qed.

Lemma run_ws (n : nat) : watch_spec zero T n -> ws_run zero T (S n).
Proof.
  intros (IHset & _ & _ & _ & _ & _ & _ & IHrun & IHyield) t k s r Hq H.
  simpl in H. destruct k as [v e|tag k|f k|k|m k|m k].
  - inv_bind H. inv_get E. inv_bind H. injection H as <-. simpl.
    pose proof (IHset _ _ _ _ _ Hq E0) as Hs1.
    eapply keeps_trans; [exact Hs1|]. apply keeps_upd_task, Hs1.
  - assert (Hs0 : keeps T s (emit (EvMark t tag) s)) by by apply keeps_emit.
    pose proof (IHrun _ _ _ _ (proj1 Hs0) H) as Hs1. by eapply keeps_trans.
  - exact (IHyield t (Some f) k s r Hq H).
  - exact (IHyield t None k s r Hq H).
  - inv_bind H. inv_get E. inv_bind H. destruct a0.
    + exact (IHyield t a (PLock m k) s r Hq H).
    + pose proof (keeps_NewFuture s Hq) as Hs0. simpl in Hs0.
      set (s1 := set_heap (heap s ++ [fresh_future zero]) s) in *.
      assert (Hs1 : keeps T s1 (set_mutexes (<[m:=Some (length (heap s))]> (mutexes s1)) s1))
        by (apply keeps_silent; [done|done|apply Hs0]).
      assert (Hs2 : keeps T s1
                (emit (EvAcquire t m)
                   (set_mutexes (<[m:=Some (length (heap s))]> (mutexes s1)) s1)))
        by (eapply keeps_trans; [exact Hs1|apply keeps_emit; [done|apply Hs1]]).
      pose proof (IHrun _ _ _ _ (proj1 Hs2) H) as Hs3.
      eapply keeps_trans; [exact Hs0|]. by eapply keeps_trans.
  - assert (Hs0 : keeps T s (emit (EvUnlock t m) s)) by by apply keeps_emit.
    inv_bind H. inv_get E. inv_bind H.
    assert (Hs1 : keeps T (emit (EvUnlock t m) s) a0).
    { destruct a as [f|].
      - eapply IHset; [apply Hs0|exact E0].
      - injection E0 as <-. apply keeps_refl, Hs0. }
    pose proof (IHrun _ _ _ _ (proj1 Hs1) H) as Hs2.
    eapply keeps_trans; [exact Hs0|]. by eapply keeps_trans.
Qed.

Lemma Yield_ws (n : nat) : watch_spec zero T n -> ws_Yield zero T (S n).
Proof.
  intros (IHset & _ & _ & _ & _ & _ & IHres & _) t fut k s r Hq H.
  simpl in H.
  destruct (negb (bool_decide (last (currentTasks s) = Some t))); [done|].
  inv_bind H. inv_get E. destruct (Cause a s) as [er|].
  - inv_bind H. inv_bind H. inv_bind H.
    pose proof (IHset _ _ _ _ _ Hq E0) as Hs1.
    assert (Hs2 : keeps T a0 a1).
    { destruct fut as [p|].
      - eapply IHset; [apply Hs1|exact E1].
      - injection E1 as <-. apply keeps_refl, Hs1. }
    pose proof (IHres _ _ _ _ _ _ (proj1 Hs2) H) as Hs3.
    eapply keeps_trans; [exact Hs1|]. by eapply keeps_trans.
  - injection H as <-. simpl. by apply keeps_upd_task.
Qed.

(** On a store where no pending future holds an observer of [T], no
    function of the block makes a call of [T]. *)
Lemma watch_ok (n : nat) : watch_spec zero T n.
Proof.
  induction n as [|n IH].
  - repeat split; repeat intro; discriminate.
  - pose proof (SetResult_ws n IH). pose proof (invoke_ws n IH).
    pose proof (invoke_done_ws n IH). pose proof (AddResultCallback_ws n IH).
    pose proof (Step_ws n IH). pose proof (next_ws n IH).
    pose proof (resumed_ws n IH). pose proof (run_ws n IH).
    pose proof (Yield_ws n IH). unfold watch_spec. tauto.
Qed.

(** One call of a callback, whatever it is: its own observation if it is
    an observer of [T], and no call of [T] besides. *)
Lemma invoke_seen (n : nat) (cb : callback) (v : V) (e : error) (s s' : state) :
  quiet T s -> invoke zero n cb v e s = Done s' ->
  quiet T s' /\ seen T s' = seen T s ++ List.filter (tagged T) (observe v e cb).
Proof.
  intros Hq H. destruct (cb_quiet T cb) eqn:Hcb.
  - destruct (watch_ok n) as (_ & IH & _). destruct (IH cb v e s s' Hq Hcb H) as [Hq' ->].
    split; [done|]. destruct cb as [tag|[tag| | |]| |]; simpl in *;
      try (by rewrite app_nil_r); apply negb_true_iff in Hcb; rewrite Hcb;
      by rewrite app_nil_r.
  - destruct cb as [tag|[tag| | |]| |]; try done; simpl in Hcb;
      apply negb_false_iff in Hcb.
    + destruct n as [|n]; [done|]. simpl in H. injection H as <-.
      split; [done|]. rewrite seen_emit. simpl. by rewrite Hcb.
    + destruct n as [|[|n]]; [done|done|]. simpl in H. injection H as <-.
      split; [done|]. rewrite seen_emit. simpl. by rewrite Hcb.
Qed.

Lemma foldM_seen (n : nat) (v : V) (e : error) (cbs : list callback) :
  forall s s', quiet T s ->
    foldM (fun cb => invoke zero n cb v e) cbs s = Done s' ->
    quiet T s' /\
    seen T s' = seen T s ++ List.filter (tagged T) (concat (map (observe v e) cbs)).
Proof.
  induction cbs as [|cb cbs IH]; intros s s' Hq H; simpl in H.
  - injection H as <-. split; [done|]. simpl. by rewrite app_nil_r.
  - inv_bind H. destruct (invoke_seen _ _ _ _ _ _ Hq E) as (Hq1 & H1).
    destruct (IH _ _ Hq1 H) as (Hq2 & H2). split; [done|].
    cbn [map concat]. by rewrite H2, H1, List.filter_app, app_assoc.
Qed.

End WatchFacts.

Section CallbackFacts.

Context {V : Type} (zero : V).

Local Abbreviation state := (@state V).

(** C5: for every future, whatever is registered on it.  A callback
    registered on a future that is done is called inside the
    registration, once, with the result the future holds, and is not
    stored: the registration is that one call.  Registered on a pending
    future it is appended to the callbacks and not called.  When the
    future completes, [SetResult] calls the callbacks one after the other
    in the order of their registration, each once, before it returns.
    Told by the trace: the calls of any observers [T] that no other
    pending future holds are, after [SetResult], those of the callbacks
    of this future in the order of registration, one for each, whatever
    the callbacks between them (steps of tasks, shields, [Wait]) do; and
    where the callbacks are all observers, [SetResult] returns with
    exactly their calls added to the trace. *)
Theorem callbacks_fire_once_in_order
  (m : nat) (p : ptr) (f : Future) (cb : callback) (s : state) :
  heap s !! p = Some f ->
  (done f = true ->
     AddResultCallback zero (S m) p cb s = invoke zero m cb (result f) (err_ f) s /\
     (is_observer cb = true ->
        AddResultCallback zero (3 + m) p cb s =
          Done (emits (observe (result f) (err_ f) cb) s)) /\
     (forall T n s', quiet T s -> AddResultCallback zero n p cb s = Done s' ->
        heap s' !! p = Some f /\
        seen T s' =
          seen T s ++ List.filter (tagged T) (observe (result f) (err_ f) cb))) /\
  (done f = false ->
     AddResultCallback zero (S m) p cb s = Done (upd_fut p (push_callback cb f) s) /\
     callbacks (push_callback cb f) = callbacks f ++ [cb] /\
     forall v e,
       SetResult zero (S m) p v e s =
         foldM (fun c => invoke zero m c v e) (callbacks f)
               (upd_fut p (mark_done v e f) s) /\
       (forallb is_observer (callbacks f) = true ->
          SetResult zero (3 + m) p v e s =
            Done (emits (concat (map (observe v e) (callbacks f)))
                        (upd_fut p (mark_done v e f) s))) /\
       (forall T n s', quiet_but p T s -> SetResult zero n p v e s = Done s' ->
          heap s' !! p = Some (mark_done v e f) /\
          seen T s' =
            seen T s ++
            List.filter (tagged T) (concat (map (observe v e) (callbacks f))))).
Proof.
  intros Hp. split; intros Hd.
  - assert (Heq : forall n, AddResultCallback zero (S n) p cb s =
                            invoke zero n cb (result f) (err_ f) s).
    { intros n. cbn [AddResultCallback]. unfold get_fut. rewrite Hp.
      cbn [of_option bind]. by rewrite Hd. }
    split; [apply Heq|]. split.
    + intros Hcb. cbn [Nat.add]. rewrite Heq. by apply invoke_observer.
    + intros T n s' Hq H. split.
      * apply (exec_all_keeps_done zero n [OAddResultCallback p cb] s s' p f);
          [|done|done].
        unfold exec_all. cbn [foldM exec]. by rewrite H.
      * destruct n as [|n]; [done|]. rewrite Heq in H.
        by destruct (invoke_seen zero T _ _ _ _ _ _ Hq H).
  - split; [|split; [done|]].
    + cbn [AddResultCallback]. unfold get_fut. rewrite Hp. cbn [of_option bind].
      by rewrite Hd.
    + intros v e.
      assert (Heq : forall n, SetResult zero (S n) p v e s =
                              foldM (fun c => invoke zero n c v e) (callbacks f)
                                    (upd_fut p (mark_done v e f) s)).
      { intros n. cbn [SetResult]. unfold get_fut. rewrite Hp.
        cbn [of_option bind]. by rewrite Hd. }
      split; [apply Heq|]. split.
      * intros Hcbs. cbn [Nat.add]. rewrite Heq. by apply foldM_observers.
      * intros T n s' Hq H. split; [by eapply SetResult_pending|].
        destruct n as [|n]; [done|]. rewrite Heq in H.
        pose proof (quiet_mark_done T p f v e s Hq) as Hq1.
        by destruct (foldM_seen zero T _ _ _ _ _ _ Hq1 H).
Qed.

End CallbackFacts.

(** ** The theorems at work on the example store *)

Lemma SetResult_only_first_call_takes_effect_witness :
  exists f1,
    heap (from_Done example_store (exec 0 5 (OCancel 0 None) example_store)) !! 0
      = Some f1 /\
    done f1 = true /\ result f1 = 0 /\ err_ f1 = Some Canceled /\
    (forall m o2 r, completion 0 0 o2 = Some r ->
       exec 0 (S m) o2 (from_Done example_store (exec 0 5 (OCancel 0 None) example_store))
       = Done (from_Done example_store (exec 0 5 (OCancel 0 None) example_store))) /\
    (forall m os s2,
       exec_all 0 m os (from_Done example_store (exec 0 5 (OCancel 0 None) example_store))
       = Done s2 -> heap s2 !! 0 = Some f1).
Proof.
  apply (SetResult_only_first_call_takes_effect 0 5 0 example_future
           (OCancel 0 None) 0 (Some Canceled) example_store);
    vm_compute; reflexivity.
Defined.

Lemma callbacks_fire_once_in_order_witness :
  heap watched_store !! 0 = Some watched_future /\
  (done watched_future = false ->
     AddResultCallback 0 1 0 (CbUser 9) watched_store =
       Done (upd_fut 0 (push_callback (CbUser 9) watched_future) watched_store) /\
     callbacks (push_callback (CbUser 9) watched_future) =
       callbacks watched_future ++ [CbUser 9] /\
     forall v e,
       SetResult 0 1 0 v e watched_store =
         foldM (fun c => invoke 0 0 c v e) (callbacks watched_future)
               (upd_fut 0 (mark_done v e watched_future) watched_store) /\
       (forallb is_observer (callbacks watched_future) = true ->
          SetResult 0 (3 + 0) 0 v e watched_store =
            Done (emits (concat (map (observe v e) (callbacks watched_future)))
                        (upd_fut 0 (mark_done v e watched_future) watched_store))) /\
       (forall T n s',
          quiet_but 0 T watched_store -> SetResult 0 n 0 v e watched_store = Done s' ->
          heap s' !! 0 = Some (mark_done v e watched_future) /\
          seen T s' =
            seen T watched_store ++
            List.filter (tagged T)
              (concat (map (observe v e) (callbacks watched_future))))).
Proof.
  split; [reflexivity|].
  apply (callbacks_fire_once_in_order 0 0 0 watched_future (CbUser 9) watched_store).
  reflexivity.
Defined.

(** The order in which the two observers of the example are called. *)
Example callbacks_of_example_in_order :
  trace (from_Done example_store (SetResult 0 3 0 5 None example_store)) =
  [EvResult 7 5 None; EvDone 8 None].
Proof. reflexivity. Qed.

(** On the future a task awaits: the first observer, the rest of the
    task, the second observer; and the task has its result. *)
Example callbacks_of_awaited_future_in_order :
  let s' := from_Done empty_state (SetResult 0 20 0 5 None watched_store) in
  trace watched_store = [EvStart 0] /\
  trace s' = [EvStart 0; EvResult 7 5 None; EvMark 0 1; EvDone 8 None] /\
  Result 0 1 s' = Done (5, None).
Proof. repeat split; reflexivity. Qed.



Lemma Wait_without_futures_stays_pending_witness :
  exists s1,
    Wait 0 0 WaitAll [] example_store = Done (length (heap example_store), s1) /\
    heap s1 = heap example_store ++ [fresh_future 0] /\
    forall m os s2,
      forallb (op_ok (fun q => negb (q =? length (heap example_store)))
                     (fun _ => true) true) os = true ->
      exec_all 0 m os s1 = Done s2 ->
      HasResult (length (heap example_store)) s2 = Done false.
Proof.
  apply (Wait_without_futures_stays_pending 0 0 WaitAll example_store).
  vm_compute; reflexivity.
Defined.

(** C2 on the empty store: [NewFuture().Result()] panics. *)
Example Result_of_new_future_panics_example :
  Result 0 0 (snd (NewFuture 0 empty_state)) = Panic.
Proof. reflexivity. Qed.

(** C8, at the input on which the code breaks the invariant: two items
    are pushed on an empty queue and one is taken.  [Get] completes its
    future with the first item and still appends it to the waiters, so the
    queue is left with an item and a waiter. *)
Theorem Get_leaves_items_and_waiter :
  let q0 := {| data := []; futs := [] |} in
  exists q1 q2 q3 s1 s2 s3 fut,
    Push 0 5 1 q0 empty_state = Done (q1, s1) /\
    Push 0 5 2 q1 s1 = Done (q2, s2) /\
    Get 0 5 q2 s2 = Done (q3, fut, s3) /\
    data q2 = [1; 2] /\ futs q2 = [] /\
    Result 0 fut s3 = Done (1, None) /\
    data q3 = [2] /\ futs q3 = [fut].
Proof. do 7 eexists. repeat split; vm_compute; reflexivity. Qed.


(** The same task with and without the cancellation: left alone, the loop
    starts the coroutine and its result arrives; cancelled first, the loop
    finds the result future complete and starts nothing. *)
Example spawn_then_run :
  let body := PMark 1 (PRet 3 None) in
  let s1 := snd (from_Done (0, empty_state) (SpawnTask 0 5 body empty_state)) in
  trace (from_Done s1 (runReadyCallbacks 0 9 s1)) = [EvStart 0; EvMark 0 1] /\
  Result 0 0 (from_Done s1 (runReadyCallbacks 0 9 s1)) = Done (3, None) /\
  let s2 := from_Done s1 (Task_Cancel 0 5 0 None s1) in
  trace (from_Done s2 (runReadyCallbacks 0 9 s2)) = [] /\
  Result 0 0 (from_Done s2 (runReadyCallbacks 0 9 s2)) = Done (0, Some Canceled).
Proof. repeat split; vm_compute; reflexivity. Qed.

(** A stream with "h" buffered whose file still delivers "i\nj". *)
Lemma ReadUntil_returns_up_to_delimiter_witness :
  let a := {| Stream.buffer := [x68];
              Stream.file := [ {| Stream.bytes := [x69; x0a; x6a];
                                  Stream.read_err := None;
                                  Stream.wait_err := None |} ] |} in
  exists out e a',
    Stream.ReadUntil 20 x0a a = Done (out, e, a') /\
    match Stream.index x0a (Stream.buffer a ++ [x69; x0a; x6a]) with
    | Some i => out = take (i + 1) (Stream.buffer a ++ [x69; x0a; x6a]) /\ e = None
    | None =>
        match Stream.buffer a ++ [x69; x0a; x6a] with
        | [] => out = [] /\ e <> None
        | _ :: _ => out = Stream.buffer a ++ [x69; x0a; x6a] /\ e = None
        end
    end.
Proof.
  intros a.
  apply (ReadUntil_returns_up_to_delimiter x0a a [x69; x0a; x6a] 20);
    [reflexivity | vm_compute; lia].
Defined.

(** Reading lines from a pipe that was sent "hi\nyo" in two writes, the
    second one after the reader had to wait: "hi\n", then "yo" at the end
    of the file, then the end-of-file error. *)
Example ReadLine_on_a_pipe :
  let a0 := {| Stream.buffer := [];
               Stream.file := [ {| Stream.bytes := [x68; x69; x0a; x79];
                                   Stream.read_err := None;
                                   Stream.wait_err := None |};
                                {| Stream.bytes := [];
                                   Stream.read_err := Some EAGAIN;
                                   Stream.wait_err := None |};
                                {| Stream.bytes := [x6f];
                                   Stream.read_err := None;
                                   Stream.wait_err := None |} ] |} in
  exists a1 a2 a3,
    Stream.ReadUntil 9 x0a a0 = Done ([x68; x69; x0a], None, a1) /\
    Stream.ReadUntil 9 x0a a1 = Done ([x79; x6f], None, a2) /\
    Stream.ReadUntil 9 x0a a2 = Done ([], Some EOF, a3).
Proof. do 3 eexists. repeat split; vm_compute; reflexivity. Qed.

(** Three tasks and one mutex.  The first takes the mutex and waits, inside
    its critical section, for future 0; the second waits in [Lock]. *)
Example mutex_handover :
  let A := PLock 0 (PMark 1 (PAwait 0 (PUnlock 0 (PRet 1 None)))) in
  let B := PLock 0 (PMark 2 (PUnlock 0 (PRet 2 None))) in
  exists s1 s2,
    exec_all 0 30 [ONewFuture; ONewMutex; OSpawnTask A; OSpawnTask B; ORunReady]
             empty_state = Done s1 /\
    trace s1 = [EvStart 0; EvAcquire 0 0; EvMark 0 1; EvStart 1] /\
    exec_all 0 30 [OSetResult 0 7 None] s1 = Done s2 /\
    trace s2 = trace s1 ++ [EvUnlock 0 0; EvAcquire 1 0; EvMark 1 2; EvUnlock 1 0] /\
    after 0 (trace s2) = Some false.
Proof.
  eexists _, _. split; [vm_compute; reflexivity|]. split; [reflexivity|].
  split; [vm_compute; reflexivity|]. split; reflexivity.
Qed.

(** C7. A mutex does not keep to one holder when a task that waits in
    [Lock] is cancelled: [Await] waits on the unlock future the mutex
    shares with its holder, the cancelled task cancels the future it waits
    on (line 207), and a completed unlock future is what [Lock] takes for
    a free mutex (line 818).  Task 0 holds the mutex and has not unlocked
    it when task 2 has its [Lock] return nil; both are in their critical
    section. *)
Theorem Mutex_cancelled_waiter_frees_the_lock :
  let A := PLock 0 (PMark 1 (PAwait 0 (PUnlock 0 (PRet 1 None)))) in
  let B := PLock 0 (PMark 2 (PUnlock 0 (PRet 2 None))) in
  let C := PLock 0 (PMark 3 (PAwait 0 (PUnlock 0 (PRet 3 None)))) in
  exists s1 s2 s3,
    exec_all 0 30 [ONewFuture; ONewMutex; OSpawnTask A; OSpawnTask B; ORunReady]
             empty_state = Done s1 /\
    trace s1 = [EvStart 0; EvAcquire 0 0; EvMark 0 1; EvStart 1] /\
    Task_Cancel 0 30 1 None s1 = Done s2 /\
    exec_all 0 30 [OSpawnTask C; ORunReady] s2 = Done s3 /\
    trace s3 = trace s1 ++ [EvStart 2; EvAcquire 2 0; EvMark 2 3] /\
    after 0 (trace s3) = None.
Proof.
  eexists _, _, _. split; [vm_compute; reflexivity|]. split; [reflexivity|].
  split; [vm_compute; reflexivity|]. split; [vm_compute; reflexivity|].
  split; reflexivity.
Qed.

(** A chunk of two bytes from a stream that has one buffered. *)
Lemma ReadChunk_returns_chunk_witness :
  exists out e a',
    Stream.ReadChunk 20 2 example_stream = Done (out, e, a') /\
    (out ++ Stream.buffer a') `prefix_of`
      (Stream.buffer example_stream ++ [x69; x0a; x6a]) /\
    match Stream.buffer example_stream ++ [x69; x0a; x6a], 2 with
    | [], S _ => out = [] /\ errors_Is e EOF = true
    | _, _ => out = take 2 (Stream.buffer example_stream ++ [x69; x0a; x6a]) /\ e = None
    end.
Proof.
  apply (ReadChunk_returns_chunk 2 example_stream [x69; x0a; x6a] 20);
    [reflexivity | vm_compute; lia].
Defined.

Lemma read_appends_what_the_file_delivers_witness :
  exists got rest e a',
    Stream.read 3 example_stream = (length (Stream.buffer a'), e, a') /\
    Stream.buffer a' = Stream.buffer example_stream ++ got /\
    length (Stream.buffer a') <= 3 /\
    [x69; x0a; x6a] = got ++ rest /\
    (e = None -> Stream.stream_bytes (Stream.file a') = Some rest) /\
    (e <> None -> errors_Is e EOF = true /\ rest = []).
Proof.
  apply (read_appends_what_the_file_delivers 3 example_stream [x69; x0a; x6a]);
    [vm_compute; lia | reflexivity].
Defined.

(** "ab\ncd\nef": three pieces; a [yield] that fails from its second call
    on is called twice and not a third time. *)
Example yieldLines_of_three_lines :
  Stream.yieldLines Stream.collect [x61; x62; x0a; x63; x64; x0a; x65; x66] []
    = ([[x61; x62; x0a]; [x63; x64; x0a]; [x65; x66]], None) /\
  Stream.yieldLines (Stream.log_upto 1 EOF) [x61; x62; x0a; x63; x64; x0a; x65; x66] []
    = ([[x61; x62; x0a]; [x63; x64; x0a]], Some EOF).
Proof. split; reflexivity. Qed.

(** A queue left with an item and a completed waiter: [Push] drops the
    waiter. *)
Lemma Push_leaves_items_or_waiters_witness :
  let q := {| data := [1]; futs := [0] |} in
  let r := from_Done (q, cancelled_and_pending) (Push 0 5 2 q cancelled_and_pending) in
  (data (fst r) = [] \/ futs (fst r) = []) /\
  futs (fst r) `suffix_of` futs q /\
  data (fst r) `suffix_of` (data q ++ [2]).
Proof.
  intros q r.
  apply (Push_leaves_items_or_waiters 0 5 2 q (fst r) cancelled_and_pending (snd r)).
  vm_compute. reflexivity.
Defined.

Lemma Get_after_Push_returns_the_oldest_item_witness :
  let q := {| data := [1]; futs := [] |} in
  exists q1 q2 s2,
    Push 0 5 2 q example_store = Done (q1, example_store) /\
    data q1 = data q ++ [2] /\
    Get 0 (S 4) q1 example_store = Done (q2, length (heap example_store), s2) /\
    Result 0 (length (heap example_store)) s2 = Done (hd 2 (data q), None) /\
    data q2 = tl (data q ++ [2]).
Proof.
  intros q. apply (Get_after_Push_returns_the_oldest_item 0 5 4 2 q example_store).
  reflexivity.
Defined.

Lemma Push_hands_the_item_to_the_first_pending_waiter_witness :
  let q := {| data := []; futs := [0; 1] |} in
  Push (V := nat) 0 5 7 q cancelled_and_pending =
    (let* s1 := SetResult 0 5 1 7 None cancelled_and_pending in
     Done ({| data := []; futs := [] |}, s1)) /\
  forall s1, SetResult 0 5 1 7 None cancelled_and_pending = Done s1 ->
             Result 0 1 s1 = Done (7, None).
Proof.
  intros q.
  apply (Push_hands_the_item_to_the_first_pending_waiter 0 5 7 q [0] [] 1
           (fresh_future 0) cancelled_and_pending); try reflexivity.
  apply Forall_cons. split; [|apply Forall_nil_2].
  eexists. split; reflexivity.
Defined.

(** [Wait] for the two futures of [two_futures]: the second one fails
    first. *)
Lemma Wait_first_completion_witness :
  exists s1 s2,
    Wait 0 (S 3) WaitFirstError [0; 1] two_futures
      = Done (length (heap two_futures), s1) /\
    HasResult (length (heap two_futures)) s1 = Done false /\
    SetResult 0 (4 + 0) 1 5 (Some EOF) s1 = Done s2 /\
    if bool_decide (is_Some (Some EOF)) || WaitMode_eqb WaitFirstError WaitFirstResult
       || (length [0; 1] <=? 1)
    then Result 0 (length (heap two_futures)) s2 = Done (0, Some EOF)
    else HasResult (length (heap two_futures)) s2 = Done false.
Proof.
  apply (Wait_first_completion 0 3 0 WaitFirstError [0; 1] 1 5 (Some EOF) two_futures).
  - apply (bool_decide_unpack _). vm_compute. exact I.
  - repeat (apply Forall_cons; split; [eexists; split; [reflexivity|split; reflexivity]|]).
    apply Forall_nil_2.
  - apply (bool_decide_unpack _). vm_compute. exact I.
  - discriminate.
Defined.

(** [WaitAll] for the same two futures: the first fails, then the second
    succeeds, and the error of the first is reported. *)
Lemma WaitAll_reports_when_the_last_future_succeeds_witness :
  let cs := [(0, 5, Some EOF); (1, 6, None)] in
  exists s1 s2,
    Wait 0 (S 3) WaitAll [0; 1] two_futures = Done (length (heap two_futures), s1) /\
    complete_all 0 (4 + 0) cs s1 = Done s2 /\
    match last cs with
    | Some (_, _, None) =>
        Result 0 (length (heap two_futures)) s2 = Done (0, futErr_after cs)
    | _ => HasResult (length (heap two_futures)) s2 = Done false
    end.
Proof.
  intros cs.
  apply (WaitAll_reports_when_the_last_future_succeeds 0 3 0 [0; 1] cs two_futures).
  - apply (bool_decide_unpack _). vm_compute. exact I.
  - repeat (apply Forall_cons; split; [eexists; split; [reflexivity|split; reflexivity]|]).
    apply Forall_nil_2.
  - reflexivity.
  - discriminate.
Defined.

(** The same when the failure comes last: nothing is reported. *)
Example WaitAll_stays_pending_when_the_last_future_fails :
  let s1 := snd (from_Done (0, two_futures) (Wait 0 4 WaitAll [0; 1] two_futures)) in
  let s2 := from_Done s1 (complete_all 0 4 [(0, 5, None); (1, 6, Some EOF)] s1) in
  HasResult 0 s2 = Done true /\ HasResult 1 s2 = Done true /\
  HasResult 2 s2 = Done false.
Proof. repeat split; vm_compute; reflexivity. Qed.

(** Two tasks that take the mutex, yield to the loop inside the critical
    section and unlock. *)
Lemma Mutex_one_holder_while_nothing_is_cancelled_witness :
  let A := PLock 0 (PMark 1 (PYield (PUnlock 0 (PRet 1 None)))) in
  let B := PLock 0 (PMark 2 (PYield (PUnlock 0 (PRet 2 None)))) in
  let os := [ONewMutex; OSpawnTask A; OSpawnTask B; ORunReady] in
  let s := from_Done empty_state (exec_all 0 30 os empty_state) in
  trace s = [EvStart 0; EvAcquire 0 0; EvMark 0 1; EvStart 1; EvUnlock 0 0;
             EvAcquire 1 0; EvMark 1 2; EvUnlock 1 0] /\
  forall m, exists b, after m (trace s) = Some b /\ (b = true -> held m s).
Proof.
  intros A B os s. split; [vm_compute; reflexivity|].
  apply (Mutex_one_holder_while_nothing_is_cancelled 0 30 os s); vm_compute; reflexivity.
Defined.

(** A coroutine with two marks that returns 3, spawned on the example
    store. *)
Lemma task_completes_with_what_the_coroutine_returns_witness :
  exists s',
    exec_all 0 10 [OSpawnTask (straight [1; 2] 3 None); ORunReady] example_store
      = Done s' /\
    Result 0 (length (heap example_store)) s' = Done (3, None) /\
    trace s' = trace example_store ++ EvStart (length (tasks example_store))
                 :: map (EvMark (length (tasks example_store))) [1; 2] /\
    pendingCallbacks s' = [] /\
    exists tk, tasks s' !! length (tasks example_store) = Some tk /\
               coro tk = CoFinished.
Proof.
  apply (task_completes_with_what_the_coroutine_returns 0 10 [1; 2] 3 None example_store);
    [reflexivity | reflexivity | simpl; lia].
Defined.

(** The waiting task is cancelled: the future it waits for is cancelled
    with it. *)
Lemma cancelling_a_task_cancels_the_future_it_awaits_witness :
  exists s',
    Task_Cancel 0 11 0 None awaiting_store = Done s' /\
    Result 0 (resultFut awaiting_task) s' = Done (0, cancel_err None) /\
    Result 0 0 s' = Done (0, Some Canceled) /\
    trace s' = trace awaiting_store /\
    exists tk', tasks s' !! 0 = Some tk' /\ coro tk' = CoFinished /\
                pendingFut tk' = None.
Proof.
  apply (cancelling_a_task_cancels_the_future_it_awaits 0 11 0 awaiting_task 0
           (straight [1] 5 None)
           (push_callback (CbDone (DcTaskDone 0)) (fresh_future 0))
           (push_callback (CbDone (DcStep 0)) (fresh_future 0)) None awaiting_store);
    try (vm_compute; reflexivity).
  simpl. lia.
Defined.

(** The future the task waits for completes: the task goes on and
    returns 5. *)
Lemma completing_a_future_resumes_the_task_that_awaits_it_witness :
  exists s',
    SetResult 0 12 0 9 None awaiting_store = Done s' /\
    Result 0 0 s' = Done (9, None) /\
    Result 0 (resultFut awaiting_task) s' =
      Done (match @None err with None => (5, None) | Some _ => (0, None) end) /\
    trace s' = trace awaiting_store ++ match @None err with
                                       | None => map (EvMark 0) [1]
                                       | Some _ => []
                                       end /\
    exists tk', tasks s' !! 0 = Some tk' /\ coro tk' = CoFinished.
Proof.
  apply (completing_a_future_resumes_the_task_that_awaits_it 0 12 0 awaiting_task 0
           (push_callback (CbDone (DcTaskDone 0)) (fresh_future 0))
           (push_callback (CbDone (DcStep 0)) (fresh_future 0))
           [1] 5 9 None None awaiting_store);
    try (vm_compute; reflexivity).
  simpl. lia.
Defined.

(** The first step of a task that awaits a completed future. *)
Lemma awaiting_a_completed_future_goes_on_in_the_same_step_witness :
  let tk := new_task (PAwait 0 (straight [1] 5 None)) 1 in
  let fp := mark_done 9 None (fresh_future 0) in
  exists s',
    Step 0 13 0 spawned_on_completed = Done s' /\
    Result 0 (resultFut tk) s' =
      Done (match err_ fp with None => (5, None) | Some _ => (0, err_ fp) end) /\
    trace s' = trace spawned_on_completed ++ EvStart 0
                 :: match err_ fp with
                    | None => map (EvMark 0) [1]
                    | Some _ => []
                    end /\
    pendingCallbacks s' = pendingCallbacks spawned_on_completed /\
    exists tk', tasks s' !! 0 = Some tk' /\ coro tk' = CoFinished.
Proof.
  intros tk fp.
  apply (awaiting_a_completed_future_goes_on_in_the_same_step 0 13 0 tk 0
           (push_callback (CbDone (DcTaskDone 0)) (fresh_future 0)) fp
           [1] 5 None spawned_on_completed);
    try (vm_compute; reflexivity).
  simpl. lia.
Defined.

(** The shield of a new future is completed with an error that is no
    cancellation. *)
Lemma completing_a_shield_completes_its_source_witness :
  exists s1 s2,
    Shield 0 (S 3) 0 two_futures = Done (length (heap two_futures), s1) /\
    SetResult 0 (5 + 0) (length (heap two_futures)) 7 (Some EOF) s1 = Done s2 /\
    Result 0 (length (heap two_futures)) s2 = Done (7, Some EOF) /\
    Result 0 0 s2 = Done (7, Some EOF).
Proof.
  apply (completing_a_shield_completes_its_source 0 3 0 0 7 (Some EOF) two_futures).
  - eexists. split; [reflexivity|]. split; reflexivity.
  - reflexivity.
Defined.

(** The loop's context reaches its deadline while the task waits; then
    the future it waits for completes. *)
Lemma a_task_resumed_under_a_cancelled_context_ends_with_the_cause_witness :
  let s := set_parent_cause (Some DeadlineExceeded) awaiting_store in
  exists s',
    SetResult 0 9 0 9 None s = Done s' /\
    Result 0 0 s' = Done (9, None) /\
    Result 0 (resultFut awaiting_task) s' = Done (0, Some DeadlineExceeded) /\
    trace s' = trace s /\
    exists tk', tasks s' !! 0 = Some tk' /\ coro tk' = CoFinished.
Proof.
  intros s.
  apply (a_task_resumed_under_a_cancelled_context_ends_with_the_cause 0 9 0 awaiting_task
           0 (straight [1] 5 None)
           (push_callback (CbDone (DcTaskDone 0)) (fresh_future 0))
           (push_callback (CbDone (DcStep 0)) (fresh_future 0))
           9 None DeadlineExceeded s);
    try (vm_compute; reflexivity).
  simpl. lia.
Defined.

(** A consumer first, then a producer, on the example store. *)
Lemma Push_after_Get_completes_the_future_of_Get_witness :
  let q := {| data := []; futs := [] |} in
  exists q1 s1 q2 s2,
    Get 0 0 q example_store = Done (q1, length (heap example_store), s1) /\
    HasResult (length (heap example_store)) s1 = Done false /\
    futs q1 = [length (heap example_store)] /\
    Push 0 (S 4) 7 q1 s1 = Done (q2, s2) /\
    Result 0 (length (heap example_store)) s2 = Done (7, None) /\
    data q2 = [] /\ futs q2 = [].
Proof.
  intros q.
  apply (Push_after_Get_completes_the_future_of_Get 0 0 4 7 q example_store);
    reflexivity.
Defined.

(** A coroutine that marks 1, yields to the loop, marks 2 and returns 3. *)
Lemma a_task_that_yields_is_resumed_in_the_same_pass_witness :
  exists s',
    exec_all 0 12 [OSpawnTask (then_yield [1] (straight [2] 3 None)); ORunReady]
             example_store = Done s' /\
    Result 0 (length (heap example_store)) s' = Done (3, None) /\
    trace s' = trace example_store ++ EvStart (length (tasks example_store))
                 :: map (EvMark (length (tasks example_store))) [1]
                 ++ map (EvMark (length (tasks example_store))) [2] /\
    pendingCallbacks s' = [] /\
    exists tk, tasks s' !! length (tasks example_store) = Some tk /\
               coro tk = CoFinished.
Proof.
  apply (a_task_that_yields_is_resumed_in_the_same_pass 0 12 [1] [2] 3 None
           example_store); [reflexivity | reflexivity | simpl; lia].
Defined.
